(** * A reactive dependency-tracking engine (effect / track / trigger),
      its scheduler, computed cells, watchers and the Proxy handlers.

    The repository contains four scripts that extend one another:
      - [src/unnamed/part_000]            effect + scheduler + [computed];
      - [实现watch.js], first script      effect + scheduler + [watch];
      - [实现watch.js], second script     effect + batching scheduler
                                            ([jobQueue] / [flushJob]);
      - [实现watch.js], third script      deep / shallow / read-only handles,
                                            arrays, [TriggerType], [ITERATE_KEY].
    [effect], [cleanup], [track] and the two-argument [trigger] have the same
    text in the first three scripts; module [Core] embeds them once, together
    with [computed], [watch] and the job queue.  Module [Reactive] embeds the
    handlers of the third script. *)

From Stdlib Require Import ZArith List String Bool Lia DecimalString.
From stdpp Require Import base option list gmap.

Local Open Scope Z_scope.
Local Open Scope nat_scope.

(* ===================================================================== *)
(** * JavaScript data *)
(* ===================================================================== *)

(** Property keys.  [KIdx n] is the canonical array-index string of [n]
    (['0'], ['1'], ...), for [n] below 2^32 - 1; [KStr s] is any other string
    key (['length'], ['foo'], ['value'], ['raw']); [KSym n] is a symbol made
    by [Symbol()]. *)
Inductive key : Type :=
| KIdx (n : nat)
| KStr (s : string)
| KSym (n : nat).

#[global] Instance key_eq_dec : EqDecision key.
Proof. solve_decision. Defined.

(** Values.  Numbers are the integers (as [Z]) and [NaN]; fractions and the
    infinities are left out.  [VObj o] is a reference to the heap object
    [o]: object identity is the number. *)
Inductive value : Type :=
| VUndef
| VNull
| VBool (b : bool)
| VNum (z : Z)
| VNaN
| VStr (s : string)
| VObj (o : nat).

#[global] Instance value_eq_dec : EqDecision value.
Proof. solve_decision. Defined.

(** [a === b]: identity on references, value equality on primitives, and
    [NaN] different from everything, itself included. *)
Definition strict_eq (a b : value) : bool :=
  match a, b with
  | VNaN, _ | _, VNaN => false
  | _, _ => bool_decide (a = b)
  end.

(** [ToBoolean]. *)
Definition truthy (v : value) : bool :=
  match v with
  | VUndef | VNull | VNaN => false
  | VBool b => b
  | VNum z => negb (Z.eqb z 0)
  | VStr s => negb (String.eqb s "")
  | VObj _ => true
  end.

(** ** [Set]: insertion-ordered, no duplicates *)
Section JsSet.
Context {A : Type} `{EqDecision A}.

Definition set_has (x : A) (l : list A) : bool := bool_decide (x ∈ l).

Definition set_add (x : A) (l : list A) : list A :=
  if set_has x l then l else l ++ [x].

Definition set_delete (x : A) (l : list A) : list A :=
  filter (λ y, y ≠ x) l.
End JsSet.

(** ** [Map]: insertion-ordered association list *)
Section JsMap.
Context {K V : Type} `{EqDecision K}.

Fixpoint map_get (k : K) (m : list (K * V)) : option V :=
  match m with
  | [] => None
  | (k', v) :: m' => if decide (k = k') then Some v else map_get k m'
  end.

Fixpoint map_set (k : K) (v : V) (m : list (K * V)) : list (K * V) :=
  match m with
  | [] => [(k, v)]
  | (k', v') :: m' =>
      if decide (k = k') then (k, v) :: m' else (k', v') :: map_set k v m'
  end.

Fixpoint map_delete (k : K) (m : list (K * V)) : list (K * V) :=
  match m with
  | [] => []
  | (k', v') :: m' =>
      if decide (k = k') then m' else (k', v') :: map_delete k m'
  end.
End JsMap.

(** A dependency map: [Map<key, Set<effect>>]. *)
Abbreviation DepsMap := (list (key * list nat)).

(** The own data properties of a plain object, in creation order. *)
Abbreviation Props := (list (key * value)).

(** ** The dependency store [bucket]: [WeakMap<target, Map<key, Set>>]

    A dependency set is created once per (target, key) by [track] and is
    never replaced, so a reference to the set (as kept in [effectFn.deps])
    is the pair (target, key). *)

(** The subscriber set of (target, key); empty when none was created. *)
Definition subs_in (b : gmap nat DepsMap) (t : nat) (k : key) : list nat :=
  default [] (map_get k (default [] (b !! t))).

(** The find-or-create steps of [track], then [deps.add(activeEffect)]. *)
Definition deps_add (e : nat) (t : nat) (k : key) (b : gmap nat DepsMap)
  : gmap nat DepsMap :=
  let depsMap := default [] (b !! t) in
  let deps := default [] (map_get k depsMap) in
  <[t := map_set k (set_add e deps) depsMap]> b.

(** [deps.delete(effectFn)] on the set referenced by one entry of
    [effectFn.deps]. *)
Definition deps_delete (e : nat) (b : gmap nat DepsMap) (d : nat * key)
  : gmap nat DepsMap :=
  match b !! d.1 with
  | Some dm =>
      match map_get d.2 dm with
      | Some effs => <[d.1 := map_set d.2 (set_delete e effs) dm]> b
      | None => b
      end
  | None => b
  end.

(** The exceptions the scripts can end in. *)
Inductive error : Type := TypeError | RangeError.

(** The callback of the [forEach] loops of [trigger]:
    [if (effect !== activeEffect) effectsToRun.add(effect)]. *)
Definition add_unless_active (a : option nat) (acc : list nat) (e : nat)
  : list nat :=
  if decide (Some e = a) then acc else set_add e acc.

(* ===================================================================== *)
(** * The core engine: effect, cleanup, track, trigger, scheduler,
      computed, watch *)
(* ===================================================================== *)

Module Core.

(** ** Programs run by the engine

    The bodies handed to [effect], [computed] and [watch] are user code.
    They are trees of the operations such code performs on the engine:
    reading and writing a property through a handle made by [getProxyObj],
    reading a computed cell's [value], printing, and (inside a watcher
    callback) calling [onInvalidate].  A handle made by [getProxyObj(obj)]
    has no state of its own, so it is named by its target [obj]. *)
Inductive Prog : Type :=
| Ret (v : value)
| Get (t : nat) (k : key) (cont : value -> Prog)
| Put (t : nat) (k : key) (v : value) (cont : Prog)
| Log (vs : list value) (cont : Prog)
| GetValue (c : nat) (cont : value -> Prog)
| OnInvalidate (w : nat) (f : Prog) (cont : Prog).

(** The schedulers the scripts install in [options.scheduler]. *)
Inductive sched : Type :=
| SComputed (c : nat)   (* computed: dirty = true, trigger(obj, 'value') *)
| SWatch (w : nat)      (* watch: job now, or in a microtask for flush 'post' *)
| SBatch.               (* jobQueue.add(fn); flushJob() *)

(** An effect function [effectFn] with its [options] and its [deps] array
    (references to dependency sets). *)
Record EffectFn : Type := mkEffectFn {
  fn : Prog;
  lazy : bool;
  scheduler : option sched;
  deps : list (nat * key)
}.

(** The local variables closed over by one [computed(getter)] call. *)
Record Cell : Type := mkCell {
  c_value : value;
  c_dirty : bool;
  c_effect : nat;
  c_obj : nat
}.

(** The local variables closed over by one [watch(source, cb, options)]
    call. *)
Record Watcher : Type := mkWatcher {
  w_cb : value -> value -> nat -> Prog;
  w_effect : nat;
  w_newValue : value;
  w_oldValue : value;
  w_cleanup : option Prog;
  w_post : bool
}.

(** Microtasks: the callback [flushJob] gives to [p.then], the one it gives
    to [finally], and a watcher job deferred by [flush: 'post']. *)
Inductive task : Type :=
| TFlush
| TFinally
| TJob (w : nat).

Record State : Type := mkState {
  heap : list Props;                (* objects, by identity *)
  bucket : gmap nat DepsMap;        (* WeakMap target -> Map key -> Set *)
  effects : list EffectFn;          (* effect functions, by identity *)
  activeEffect : option nat;
  effectStack : list nat;           (* head = last pushed *)
  cells : list Cell;
  watchers : list Watcher;
  jobQueue : list nat;
  isFlushing : bool;
  microtasks : list task;
  console : list (list value);      (* console.log lines, oldest first *)
  runs : list nat;                  (* ghost: calls of effect functions *)
  readLog : list (nat * nat * key)  (* ghost: reads made while an effect is
                                       active: (effect, target, key) *)
}.

Definition initial : State :=
  mkState [] ∅ [] None [] [] [] [] false [] [] [] [].

Definition with_heap (h : list Props) (s : State) : State :=
  mkState h (bucket s) (effects s) (activeEffect s) (effectStack s) (cells s)
    (watchers s) (jobQueue s) (isFlushing s) (microtasks s) (console s) (runs
    s) (readLog s).
Definition with_bucket (b : gmap nat DepsMap) (s : State) : State :=
  mkState (heap s) b (effects s) (activeEffect s) (effectStack s) (cells s)
    (watchers s) (jobQueue s) (isFlushing s) (microtasks s) (console s) (runs
    s) (readLog s).
Definition with_effects (e : list EffectFn) (s : State) : State :=
  mkState (heap s) (bucket s) e (activeEffect s) (effectStack s) (cells s)
    (watchers s) (jobQueue s) (isFlushing s) (microtasks s) (console s) (runs
    s) (readLog s).
Definition with_active (a : option nat) (st : list nat) (s : State) : State :=
  mkState (heap s) (bucket s) (effects s) a st (cells s) (watchers s)
    (jobQueue s) (isFlushing s) (microtasks s) (console s) (runs s) (readLog
    s).
Definition with_cells (c : list Cell) (s : State) : State :=
  mkState (heap s) (bucket s) (effects s) (activeEffect s) (effectStack s) c
    (watchers s) (jobQueue s) (isFlushing s) (microtasks s) (console s) (runs
    s) (readLog s).
Definition with_watchers (w : list Watcher) (s : State) : State :=
  mkState (heap s) (bucket s) (effects s) (activeEffect s) (effectStack s)
    (cells s) w (jobQueue s) (isFlushing s) (microtasks s) (console s) (runs
    s) (readLog s).
Definition with_jobQueue (q : list nat) (s : State) : State :=
  mkState (heap s) (bucket s) (effects s) (activeEffect s) (effectStack s)
    (cells s) (watchers s) q (isFlushing s) (microtasks s) (console s) (runs
    s) (readLog s).
Definition with_isFlushing (f : bool) (s : State) : State :=
  mkState (heap s) (bucket s) (effects s) (activeEffect s) (effectStack s)
    (cells s) (watchers s) (jobQueue s) f (microtasks s) (console s) (runs s)
    (readLog s).
Definition with_microtasks (m : list task) (s : State) : State :=
  mkState (heap s) (bucket s) (effects s) (activeEffect s) (effectStack s)
    (cells s) (watchers s) (jobQueue s) (isFlushing s) m (console s) (runs s)
    (readLog s).
Definition with_console (c : list (list value)) (s : State) : State :=
  mkState (heap s) (bucket s) (effects s) (activeEffect s) (effectStack s)
    (cells s) (watchers s) (jobQueue s) (isFlushing s) (microtasks s) c (runs
    s) (readLog s).
Definition with_runs (r : list nat) (s : State) : State :=
  mkState (heap s) (bucket s) (effects s) (activeEffect s) (effectStack s)
    (cells s) (watchers s) (jobQueue s) (isFlushing s) (microtasks s) (console
    s) r (readLog s).
Definition with_readLog (l : list (nat * nat * key)) (s : State) : State :=
  mkState (heap s) (bucket s) (effects s) (activeEffect s) (effectStack s)
    (cells s) (watchers s) (jobQueue s) (isFlushing s) (microtasks s) (console
    s) (runs s) l.

(** The outcome of a call: a value and the state after it, an exception
    with the state at the throw (the programs below throw none: the one
    exception is that of [watch] called without options), or no outcome
    within the nesting depth allowed (unbounded recursion in the script). *)
Inductive result (A : Type) : Type :=
| Ok (a : A) (s : State)
| Throw (e : error) (s : State)
| OutOfFuel.
Arguments Ok {A} a s.
Arguments Throw {A} e s.
Arguments OutOfFuel {A}.

Definition bind {A B : Type} (r : result A) (f : A -> State -> result B)
  : result B :=
  match r with
  | Ok a s => f a s
  | Throw e s => Throw e s
  | OutOfFuel => OutOfFuel
  end.

(** ** Objects *)

(** The objects are records of own data properties.  The keys the programs
    use are taken to name no member that a record inherits from
    [Object.prototype] without holding a property of that name itself. *)

(** [target[key]] on a plain object: a missing property reads [undefined]. *)
Definition prop_of (h : list Props) (t : nat) (k : key) : value :=
  default VUndef (map_get k (default [] (h !! t))).

Definition read_prop (s : State) (t : nat) (k : key) : value :=
  prop_of (heap s) t k.

(** [target[key] = value]. *)
Definition write_prop (t : nat) (k : key) (v : value) (s : State) : State :=
  with_heap (<[t := map_set k v (default [] (heap s !! t))]> (heap s)) s.

(** An object literal: a new identity. *)
Definition new_object (ps : Props) (s : State) : nat * State :=
  (length (heap s), with_heap (heap s ++ [ps]) s).

(** ** The dependency store *)

Definition subscribers (s : State) (t : nat) (k : key) : list nat :=
  subs_in (bucket s) t k.

Definition effect_deps (s : State) (e : nat) : list (nat * key) :=
  default [] (deps <$> effects s !! e).

Definition set_deps (e : nat) (d : list (nat * key)) (s : State) : State :=
  match effects s !! e with
  | Some ef =>
      with_effects
        (<[e := mkEffectFn (fn ef) (lazy ef) (scheduler ef) d]> (effects s)) s
  | None => s
  end.

(** [cleanup(effectFn)]: remove the effect from every set in its [deps],
    then [effectFn.deps.length = 0]. *)
Definition cleanup (e : nat) (s : State) : State :=
  set_deps e []
    (with_bucket (foldl (deps_delete e) (bucket s) (effect_deps s e)) s).

(** Ghost: a read of [target[key]] through a handle, recorded when an
    effect is active. *)
Definition log_read (t : nat) (k : key) (s : State) : State :=
  match activeEffect s with
  | Some a => with_readLog (readLog s ++ [(a, t, k)]) s
  | None => s
  end.

(** [track(target, key)]. *)
Definition track (t : nat) (k : key) (s : State) : State :=
  match activeEffect s with
  | None => s
  | Some a =>
      let s1 := with_bucket (deps_add a t k (bucket s)) s in
      set_deps a (effect_deps s1 a ++ [(t, k)]) s1
  end.

(** The set [effectsToRun] built by [trigger(target, key)]; [None] when
    [bucket] has no entry for the target and [trigger] returns at once.
    [new Set(effects)] copies every subscriber; the [forEach] that follows
    adds the subscribers other than [activeEffect] to that copy. *)
Definition effectsToRun (t : nat) (k : key) (s : State) : option (list nat) :=
  match bucket s !! t with
  | None => None
  | Some depsMap =>
      let effects := map_get k depsMap in
      let copy := default [] effects in
      Some (foldl (add_unless_active (activeEffect s)) copy
              (default [] effects))
  end.

(** ** Execution *)

Definition effect_sched (s : State) (e : nat) : option sched :=
  effects s !! e ≫= scheduler.

Definition effect_fn (s : State) (e : nat) : Prog :=
  default (Ret VUndef) (fn <$> effects s !! e).

(** [flushJob()]. *)
Definition flushJob (s : State) : State :=
  if isFlushing s then s
  else with_microtasks (microtasks s ++ [TFlush]) (with_isFlushing true s).

(** The batching scheduler: [jobQueue.add(fn); flushJob()]. *)
Definition schedule_batch (e : nat) (s : State) : State :=
  flushJob (with_jobQueue (set_add e (jobQueue s)) s).

Section Run.
(** [sub p] runs a stored closure (an effect body, a watcher callback)
    one nesting level further down. *)
Variable sub : Prog -> State -> result value.

(** The arrow function [effectFn] made by [effect(fn, options)]. *)
Definition effectFn (e : nat) (s : State) : result value :=
  let s1 := cleanup e s in
  let s2 := with_active (Some e) (e :: effectStack s1) s1 in
  let s3 := with_runs (runs s2 ++ [e]) s2 in
  bind (sub (effect_fn s3 e) s3) (λ res s4,
    let st := tail (effectStack s4) in
    Ok res (with_active (head st) st s4)).

(** [forEach] over a set that the callbacks do not change. *)
Fixpoint forEach (f : nat -> State -> result unit) (l : list nat)
    (s : State) : result unit :=
  match l with
  | [] => Ok tt s
  | e :: l' => bind (f e s) (λ _ s', forEach f l' s')
  end.

(** The body of [trigger] after [effectsToRun] is built, for a given way
    [invoke] of calling one effect. *)
Definition trigger_with (invoke : nat -> State -> result unit)
    (t : nat) (k : key) (s : State) : result unit :=
  match effectsToRun t k s with
  | None => Ok tt s
  | Some l => forEach invoke l s
  end.

(** The [job] closure of [watch].  [newValue], [oldValue] and [cleanup] are
    variables of the enclosing [watch] call: they are read where the closure
    reads them. *)
Definition job (w : nat) (s : State) : result unit :=
  match watchers s !! w with
  | None => Ok tt s
  | Some wr =>
      bind (effectFn (w_effect wr) s) (λ res s1,
        (* newValue = effectFn() *)
        let set_new wr' :=
          mkWatcher (w_cb wr') (w_effect wr') res (w_oldValue wr')
            (w_cleanup wr') (w_post wr') in
        let s2 := with_watchers (alter set_new w (watchers s1)) s1 in
        (* if (cleanup) cleanup() *)
        bind (match watchers s2 !! w ≫= w_cleanup with
              | Some c => sub c s2
              | None => Ok VUndef s2
              end) (λ _ s3,
          (* cb(newValue, oldValue, onInvalidate) *)
          let new := default VUndef (w_newValue <$> watchers s3 !! w) in
          let old := default VUndef (w_oldValue <$> watchers s3 !! w) in
          bind (sub (w_cb wr new old w) s3) (λ _ s4,
            (* oldValue = newValue *)
            let roll wr' :=
              mkWatcher (w_cb wr') (w_effect wr') (w_newValue wr')
                (w_newValue wr') (w_cleanup wr') (w_post wr') in
            Ok tt (with_watchers (alter roll w (watchers s4)) s4))))
  end.

(** One element of [effectsToRun]: the scheduler when the effect has one,
    the effect function otherwise.  The computed scheduler calls [trigger]
    again, one nesting level further down: [deeper] is that call. *)
Definition invoke (deeper : nat -> key -> State -> result unit)
    (e : nat) (s : State) : result unit :=
  match effect_sched s e with
  | Some (SComputed c) =>
      let dirty cl := mkCell (c_value cl) true (c_effect cl) (c_obj cl) in
      let s1 := with_cells (alter dirty c (cells s)) s in
      match cells s1 !! c with
      | Some cl => deeper (c_obj cl) (KStr "value") s1
      | None => Ok tt s1
      end
  | Some (SWatch w) =>
      match watchers s !! w with
      | Some wr =>
          if w_post wr
          then Ok tt (with_microtasks (microtasks s ++ [TJob w]) s)
          else job w s
      | None => Ok tt s
      end
  | Some SBatch => Ok tt (schedule_batch e s)
  | None => bind (effectFn e s) (λ _ s', Ok tt s')
  end.

(** [trigger(target, key)], to a nesting depth of [n] computed
    schedulers. *)
Fixpoint trigger_n (n : nat) (t : nat) (k : key) (s : State) : result unit :=
  match n with
  | O => OutOfFuel
  | S n' => trigger_with (invoke (trigger_n n')) t k s
  end.

Variable depth : nat.

Definition trigger : nat -> key -> State -> result unit := trigger_n depth.

(** The getter [get value()] of a computed cell. *)
Definition get_value (c : nat) (s : State) : result value :=
  match cells s !! c with
  | None => Ok VUndef s
  | Some cl =>
      bind (if c_dirty cl
            then bind (effectFn (c_effect cl) s) (λ v s1,
                   let upd cl' := mkCell v false (c_effect cl') (c_obj cl') in
                   Ok tt (with_cells (alter upd c (cells s1)) s1))
            else Ok tt s) (λ _ s2,
        let s3 := track (c_obj cl) (KStr "value")
                    (log_read (c_obj cl) (KStr "value") s2) in
        Ok (default VUndef (c_value <$> cells s3 !! c)) s3)
  end.

(** Running user code. *)
Fixpoint exec (p : Prog) (s : State) : result value :=
  match p with
  | Ret v => Ok v s
  | Get t k cont =>
      (* get(target, key): track(target, key); return target[key] *)
      let s1 := track t k (log_read t k s) in
      exec (cont (read_prop s1 t k)) s1
  | Put t k v cont =>
      (* set(target, key, value): target[key] = value; trigger(target, key) *)
      bind (trigger t k (write_prop t k v s)) (λ _ s1, exec cont s1)
  | Log vs cont => exec cont (with_console (console s ++ [vs]) s)
  | GetValue c cont => bind (get_value c s) (λ v s1, exec (cont v) s1)
  | OnInvalidate w f cont =>
      (* cleanup = fn *)
      let reg wr :=
        mkWatcher (w_cb wr) (w_effect wr) (w_newValue wr) (w_oldValue wr)
          (Some f) (w_post wr) in
      exec cont (with_watchers (alter reg w (watchers s)) s)
  end.
End Run.

(** Closing the recursion: [fuel] bounds the depth of nested closure calls
    and of nested computed schedulers. *)
Fixpoint run (fuel : nat) (p : Prog) (s : State) : result value :=
  match fuel with
  | O => OutOfFuel
  | S n => exec (run n) n p s
  end.

(** ** The public functions *)

(** [effect(fn, options)]: returns the effect function, after running it
    once unless [options.lazy]. *)
Definition effect (fuel : nat) (f : Prog) (lz : bool) (sc : option sched)
    (s : State) : result nat :=
  let e := length (effects s) in
  let s1 := with_effects (effects s ++ [mkEffectFn f lz sc []]) s in
  if lz then Ok e s1
  else bind (effectFn (run fuel) e s1) (λ _ s2, Ok e s2).

(** [computed(getter)]: a lazy effect over the getter, and the object with
    the [value] accessor. *)
Definition computed (getter : Prog) (s : State) : nat * State :=
  let c := length (cells s) in
  let e := length (effects s) in
  let s1 :=
    with_effects
      (effects s ++ [mkEffectFn getter true (Some (SComputed c)) []]) s in
  let '(o, s2) := new_object [] s1 in
  (c, with_cells (cells s2 ++ [mkCell VUndef true e o]) s2).

(** The object a caller passes as [options] to [watch]: [immediate] is the
    truth value of [options.immediate] and [post] that of
    [options.flush === 'post']; [{}] is [mkOptions false false]. *)
Record Options : Type := mkOptions {
  immediate : bool;
  post : bool
}.

(** [watch(source, cb, options)].  [getter] is [source] when it is a
    function and [() => traverse(source)] otherwise.  [options] is [None]
    when the caller passes no third argument: the parameter has no default
    value (the one of [effect] has), and once the lazy effect is made the
    body reads [options.immediate], which throws a [TypeError] on
    [undefined].  The effect made by such a call is never run and never
    subscribed, so its scheduler, which reads [options.flush], is never
    called. *)
Definition watch (fuel : nat) (getter : Prog)
    (cb : value -> value -> nat -> Prog) (options : option Options)
    (s : State) : result unit :=
  let w := length (watchers s) in
  let e := length (effects s) in
  let s1 :=
    with_effects
      (effects s ++ [mkEffectFn getter true (Some (SWatch w)) []]) s in
  let flush_post := default false (post <$> options) in
  let s2 :=
    with_watchers
      (watchers s1 ++ [mkWatcher cb e VUndef VUndef None flush_post]) s1 in
  match options with
  | None => Throw TypeError s2
  | Some o =>
      if immediate o then job (run fuel) w s2
      else
        bind (effectFn (run fuel) e s2) (λ v s3,
          let set_old wr :=
            mkWatcher (w_cb wr) (w_effect wr) (w_newValue wr) v (w_cleanup wr)
              (w_post wr) in
          Ok tt (with_watchers (alter set_old w (watchers s3)) s3))
  end.

(** ** Microtasks *)

(** [jobQueue.forEach(job => job())]: a [Set] is visited in insertion
    order, entries added during the visit included; nothing is ever deleted
    from [jobQueue], so the visit is by position.  [n] bounds the number of
    jobs visited. *)
Fixpoint flush_from (n fuel i : nat) (s : State) : result unit :=
  match n with
  | O => OutOfFuel
  | S n' =>
      match jobQueue s !! i with
      | None => Ok tt s
      | Some j =>
          bind (effectFn (run fuel) j s) (λ _ s', flush_from n' fuel (S i) s')
      end
  end.

(** One microtask.  The [finally] callback of [flushJob] is queued when the
    [then] callback has returned. *)
Definition run_task (n fuel : nat) (t : task) (s : State) : result unit :=
  match t with
  | TFlush =>
      bind (flush_from n fuel 0 s) (λ _ s',
        Ok tt (with_microtasks (microtasks s' ++ [TFinally]) s'))
  | TFinally => Ok tt (with_isFlushing false s)
  | TJob w => job (run fuel) w s
  end.

(** Running the microtask queue until it is empty. *)
Fixpoint drain (n fuel : nat) (s : State) : result unit :=
  match n with
  | O => OutOfFuel
  | S n' =>
      match microtasks s with
      | [] => Ok tt s
      | t :: ts =>
          bind (run_task n fuel t (with_microtasks ts s)) (λ _ s',
            drain n' fuel s')
      end
  end.

(** ** Scripts used in the statements below *)

(** [i++] on a number. *)
Definition incr (v : value) : value :=
  match v with
  | VNum z => VNum (z + 1)
  | _ => VNaN
  end.

(** [a + b] on numbers. *)
Definition plus (a b : value) : value :=
  match a, b with
  | VNum x, VNum y => VNum (x + y)
  | _, _ => VNaN
  end.

(** [() => obj.i++], for [obj = getProxyObj(t)]. *)
Definition increment (t : nat) : Prog :=
  Get t (KStr "i") (λ v, Put t (KStr "i") (incr v) (Ret VUndef)).

(** [const obj = getProxyObj({ i: 0 })]. *)
Definition counter_state : State :=
  (new_object [(KStr "i", VNum 0)] initial).2.

(** The state inside the first run of [effect(() => obj.i++)], when the
    [set] trap has assigned [target.i] and calls [trigger]. *)
Definition counter_inside : State :=
  let s1 :=
    with_effects [mkEffectFn (increment 0) false None []] counter_state in
  let s2 := with_runs [0] (with_active (Some 0) [0] (cleanup 0 s1)) in
  write_prop 0 (KStr "i") (VNum 1) (track 0 (KStr "i") s2).

(** [const a = getProxyObj({ x: vx, y: vy })] followed by
    [const c = computed(() => { console.log(); return f(a.x, a.y) })]: the
    getter announces each of its executions with an empty line (the script
    of [part_000] counts them in [testNum]) and combines the two properties
    with [f], [+] in the script. *)
Definition xy_getter (a : nat) (f : value -> value -> value) : Prog :=
  Log [] (Get a (KStr "x") (λ x, Get a (KStr "y") (λ y, Ret (f x y)))).

Definition computed_state (vx vy : value) (f : value -> value -> value)
  : State :=
  (computed (xy_getter 0 f)
     (new_object [(KStr "x", vx); (KStr "y", vy)] initial).2).2.

(** [console.log(c.value)], [n] times, then [rest]. *)
Fixpoint read_value (c n : nat) (rest : Prog) : Prog :=
  match n with
  | O => rest
  | S n' => GetValue c (λ v, Log [v] (read_value c n' rest))
  end.

(** [n] reads of [c.value], the write [a[k] = v], [m] more reads. *)
Definition computed_script (k : key) (v : value) (n m : nat) : Prog :=
  read_value 0 n (Put 0 k v (read_value 0 m (Ret VUndef))).

(** The states the computed script goes through: the object [a] with
    properties [h], the cell [cl], whether the getter's effect is subscribed
    to [a.x] and [a.y], the console and the two histories. *)
Definition xy_state (h : Props) (f : value -> value -> value)
    (subscribed : bool) (cl : Cell) (con : list (list value)) (rn : list nat)
    (rl : list (nat * nat * key)) : State :=
  mkState [h; []]
    (if subscribed then {[ 0 := [(KStr "x", [0]); (KStr "y", [0])] ]} else ∅)
    [mkEffectFn (xy_getter 0 f) true (Some (SComputed 0))
       (if subscribed then [(0, KStr "x"); (0, KStr "y")] else [])]
    None [] [cl] [] [] false [] con rn rl.

(** [const a = getProxyObj({ x: v0 })], to be watched by
    [watch(() => a.x, (n, o) => console.log(n, o), options)]. *)
Definition watch_state (v0 : value) : State :=
  (new_object [(KStr "x", v0)] initial).2.

Definition x_getter (a : nat) : Prog := Get a (KStr "x") Ret.

Definition log_cb (n o : value) (w : nat) : Prog := Log [n; o] (Ret VUndef).

(** The write [a.x = v1] at top level, then the microtasks. *)
Definition write_then_drain (fuel : nat) (v1 : value) (s : State)
  : result unit :=
  bind (run fuel (Put 0 (KStr "x") v1 (Ret VUndef)) s) (λ _ s', drain 2 fuel s').

(** The stored [oldValue] of watcher [w]. *)
Definition oldValue (s : State) (w : nat) : option value :=
  w_oldValue <$> watchers s !! w.

(** ** Bodies that only read *)

(** The body performs reads through handles and prints, nothing else; which
    reads it performs may depend on the values read. *)
Fixpoint reads_only (p : Prog) : Prop :=
  match p with
  | Ret _ => True
  | Get _ _ cont => forall v, reads_only (cont v)
  | Log _ cont => reads_only cont
  | _ => False
  end.

(** The (target, key) pairs such a body reads when the objects are [h]. *)
Fixpoint reads (h : list Props) (p : Prog) : list (nat * key) :=
  match p with
  | Get t k cont => (t, k) :: reads h (cont (prop_of h t k))
  | Log _ cont => reads h cont
  | _ => []
  end.

(** Every dependency set that holds the effect is referenced from its
    [deps] array. *)
Definition deps_cover (s : State) (e : nat) : Prop :=
  forall t k, e ∈ subscribers s t k -> (t, k) ∈ effect_deps s e.

(** [() => a.ok ? a.text : 'not']: the read of [a.text] is conditional. *)
Definition branching (a : nat) : Prog :=
  Get a (KStr "ok") (λ ok,
    if truthy ok then Get a (KStr "text") Ret else Ret (VStr "not")).

Definition branching_state : State :=
  (new_object [(KStr "ok", VBool true); (KStr "text", VStr "hi")] initial).2.

(** [effect(() => a.ok ? a.text : 'not', { lazy: true })]. *)
Definition branching_registered : State :=
  with_effects [mkEffectFn (branching 0) true None []] branching_state.

(** ** An effect re-entered during its own run

    [a = getProxyObj({ done: false, k1: 0 })], [b = getProxyObj({ x: 0 })],
    [effect(() => { if (b.x) a.done = true })] and then
    [effect(() => { if (!a.done) { a.k1; console.log('read a.k1'); b.x = 1 } })]. *)
Definition reentry_state : State :=
  (new_object [(KStr "x", VNum 0)]
     (new_object [(KStr "done", VBool false); (KStr "k1", VNum 0)]
        initial).2).2.

Definition reentry_first : Prog :=
  Get 1 (KStr "x") (λ x,
    if truthy x then Put 0 (KStr "done") (VBool true) (Ret VUndef)
    else Ret VUndef).

Definition reentry_second : Prog :=
  Get 0 (KStr "done") (λ d,
    if truthy d then Ret VUndef
    else Get 0 (KStr "k1") (λ _,
           Log [VStr "read a.k1"] (Put 1 (KStr "x") (VNum 1) (Ret VUndef)))).

Definition reentry_script (fuel : nat) : result nat :=
  bind (effect fuel reentry_first false None reentry_state) (λ _ s,
    effect fuel reentry_second false None s).

(** ** Batching *)

(** [const obj = getProxyObj({ name: 'Tom', age: 18 })] and an effect over
    it registered with the batching scheduler. *)
Definition batch_state : State :=
  let s0 := (new_object [(KStr "name", VStr "Tom"); (KStr "age", VNum 18)]
               initial).2 in
  match effect 1 (Get 0 (KStr "age") (λ v, Log [v] (Ret VUndef))) false
          (Some SBatch) s0 with
  | Ok _ s => s
  | _ => s0
  end.

(** Effect [r] is run by the job queue only: its scheduler is the batching
    one and it is the effect of no computed cell and of no watcher. *)
Definition batched (r : nat) (s : State) : Prop :=
  effect_sched s r = Some SBatch /\
  (forall c cl, cells s !! c = Some cl -> c_effect cl ≠ r) /\
  (forall w wr, watchers s !! w = Some wr -> w_effect wr ≠ r).

(** The number of runs of [r] in a history of runs. *)
Definition runs_of (r : nat) (l : list nat) : nat :=
  length (filter (λ e, e = r) l).

(** Every registered effect has a body that only reads. *)
Definition all_reads_only (s : State) : Prop :=
  forall e ef, effects s !! e = Some ef -> reads_only (fn ef).

(** [s'] comes after [s] and no run of [r] was started in between. *)
Record ext (r : nat) (s s' : State) : Prop := mkExt {
  ext_sched : forall e, effect_sched s' e = effect_sched s e;
  ext_cells : forall c, c_effect <$> cells s' !! c = c_effect <$> cells s !! c;
  ext_watchers :
    forall w, w_effect <$> watchers s' !! w = w_effect <$> watchers s !! w;
  ext_queue : jobQueue s `prefix_of` jobQueue s';
  ext_nodup : NoDup (jobQueue s) -> NoDup (jobQueue s');
  ext_runs : exists d, runs s' = runs s ++ d /\ r ∉ d
}.

(** [s'] comes after [s]; unless a run of [e] was started in between, [e]
    is in a subscriber set at [s'] exactly when it was at [s] or a read of
    the pair was made in between with [e] active. *)
Definition pres (e : nat) (s s' : State) : Prop :=
  exists d tr,
    runs s' = runs s ++ d /\ readLog s' = readLog s ++ tr /\
    (e ∉ d -> forall t k,
       e ∈ subscribers s' t k <-> e ∈ subscribers s t k \/ (e, t, k) ∈ tr).

(* ===================================================================== *)
(** ** Further definitions: invariants, bodies that only read, [traverse] *)
(* ===================================================================== *)

(** The active effect is the top of the effect stack. *)
Definition balanced (s : State) : Prop :=
  activeEffect s = head (effectStack s).

(** A change of a watcher's variables by the engine: the callback, the
    effect and the flush mode stay, a registered invalidation callback is
    replaced at most by another one. *)
Definition watcher_step (wr wr' : Watcher) : Prop :=
  w_cb wr' = w_cb wr /\ w_effect wr' = w_effect wr /\ w_post wr' = w_post wr /\
  (is_Some (w_cleanup wr) -> is_Some (w_cleanup wr')).

(** What a relation between a state and a later one must satisfy to hold
    across every call of the engine: it is a preorder, it holds across each
    elementary step, and across a call of an effect function when it holds
    across the calls the body makes. *)
Record through (R : State -> State -> Prop) : Prop := mkThrough {
  thr_refl : forall s, R s s;
  thr_trans : forall s1 s2 s3, R s1 s2 -> R s2 s3 -> R s1 s3;
  thr_effectFn :
    forall (sub : Prog -> State -> result value) e s v s',
      (forall p s0 v0 s0', sub p s0 = Ok v0 s0' -> R s0 s0') ->
      effectFn sub e s = Ok v s' -> R s s';
  thr_read : forall t k s, R s (track t k (log_read t k s));
  thr_write : forall t k v s, R s (write_prop t k v s);
  thr_console : forall c s, R s (with_console c s);
  thr_watchers :
    forall f w s, (forall wr, watcher_step wr (f wr)) ->
      R s (with_watchers (alter f w (watchers s)) s);
  thr_cells :
    forall f c s,
      (forall cl, c_effect (f cl) = c_effect cl /\ c_obj (f cl) = c_obj cl) ->
      R s (with_cells (alter f c (cells s)) s);
  thr_microtasks : forall m s, R s (with_microtasks m s);
  thr_isFlushing : forall b s, R s (with_isFlushing b s);
  thr_jobQueue : forall e s, R s (with_jobQueue (set_add e (jobQueue s)) s)
}.

(** [s'] has the effect stack of [s], and its active effect when that was
    the top of the stack. *)
Definition keeps (s s' : State) : Prop :=
  effectStack s' = effectStack s /\
  (balanced s -> activeEffect s' = activeEffect s).

(** Every watcher of [s] is a watcher of [s'], changed by engine steps
    only. *)
Definition watchers_kept (s s' : State) : Prop :=
  forall w wr, watchers s !! w = Some wr ->
    exists wr', watchers s' !! w = Some wr' /\ watcher_step wr wr'.

(** A watcher with an invalidation callback registered. *)
Definition invalidation_state : State :=
  with_watchers
    [mkWatcher log_cb 0 VUndef VUndef (Some (Log [VStr "expired"] (Ret VUndef)))
       false]
    (with_effects [mkEffectFn (x_getter 0) true (Some (SWatch 0)) []]
       (watch_state (VNum 1))).

(** What a body that only reads returns, and what it prints, when the
    objects are [h]. *)
Fixpoint returns (h : list Props) (p : Prog) : value :=
  match p with
  | Ret v => v
  | Get t k cont => returns h (cont (prop_of h t k))
  | Log _ cont => returns h cont
  | _ => VUndef
  end.

Fixpoint prints (h : list Props) (p : Prog) : list (list value) :=
  match p with
  | Get t k cont => prints h (cont (prop_of h t k))
  | Log vs cont => vs :: prints h cont
  | _ => []
  end.

(** [s'] has the objects, the cells, the watchers, the queues and the
    effect stack of [s], and the same effects but for their [deps]. *)
Record quiet (s s' : State) : Prop := mkQuiet {
  q_heap : heap s' = heap s;
  q_cells : cells s' = cells s;
  q_watchers : watchers s' = watchers s;
  q_queue : jobQueue s' = jobQueue s;
  q_flushing : isFlushing s' = isFlushing s;
  q_micro : microtasks s' = microtasks s;
  q_stack : effectStack s' = effectStack s;
  q_sched : forall e, effect_sched s' e = effect_sched s e;
  q_fn : forall e, fn <$> effects s' !! e = fn <$> effects s !! e
}.

(** [() => console.log('expired', n)], the invalidation callback registered
    by the callback below during the call that received [n] as new value. *)
Definition expired (n : value) : Prog := Log [VStr "expired"; n] (Ret VUndef).

(** [(n, o, onInvalidate) => { onInvalidate(() => console.log('expired', n));
    console.log(n, o) }]. *)
Definition expiring_cb (n o : value) (w : nat) : Prog :=
  OnInvalidate w (expired n) (Log [n; o] (Ret VUndef)).

(** The state of the batching script once a first round is over: the effect
    is in the queue and no flush is in progress. *)
Definition queued_state : State := with_jobQueue [0] batch_state.

(** ** [traverse] *)

(** An object as [traverse] meets it: a raw object, or the handle made by
    [getProxyObj] for a target.  The properties of the objects hold
    primitives and raw objects. *)
Inductive ident : Type :=
| Raw (o : nat)
| Handle (t : nat).

#[global] Instance ident_eq_dec : EqDecision ident.
Proof. solve_decision. Defined.

(** An argument of [traverse]: a value, or a handle. *)
Inductive tvalue : Type :=
| TValue (v : value)
| THandle (t : nat).

(** [typeof value !== 'object' || value === null] fails. *)
Definition ident_of (x : tvalue) : option ident :=
  match x with
  | TValue (VObj o) => Some (Raw o)
  | THandle t => Some (Handle t)
  | TValue _ => None
  end.

Fixpoint insert_sorted (n : nat) (l : list nat) : list nat :=
  match l with
  | [] => [n]
  | m :: l' => if decide (n <= m) then n :: l else m :: insert_sorted n l'
  end.

(** The keys visited by [for (const k in value)] on an object with the
    properties [ps]: the index keys in ascending order, then the other
    string keys in creation order; symbols are not visited.  (The handle of
    this script has no [ownKeys] trap: the keys are those of the target.) *)
Definition for_in_keys (ps : Props) : list key :=
  (KIdx <$> foldr insert_sorted []
              (omap (λ kv, match kv.1 with KIdx n => Some n | _ => None end) ps))
  ++ omap (λ kv, match kv.1 with KStr n => Some (KStr n) | _ => None end) ps.

(** [value[k]]: through the [get] trap for a handle. *)
Definition member (x : ident) (k : key) (s : State) : value * State :=
  match x with
  | Handle t =>
      let s1 := track t k (log_read t k s) in (read_prop s1 t k, s1)
  | Raw o => (read_prop s o k, s)
  end.

(** The loop [for (const k in value) traverse(value[k], seen)] over the
    keys [ks], [rec] being [traverse]. *)
Fixpoint traverse_keys
    (rec : tvalue -> list ident -> State -> result (option ident * list ident))
    (i : ident) (ks : list key) (seen : list ident) (s : State)
  : result (list ident) :=
  match ks with
  | [] => Ok seen s
  | k :: ks' =>
      let '(v, s1) := member i k s in
      bind (rec (TValue v) seen s1) (λ r s2, traverse_keys rec i ks' r.2 s2)
  end.

(** [traverse(value, seen)]: the value returned ([None] for [undefined])
    and the set [seen], which all the calls share.  [fuel] bounds the depth
    of the recursion. *)
Fixpoint traverse (fuel : nat) (x : tvalue) (seen : list ident) (s : State)
  : result (option ident * list ident) :=
  match fuel with
  | O => OutOfFuel
  | S n =>
      match ident_of x with
      | None => Ok (None, seen) s
      | Some i =>
          if set_has i seen then Ok (None, seen) s
          else
            let target := match i with Raw o => o | Handle t => t end in
            bind
              (traverse_keys (traverse n) i
                 (for_in_keys (default [] (heap s !! target)))
                 (set_add i seen) s)
              (λ seen' s', Ok (Some i, seen') s')
      end
  end.

(** [{ a: 1, self: <the object itself> }], an object that refers to
    itself, behind a handle, inside the run of an effect (effect 0). *)
Definition cyclic_state : State :=
  with_active (Some 0) [0]
    (with_effects [mkEffectFn (Ret VUndef) true None []]
       (new_object [(KStr "a", VNum 1); (KStr "self", VObj 0)] initial).2).

(** The objects of [h] not yet in [seen]. *)
Definition unseen (h : list Props) (seen : list ident) : nat :=
  length (filter (λ o, Raw o ∉ seen) (seq 0 (length h))).

(** [() => console.log(c.value)]. *)
Definition print_value (c : nat) : Prog :=
  GetValue c (λ v, Log [v] (Ret VUndef)).

End Core.

(* ===================================================================== *)
(** * The handlers of the third script: deep, shallow and read-only
      handles, arrays, trigger types *)
(* ===================================================================== *)

(** The statement [let shouldTrack = true] of the script has no semicolon
    and the next line starts with [[]; this module embeds the functions
    with the two tables of [arrayInstrumentations] filled as the [forEach]
    loops fill them.

    Objects are the records made by object literals (own data properties),
    the arrays made by array literals (elements and [length]) and handles.
    The prototype of a record is [Object.prototype] and that of an array
    [Array.prototype], as ECMAScript 2023 defines them and as no script
    changes them; a member found there is a function or the accessor
    [__proto__].  Functions, accessors, objects given another prototype
    ([Object.create], [Object.setPrototypeOf]), odd properties of arrays
    ([arr.foo]) and handles whose target is a handle are outside this model:
    an operation whose answer depends on one of them is [Unmodelled].  An
    element of an array that reads [undefined] is an element or a hole: an
    operation that tells the two apart is [Unmodelled] there.
    The bodies of the effects are not run here: [trigger] returns the
    effects it calls, in the order of the calls (module [Core] runs them). *)
Module Reactive.

Inductive TriggerType : Type := SET | ADD | DELETE.

#[global] Instance TriggerType_eq_dec : EqDecision TriggerType.
Proof. solve_decision. Defined.

(** [const ITERATE_KEY = Symbol()]. *)
Definition ITERATE_KEY : key := KSym 0.

Inductive Obj : Type :=
| OPlain (props : Props)
| OArray (elems : list value)
| OProxy (target : nat) (isShallow isReadonly : bool).

Record State : Type := mkState {
  heap : list Obj;                        (* objects, by identity *)
  reactiveMap : gmap nat nat;             (* Map obj -> proxy *)
  bucket : gmap nat DepsMap;
  deps : gmap nat (list (nat * key));     (* effectFn.deps, per effect *)
  activeEffect : option nat;
  shouldTrack : bool;
  warned : list string                    (* console.warn lines *)
}.

Definition with_heap (h : list Obj) (s : State) : State :=
  mkState h (reactiveMap s) (bucket s) (deps s) (activeEffect s)
    (shouldTrack s) (warned s).
Definition with_reactiveMap (m : gmap nat nat) (s : State) : State :=
  mkState (heap s) m (bucket s) (deps s) (activeEffect s) (shouldTrack s)
    (warned s).
Definition with_store (b : gmap nat DepsMap) (d : gmap nat (list (nat * key)))
    (s : State) : State :=
  mkState (heap s) (reactiveMap s) b d (activeEffect s) (shouldTrack s)
    (warned s).
Definition with_warned (w : list string) (s : State) : State :=
  mkState (heap s) (reactiveMap s) (bucket s) (deps s) (activeEffect s)
    (shouldTrack s) w.

(** The outcome of a handler: a value and the state after it, an exception
    with the state at the throw, or an operation outside the model. *)
Inductive result (A : Type) : Type :=
| Ok (a : A) (s : State)
| Throw (e : error) (s : State)
| Unmodelled.
Arguments Ok {A} a s.
Arguments Throw {A} e s.
Arguments Unmodelled {A}.

Definition bind {A B : Type} (r : result A) (f : A -> State -> result B)
  : result B :=
  match r with
  | Ok a s => f a s
  | Throw e s => Throw e s
  | Unmodelled => Unmodelled
  end.

(** The outcome of a computation that does not change the state. *)
Inductive outcome (A : Type) : Type :=
| Done (a : A)
| Raise (e : error)
| Unsupported.
Arguments Done {A} a.
Arguments Raise {A} e.
Arguments Unsupported {A}.

Definition lift {A : Type} (r : outcome A) (s : State) : result A :=
  match r with
  | Done a => Ok a s
  | Raise e => Throw e s
  | Unsupported => Unmodelled
  end.

(** ** Objects *)

Definition is_symbol (k : key) : bool :=
  match k with KSym _ => true | _ => false end.

(** [ToString(key)], as a template literal applies it: a symbol cannot be
    converted and the conversion throws a [TypeError]. *)
Definition key_to_string (k : key) : option string :=
  match k with
  | KIdx n => Some (NilEmpty.string_of_uint (Nat.to_uint n))
  | KStr s => Some s
  | KSym _ => None
  end.

(** A string that starts with a letter other than [I], with [_] or with
    [$].  [Number] of such a string is [NaN]: a string that converts to a
    number is empty or starts with white space, a digit, a sign, a dot or
    the [I] of [Infinity]. *)
Definition is_name (s : string) : bool :=
  match s with
  | EmptyString => false
  | String c _ =>
      let n := Ascii.nat_of_ascii c in
      (97 <=? n) && (n <=? 122)
      || (65 <=? n) && (n <=? 90) && negb (n =? 73)
      || (n =? 95) || (n =? 36)
  end.

(** [Number(key)]: an index is its number and a name is [NaN] ([None]); the
    other strings are not converted here; a symbol cannot be converted and
    the conversion throws. *)
Definition key_to_number (k : key) : outcome (option nat) :=
  match k with
  | KIdx n => Done (Some n)
  | KStr s => if is_name s then Done None else Unsupported
  | KSym _ => Raise TypeError
  end.

(** The value stored under a key: an own data property, or [undefined] at a
    hole of an array. *)
Definition own (o : Obj) (k : key) : option value :=
  match o with
  | OPlain ps => map_get k ps
  | OArray es =>
      match k with
      | KIdx i => es !! i
      | KStr n =>
          if decide (n = "length"%string)
          then Some (VNum (Z.of_nat (length es))) else None
      | KSym _ => None
      end
  | OProxy _ _ _ => None
  end.

(** The names of the members of [Object.prototype] and of
    [Array.prototype]. *)
Definition object_prototype : list string :=
  ["constructor"; "hasOwnProperty"; "isPrototypeOf"; "propertyIsEnumerable";
   "toLocaleString"; "toString"; "valueOf"; "__defineGetter__";
   "__defineSetter__"; "__lookupGetter__"; "__lookupSetter__";
   "__proto__"]%string.

Definition array_prototype : list string :=
  ["at"; "concat"; "constructor"; "copyWithin"; "entries"; "every"; "fill";
   "filter"; "find"; "findIndex"; "findLast"; "findLastIndex"; "flat";
   "flatMap"; "forEach"; "includes"; "indexOf"; "join"; "keys";
   "lastIndexOf"; "length"; "map"; "pop"; "push"; "reduce"; "reduceRight";
   "reverse"; "shift"; "slice"; "some"; "sort"; "splice"; "toLocaleString";
   "toReversed"; "toSorted"; "toSpliced"; "toString"; "unshift"; "values";
   "with"]%string.

(** Whether the prototype chain of a record or of an array has a member
    named by the key. *)
Definition inherits (o : Obj) (k : key) : bool :=
  match o, k with
  | OPlain _, KStr n => bool_decide (n ∈ object_prototype)
  | OArray _, KStr n => bool_decide (n ∈ array_prototype ++ object_prototype)
  | _, _ => false
  end.

(** [target[key]] and [Reflect.get(target, key, receiver)] on a record or an
    array: the own property when there is one; otherwise the member the
    object inherits, which is outside the model; otherwise [undefined]. *)
Definition Reflect_get (o : Obj) (k : key) : outcome value :=
  match o with
  | OProxy _ _ _ => Unsupported
  | _ =>
      match own o k with
      | Some v => Done v
      | None => if inherits o k then Unsupported else Done VUndef
      end
  end.

(** [Object.prototype.hasOwnProperty.call(target, key)].  At an index of an
    array that reads [undefined] there is an element or a hole: no answer
    is given. *)
Definition hasOwnProperty (o : Obj) (k : key) : outcome bool :=
  match o with
  | OPlain ps => Done (bool_decide (is_Some (map_get k ps)))
  | OArray es =>
      match k with
      | KIdx i =>
          match es !! i with
          | Some VUndef => Unsupported
          | Some _ => Done true
          | None => Done false
          end
      | KStr n => Done (bool_decide (n = "length"%string))
      | KSym _ => Done false
      end
  | OProxy _ _ _ => Unsupported
  end.

(** [Reflect.has(target, key)]: an own property or an inherited member. *)
Definition Reflect_has (o : Obj) (k : key) : outcome bool :=
  match hasOwnProperty o k with
  | Done b => Done (b || inherits o k)
  | r => r
  end.

Definition isArray (o : Obj) : bool :=
  match o with OArray _ => true | _ => false end.

(** A value accepted as the [length] of an array: a number from 0 to
    2^32 - 1; [undefined], [NaN] and the other numbers are a [RangeError]. *)
Definition array_length (v : value) : outcome nat :=
  match v with
  | VNum z =>
      if decide (0 <= z < 4294967296)%Z then Done (Z.to_nat z)
      else Raise RangeError
  | VUndef | VNaN => Raise RangeError
  | _ => Unsupported
  end.

(** [arr.length = n]: cut, or extend with holes. *)
Definition resize (n : nat) (es : list value) : list value :=
  take n es ++ replicate (n - length es) VUndef.

(** [arr[i] = v]. *)
Definition put_index (i : nat) (v : value) (es : list value) : list value :=
  if decide (i < length es) then <[i := v]> es
  else es ++ replicate (i - length es) VUndef ++ [v].

(** Defining the data property [k] with value [v] on the object [dest]. *)
Definition define_own (dest : nat) (k : key) (v : value) (s : State)
  : result bool :=
  match heap s !! dest with
  | Some (OPlain ps) =>
      Ok true (with_heap (<[dest := OPlain (map_set k v ps)]> (heap s)) s)
  | Some (OArray es) =>
      match k with
      | KIdx i =>
          Ok true (with_heap (<[dest := OArray (put_index i v es)]> (heap s)) s)
      | KStr n =>
          if decide (n = "length"%string) then
            match array_length v with
            | Done len =>
                Ok true
                  (with_heap (<[dest := OArray (resize len es)]> (heap s)) s)
            | Raise e => Throw e s
            | Unsupported => Unmodelled
            end
          else Unmodelled
      | KSym _ => Unmodelled
      end
  | _ => Unmodelled
  end.

(** The object behind a receiver: the target of a handle (a handle has no
    [defineProperty] trap), the receiver itself otherwise. *)
Definition behind (s : State) (receiver : nat) : option nat :=
  match heap s !! receiver with
  | Some (OProxy rt _ _) => Some rt
  | Some _ => Some receiver
  | None => None
  end.

(** [Reflect.set(target, key, newValue, receiver)].  A property of that key
    that the target holds or inherits is a writable data property, the
    accessor [__proto__] apart, which is outside the model: the property is
    defined on the object behind the receiver. *)
Definition Reflect_set (target : nat) (k : key) (v : value) (receiver : nat)
    (s : State) : result bool :=
  match heap s !! target with
  | Some (OProxy _ _ _) | None => Unmodelled
  | Some o =>
      if bool_decide (k = KStr "__proto__") && bool_decide (own o k = None)
      then Unmodelled
      else
        match behind s receiver with
        | Some dest => define_own dest k v s
        | None => Unmodelled
        end
  end.

(** [Reflect.deleteProperty(target, key)]: the [length] of an array cannot
    be deleted; a deleted element leaves a hole. *)
Definition Reflect_deleteProperty (target : nat) (k : key) (s : State)
  : result bool :=
  match heap s !! target with
  | Some (OPlain ps) =>
      Ok true (with_heap (<[target := OPlain (map_delete k ps)]> (heap s)) s)
  | Some (OArray es) =>
      match k with
      | KIdx i =>
          Ok true
            (with_heap (<[target := OArray (<[i := VUndef]> es)]> (heap s)) s)
      | KStr n => if decide (n = "length"%string) then Ok false s else Ok true s
      | KSym _ => Ok true s
      end
  | _ => Unmodelled
  end.

(** [receiver.raw]: the [get] trap of a handle answers its target; on
    another object it is the own property [raw] (no object inherits one). *)
Definition receiver_raw (s : State) (receiver : nat) : value :=
  match heap s !! receiver with
  | Some (OProxy rt _ _) => VObj rt
  | Some o => default VUndef (own o (KStr "raw"))
  | None => VUndef
  end.

(** ** track and trigger *)

Definition subscribers (s : State) (t : nat) (k : key) : list nat :=
  subs_in (bucket s) t k.

(** [track(target, key)]. *)
Definition track (t : nat) (k : key) (s : State) : State :=
  match activeEffect s with
  | None => s
  | Some a =>
      if shouldTrack s then
        with_store (deps_add a t k (bucket s))
          (<[a := default [] (deps s !! a) ++ [(t, k)]]> (deps s)) s
      else s
  end.

(** The arguments of one call of [trigger]. *)
Record TriggerCall : Type := mkCall {
  tc_target : nat;
  tc_key : key;
  tc_type : TriggerType;
  tc_newValue : value
}.

(** [key >= newValue] for a key of the dependency map: numbers are
    compared, [NaN] compares false, a symbol cannot be converted. *)
Definition key_ge (k : key) (newValue : value) : outcome bool :=
  match key_to_number k with
  | Raise e => Raise e
  | Unsupported => Unsupported
  | Done kn =>
      match newValue with
      | VNum z =>
          Done (match kn with
                | Some n => bool_decide (z <= Z.of_nat n)%Z
                | None => false
                end)
      | VUndef | VNaN => Done false
      | _ => Unsupported
      end
  end.

(** [depsMap.forEach((effects, key) => { if (key >= newValue) ... })]. *)
Fixpoint add_from_length (a : option nat) (newValue : value)
    (depsMap : DepsMap) (acc : list nat) : outcome (list nat) :=
  match depsMap with
  | [] => Done acc
  | (k, effs) :: rest =>
      match key_ge k newValue with
      | Done true =>
          add_from_length a newValue rest (foldl (add_unless_active a) acc effs)
      | Done false => add_from_length a newValue rest acc
      | Raise e => Raise e
      | Unsupported => Unsupported
      end
  end.

(** [trigger(target, key, type, newValue)]: the effects it calls, in order
    (each through its scheduler when it has one). *)
Definition trigger (c : TriggerCall) (s : State) : outcome (list nat) :=
  match bucket s !! tc_target c with
  | None => Done []
  | Some depsMap =>
      let a := activeEffect s in
      let arr :=
        match heap s !! tc_target c with
        | Some o => isArray o
        | None => false
        end in
      let effects := default [] (map_get (tc_key c) depsMap) in
      (* new Set(effects), then the guarded adds *)
      let run1 := foldl (add_unless_active a) effects effects in
      match
        (if arr && bool_decide (tc_key c = KStr "length")
         then add_from_length a (tc_newValue c) depsMap run1
         else Done run1)
      with
      | Done run2 =>
          let run3 :=
            if bool_decide (tc_type c = ADD) && arr
            then foldl (add_unless_active a) run2
                   (default [] (map_get (KStr "length") depsMap))
            else run2 in
          let run4 :=
            if bool_decide (tc_type c = ADD) || bool_decide (tc_type c = DELETE)
            then foldl (add_unless_active a) run3
                   (default [] (map_get ITERATE_KEY depsMap))
            else run3 in
          Done run4
      | Raise e => Raise e
      | Unsupported => Unsupported
      end
  end.

(** ** getProxyObj and its traps *)

(** [getProxyObj(obj, isShallow, isReadonly)]. *)
Definition getProxyObj (obj : nat) (isShallow isReadonly : bool) (s : State)
  : nat * State :=
  match reactiveMap s !! obj with
  | Some existionProxy => (existionProxy, s)
  | None =>
      let proxy := length (heap s) in
      (proxy,
       with_reactiveMap (<[obj := proxy]> (reactiveMap s))
         (with_heap (heap s ++ [OProxy obj isShallow isReadonly]) s))
  end.

Inductive Method : Type :=
| Includes | IndexOf | LastIndexOf
| Push | Pop | Shift | Unshift | Splice.

(** [arrayInstrumentations.hasOwnProperty(key)] and the function found. *)
Definition arrayInstrumentations (k : key) : option Method :=
  match k with
  | KStr n =>
      if decide (n = "includes"%string) then Some Includes
      else if decide (n = "indexOf"%string) then Some IndexOf
      else if decide (n = "lastIndexOf"%string) then Some LastIndexOf
      else if decide (n = "push"%string) then Some Push
      else if decide (n = "pop"%string) then Some Pop
      else if decide (n = "shift"%string) then Some Shift
      else if decide (n = "unshift"%string) then Some Unshift
      else if decide (n = "splice"%string) then Some Splice
      else None
  | _ => None
  end.

(** What a read through a handle answers: a value, or one of the
    instrumented array methods. *)
Inductive got : Type :=
| GotValue (v : value)
| GotMethod (m : Method).

(** The end of the [get] trap, [res] being the value read: the value
    itself, or for an object read through a deep handle the handle
    [getProxyObj] answers for it. *)
Definition answer (isShallow isReadonly : bool) (res : value) (s : State)
  : result got :=
  if isShallow then Ok (GotValue res) s
  else
    match res with
    | VObj r =>
        let '(p, s') := getProxyObj r isShallow isReadonly s in
        Ok (GotValue (VObj p)) s'
    | _ => Ok (GotValue res) s
    end.

(** The [get] trap of the handle made for [target]. *)
Definition get (target : nat) (isShallow isReadonly : bool) (k : key)
    (s : State) : result got :=
  if decide (k = KStr "raw") then Ok (GotValue (VObj target)) s
  else
    match heap s !! target with
    | Some (OProxy _ _ _) | None => Unmodelled
    | Some o =>
        match (if isArray o then arrayInstrumentations k else None) with
        | Some m => Ok (GotMethod m) s
        | None =>
            let s1 :=
              if negb isReadonly && negb (is_symbol k) then track target k s
              else s in
            bind (lift (Reflect_get o k) s1) (answer isShallow isReadonly)
        end
    end.

(** The [has] trap. *)
Definition has (target : nat) (k : key) (s : State) : result bool :=
  match heap s !! target with
  | Some (OProxy _ _ _) | None => Unmodelled
  | Some o => lift (Reflect_has o k) (track target k s)
  end.

(** [Reflect.ownKeys(target)]: the index keys in ascending order, then the
    other string keys and then the symbols, each in creation order.  The
    keys of an array are the indices that are not holes, and [length]. *)
Definition own_keys (o : Obj) : outcome (list key) :=
  match o with
  | OPlain ps =>
      Done
        ((KIdx <$> foldr Core.insert_sorted []
                     (omap (λ k, match k with KIdx n => Some n | _ => None end)
                        ps.*1))
         ++ omap (λ k, match k with KStr n => Some (KStr n) | _ => None end)
              ps.*1
         ++ omap (λ k, match k with KSym n => Some (KSym n) | _ => None end)
              ps.*1)
  | OArray es =>
      if bool_decide (VUndef ∈ es) then Unsupported
      else Done ((KIdx <$> seq 0 (length es)) ++ [KStr "length"])
  | OProxy _ _ _ => Unsupported
  end.

(** The [ownKeys] trap. *)
Definition ownKeys (target : nat) (s : State) : result (list key) :=
  match heap s !! target with
  | Some (OProxy _ _ _) | None => Unmodelled
  | Some o =>
      lift (own_keys o)
        (track target (if isArray o then KStr "length" else ITERATE_KEY) s)
  end.

(** [console.warn(`属性 ${key} 是只读的`); return true]. *)
Definition warn_readonly (k : key) (s : State) : result bool :=
  match key_to_string k with
  | Some name =>
      Ok true
        (with_warned (warned s ++ [("属性 " ++ name ++ " 是只读的")%string]) s)
  | None => Throw TypeError s
  end.

(** The SET / ADD classification of the [set] trap. *)
Definition classify (o : Obj) (k : key) : outcome TriggerType :=
  match o with
  | OArray es =>
      match key_to_number k with
      | Done (Some n) => Done (if decide (n < length es) then SET else ADD)
      | Done None => Done ADD
      | Raise e => Raise e
      | Unsupported => Unsupported
      end
  | _ =>
      match hasOwnProperty o k with
      | Done b => Done (if b then SET else ADD)
      | Raise e => Raise e
      | Unsupported => Unsupported
      end
  end.

(** [oldValue !== newValue && (oldValue === oldValue || newValue === newValue)]. *)
Definition changed (oldValue newValue : value) : bool :=
  negb (strict_eq oldValue newValue)
  && (strict_eq oldValue oldValue || strict_eq newValue newValue).

(** The [set] trap of the handle made for [target]: the value returned and
    the call of [trigger] it makes, if any. *)
Definition set (target : nat) (isReadonly : bool) (k : key)
    (newValue : value) (receiver : nat) (s : State)
  : result (bool * option TriggerCall) :=
  if isReadonly then bind (warn_readonly k s) (λ r s', Ok (r, None) s')
  else
    match heap s !! target with
    | Some (OProxy _ _ _) | None => Unmodelled
    | Some o =>
        bind (lift (Reflect_get o k) s) (λ oldValue s,
          bind (lift (classify o k) s) (λ type s,
            bind (Reflect_set target k newValue receiver s) (λ res s1,
              Ok (res,
                  if strict_eq (VObj target) (receiver_raw s1 receiver) then
                    if changed oldValue newValue
                    then Some (mkCall target k type newValue)
                    else None
                  else None) s1)))
    end.

(** The [deleteProperty] trap. *)
Definition deleteProperty (target : nat) (isReadonly : bool) (k : key)
    (s : State) : result (bool * option TriggerCall) :=
  if isReadonly then bind (warn_readonly k s) (λ r s', Ok (r, None) s')
  else
    match heap s !! target with
    | Some (OProxy _ _ _) | None => Unmodelled
    | Some o =>
        bind (lift (hasOwnProperty o k) s) (λ hadKey s,
          bind (Reflect_deleteProperty target k s) (λ res s1,
            Ok (res,
                if res && hadKey then Some (mkCall target k DELETE VUndef)
                else None) s1))
    end.

(** ** The instrumented search methods *)

(** Operations on an object of any kind: through the traps for a handle. *)
Definition obj_get (o : nat) (k : key) (s : State) : result got :=
  match heap s !! o with
  | Some (OProxy t sh ro) => get t sh ro k s
  | Some ob => bind (lift (Reflect_get ob k) s) (λ v s, Ok (GotValue v) s)
  | None => Unmodelled
  end.

Definition obj_has (o : nat) (k : key) (s : State) : result bool :=
  match heap s !! o with
  | Some (OProxy t _ _) => has t k s
  | Some ob => lift (Reflect_has ob k) s
  | None => Unmodelled
  end.

(** [SameValueZero]: [===], and [NaN] equal to itself. *)
Definition same_value_zero (a b : value) : bool := bool_decide (a = b).

(** The loop of [Array.prototype.includes] over the indices [ks]. *)
Fixpoint includes_loop (o : nat) (x : value) (ks : list nat) (s : State)
  : result value :=
  match ks with
  | [] => Ok (VBool false) s
  | k :: ks' =>
      bind (obj_get o (KIdx k) s) (λ g s1,
        match g with
        | GotValue el =>
            if same_value_zero x el then Ok (VBool true) s1
            else includes_loop o x ks' s1
        | GotMethod _ => Unmodelled
        end)
  end.

(** The loop of [indexOf] and [lastIndexOf] over the indices [ks]. *)
Fixpoint index_loop (o : nat) (x : value) (ks : list nat) (s : State)
  : result value :=
  match ks with
  | [] => Ok (VNum (-1)) s
  | k :: ks' =>
      bind (obj_has o (KIdx k) s) (λ present s1,
        if present then
          bind (obj_get o (KIdx k) s1) (λ g s2,
            match g with
            | GotValue el =>
                if strict_eq x el then Ok (VNum (Z.of_nat k)) s2
                else index_loop o x ks' s2
            | GotMethod _ => Unmodelled
            end)
        else index_loop o x ks' s1)
  end.

(** The first index visited by [includes] and [indexOf]. *)
Definition start_index (len : nat) (fromIndex : option Z) : nat :=
  match fromIndex with
  | None => 0
  | Some n =>
      if decide (0 <= n)%Z then Z.to_nat n
      else Z.to_nat (Z.max (Z.of_nat len + n) 0)
  end.

(** The indices visited by [lastIndexOf], in order. *)
Definition last_indices (len : nat) (fromIndex : option Z) : list nat :=
  let n := default (Z.of_nat len - 1)%Z fromIndex in
  let k := if decide (0 <= n)%Z then Z.min n (Z.of_nat len - 1)
           else (Z.of_nat len + n)%Z in
  if decide (0 <= k)%Z then reverse (seq 0 (S (Z.to_nat k))) else [].

(** [originMethod.apply(o, [x, fromIndex])] for the three search methods,
    on a handle or on an array. *)
Definition originMethod (m : Method) (o : nat) (x : value)
    (fromIndex : option Z) (s : State) : result value :=
  bind (obj_get o (KStr "length") s) (λ g s1,
    match g with
    | GotValue (VNum z) =>
        let len := Z.to_nat z in
        match m with
        | Includes =>
            if decide (len = 0) then Ok (VBool false) s1
            else
              let k := start_index len fromIndex in
              includes_loop o x (seq k (len - k)) s1
        | IndexOf =>
            if decide (len = 0) then Ok (VNum (-1)) s1
            else
              let k := start_index len fromIndex in
              index_loop o x (seq k (len - k)) s1
        | LastIndexOf =>
            if decide (len = 0) then Ok (VNum (-1)) s1
            else index_loop o x (last_indices len fromIndex) s1
        | _ => Unmodelled
        end
    | _ => Unmodelled
    end).

(** The function stored in [arrayInstrumentations] for a search method,
    called with [this] and the arguments. *)
Definition instrumented (m : Method) (this : nat) (x : value)
    (fromIndex : option Z) (s : State) : result value :=
  bind (originMethod m this x fromIndex s) (λ res s1,
    if strict_eq res (VBool false) then
      bind (obj_get this (KStr "raw") s1) (λ g s2,
        match g with
        | GotValue (VObj raw) => originMethod m raw x fromIndex s2
        | GotValue _ => Throw TypeError s2
        | GotMethod _ => Unmodelled
        end)
    else Ok res s1).

(** The method call [proxy.name(x, fromIndex)]: the [get] trap answers the
    instrumented function, which is then called on the handle. *)
Definition call_method (proxy : nat) (name : key) (x : value)
    (fromIndex : option Z) (s : State) : result value :=
  bind (obj_get proxy name s) (λ g s1,
    match g with
    | GotMethod m => instrumented m proxy x fromIndex s1
    | GotValue _ => Unmodelled
    end).

(** ** States used in the statements below *)

(** [const obj = { foo: 1 }], not wrapped yet. *)
Definition one_object : State :=
  mkState [OPlain [(KStr "foo", VNum 1)]] ∅ ∅ ∅ None true [].

(** [const obj = { foo: 1 }; const p = getProxyObj(obj)]: the handle is
    object 1. *)
Definition wrapped_object : State := (getProxyObj 0 false false one_object).2.

(** [const o = {}; const arr = getProxyObj([o])]: the array is object 1 and
    its handle object 2. *)
Definition array_of_object : State :=
  (getProxyObj 1 false false
     (mkState [OPlain []; OArray [VObj 0]] ∅ ∅ ∅ None true [])).2.

(** [const arr = getProxyObj([10, 20, 30])] after
    [effect(() => arr[1])] has run: effect 0 is subscribed to index 1. *)
Definition array_read_state : State :=
  mkState [OArray [VNum 10; VNum 20; VNum 30]; OProxy 0 false false]
    {[ 0 := 1 ]} {[ 0 := [(KIdx 1, [0])] ]} {[ 0 := [(0, KIdx 1)] ]}
    None true [].

(** [const arr = getProxyObj(es)] for an array literal [es]: the array is
    object 0 and its handle object 1. *)
Definition array_state (es : list value) : State :=
  (getProxyObj 0 false false (mkState [OArray es] ∅ ∅ ∅ None true [])).2.

Definition with_activeEffect (a : option nat) (s : State) : State :=
  mkState (heap s) (reactiveMap s) (bucket s) (deps s) a (shouldTrack s)
    (warned s).

(** [const arr = getProxyObj([10, 20, 30])], inside the first run of an
    effect (effect 0), after its [cleanup]. *)
Definition array_inside_effect : State :=
  with_activeEffect (Some 0) (array_state [VNum 10; VNum 20; VNum 30]).

(** A write an array accepts: an element, or [length] with a number from 0
    to 2^32 - 1. *)
Definition array_write (k : key) (v : value) : Prop :=
  match k with
  | KIdx _ => True
  | KStr n =>
      n = "length"%string /\
      exists z, v = VNum z /\ (0 <= z < 4294967296)%Z
  | KSym _ => False
  end.

(** An index or a name. *)
Definition named_key (k : key) : bool :=
  match k with
  | KIdx _ => true
  | KStr n => is_name n
  | KSym _ => false
  end.

(** A dependency map with one entry per key, every key an index or a
    name. *)
Definition string_keyed (dm : DepsMap) : Prop :=
  NoDup dm.*1 /\ forall k, k ∈ dm.*1 -> named_key k = true.

(* ===================================================================== *)
(** ** Further definitions: states, the mutating array methods *)
(* ===================================================================== *)

(** [const obj = { foo: 1 }] behind the handle 1, after an effect (effect 0,
    no longer active) has iterated the handle with [for ... in] and a
    second one (effect 1) has read [foo]. *)
Definition iterated_state : State :=
  mkState [OPlain [(KStr "foo", VNum 1)]; OProxy 0 false false]
    {[ 0 := 1 ]} {[ 0 := [(ITERATE_KEY, [0]); (KStr "foo", [1])] ]}
    {[ 0 := [(0, ITERATE_KEY)]; 1 := [(0, KStr "foo")] ]} None true [].

(** [const arr = getProxyObj([10, 20])] (the array is object 0, the handle
    object 1) after [effect(() => arr.length)] has run: effect 0 is
    subscribed to [length]. *)
Definition array_length_state : State :=
  mkState [OArray [VNum 10; VNum 20]; OProxy 0 false false]
    {[ 0 := 1 ]} {[ 0 := [(KStr "length", [0])] ]}
    {[ 0 := [(0, KStr "length")] ]} None true [].

(** The array [es] is object [arr] and [p] is a handle made for it. *)
Definition array_behind (arr p : nat) (es : list value) (sh ro : bool)
    (s : State) : Prop :=
  heap s !! arr = Some (OArray es) /\ heap s !! p = Some (OProxy arr sh ro).

Definition with_shouldTrack (b : bool) (s : State) : State :=
  mkState (heap s) (reactiveMap s) (bucket s) (deps s) (activeEffect s) b
    (warned s).

Section Mutation.
(** [notify c] stands for the call [trigger(c)] made by the [set] trap with
    everything the effects it calls do. *)
Variable notify : TriggerCall -> State -> result unit.

(** [Set(O, key, v, true)] as the array methods perform it: the [set] trap
    for a handle, with the call of [trigger] it makes; a [false] answer is a
    [TypeError]. *)
Definition obj_set (o : nat) (k : key) (v : value) (s : State) : result unit :=
  match heap s !! o with
  | Some (OProxy t _ ro) =>
      bind (set t ro k v o s) (λ r s1,
        bind (match r.2 with
              | Some c => notify c s1
              | None => Ok tt s1
              end) (λ _ s2,
          if r.1 then Ok tt s2 else Throw TypeError s2))
  | _ => Unmodelled
  end.

(** The loop of [Array.prototype.push] over the items. *)
Fixpoint push_items (o : nat) (len : nat) (items : list value) (s : State)
  : result nat :=
  match items with
  | [] => Ok len s
  | e :: rest =>
      bind (obj_set o (KIdx len) e s) (λ _ s1, push_items o (S len) rest s1)
  end.

(** [Array.prototype.push.apply(o, items)] on a handle. *)
Definition push (o : nat) (items : list value) (s : State) : result value :=
  bind (obj_get o (KStr "length") s) (λ g s1,
    match g with
    | GotValue (VNum z) =>
        bind (push_items o (Z.to_nat z) items s1) (λ len s2,
          bind (obj_set o (KStr "length") (VNum (Z.of_nat len)) s2) (λ _ s3,
            Ok (VNum (Z.of_nat len)) s3))
    | _ => Unmodelled
    end).

(** The function stored in [arrayInstrumentations] for a method of the
    second table, [origin] being the method of [Array.prototype]. *)
Definition instrumented_mutation
    (origin : nat -> list value -> State -> result value)
    (this : nat) (args : list value) (s : State) : result value :=
  bind (origin this args (with_shouldTrack false s)) (λ res s1,
    Ok res (with_shouldTrack true s1)).
End Mutation.

(** The method call [proxy.push(...items)]: the [get] trap answers the
    instrumented function, which is then called on the handle. *)
Definition call_push (notify : TriggerCall -> State -> result unit)
    (proxy : nat) (items : list value) (s : State) : result value :=
  bind (obj_get proxy (KStr "push") s) (λ g s1,
    match g with
    | GotMethod Push => instrumented_mutation (push notify) proxy items s1
    | _ => Unmodelled
    end).

(** [const arr = getProxyObj([10, 20])] (the array is object 0, the handle
    object 1), inside the run of an effect (effect 0). *)
Definition array_in_effect : State :=
  mkState [OArray [VNum 10; VNum 20]; OProxy 0 false false]
    {[ 0 := 1 ]} ∅ ∅ (Some 0) true [].

End Reactive.

(* ===================================================================== *)
(** * Properties of the core engine *)
(* ===================================================================== *)

Module CoreFacts.
Import Core.

(** ** Sets and maps *)

Lemma set_add_elem {A : Type} `{EqDecision A} (x : A) (l : list A) :
  x ∈ l -> set_add x l = l.
Proof.
  intros Hx. unfold set_add, set_has. by rewrite bool_decide_eq_true_2.
Qed.

Lemma elem_of_set_add {A : Type} `{EqDecision A} (x y : A) (l : list A) :
  y ∈ set_add x l <-> y = x \/ y ∈ l.
Proof.
  unfold set_add, set_has. case_bool_decide.
  - split; [by right | intros [->|]; done].
  - rewrite elem_of_app, list_elem_of_singleton. tauto.
Qed.

Lemma elem_of_set_delete {A : Type} `{EqDecision A} (x y : A) (l : list A) :
  y ∈ set_delete x l <-> y ≠ x /\ y ∈ l.
Proof. unfold set_delete. by rewrite list_elem_of_filter. Qed.

Lemma map_get_set_eq {K V : Type} `{EqDecision K} (k : K) (v : V) m :
  map_get k (map_set k v m) = Some v.
Proof.
  induction m as [|[k' v'] m IH]; simpl.
  - by rewrite decide_True.
  - destruct (decide (k = k')) as [->|Hne]; simpl.
    + by rewrite decide_True.
    + by rewrite decide_False.
Qed.

Lemma map_get_set_ne {K V : Type} `{EqDecision K} (k k0 : K) (v : V) m :
  k0 ≠ k -> map_get k0 (map_set k v m) = map_get k0 m.
Proof.
  intros Hne. induction m as [|[k' v'] m IH]; simpl.
  - by rewrite decide_False.
  - destruct (decide (k = k')) as [->|Hne']; simpl.
    + by rewrite !decide_False.
    + destruct (decide (k0 = k')); done.
Qed.

(** ** The dependency store *)

Lemma subs_in_deps_add (e t k : _) (b : gmap nat DepsMap) t' k' :
  subs_in (deps_add e t k b) t' k' =
  if decide ((t', k') = (t, k)) then set_add e (subs_in b t k)
  else subs_in b t' k'.
Proof.
  unfold subs_in, deps_add.
  destruct (decide ((t', k') = (t, k))) as [[= -> ->]|Hne].
  - rewrite lookup_insert_eq. simpl. by rewrite map_get_set_eq.
  - destruct (decide (t' = t)) as [->|Ht].
    + rewrite lookup_insert_eq. simpl.
      rewrite map_get_set_ne; [done | congruence].
    + by rewrite lookup_insert_ne.
Qed.

Lemma subs_in_deps_delete (e : nat) (b : gmap nat DepsMap) d t k :
  subs_in (deps_delete e b d) t k =
  if decide ((t, k) = d) then set_delete e (subs_in b t k)
  else subs_in b t k.
Proof.
  unfold subs_in, deps_delete. destruct d as [t0 k0]. simpl.
  destruct (decide ((t, k) = (t0, k0))) as [[= -> ->]|Hne].
  - destruct (b !! t0) as [dm|] eqn:Hb; simpl.
    + destruct (map_get k0 dm) as [effs|] eqn:Hk; simpl.
      * rewrite lookup_insert_eq. simpl. by rewrite map_get_set_eq.
      * by rewrite Hb; simpl; rewrite Hk.
    + by rewrite Hb.
  - destruct (b !! t0) as [dm|] eqn:Hb; simpl; [|done].
    destruct (map_get k0 dm) as [effs|] eqn:Hk; simpl; [|done].
    destruct (decide (t = t0)) as [->|Ht].
    + rewrite lookup_insert_eq, Hb. simpl.
      rewrite map_get_set_ne; [done | congruence].
    + by rewrite lookup_insert_ne.
Qed.

Lemma set_delete_idemp {A : Type} `{EqDecision A} (x : A) (l : list A) :
  set_delete x (set_delete x l) = set_delete x l.
Proof.
  unfold set_delete. induction l as [|y l IH]; [done|].
  rewrite (filter_cons _ y l). destruct (decide (y ≠ x)); [|done].
  rewrite filter_cons. case_decide; [|done]. by rewrite IH.
Qed.

Lemma subs_in_cleanup_fold (e : nat) (ds : list (nat * key)) b t k :
  subs_in (foldl (deps_delete e) b ds) t k =
  if decide ((t, k) ∈ ds) then set_delete e (subs_in b t k)
  else subs_in b t k.
Proof.
  revert b. induction ds as [|d ds IH]; intros b.
  - rewrite decide_False; [done | apply not_elem_of_nil].
  - cbn [foldl]. rewrite IH, subs_in_deps_delete.
    destruct (decide ((t, k) = d)) as [<-|Hne].
    + rewrite (decide_True (P := (t, k) ∈ (t, k) :: ds)) by left.
      destruct (decide ((t, k) ∈ ds)); [apply set_delete_idemp | done].
    + destruct (decide ((t, k) ∈ ds)) as [Hin|Hnin].
      * rewrite decide_True; [done | by right].
      * rewrite decide_False; [done|].
        intros [?|?]%elem_of_cons; congruence.
Qed.

(** ** [cleanup] and [track] *)

Lemma effects_set_deps (e : nat) d (s : State) e' :
  effects (set_deps e d s) !! e' =
  if decide (e' = e)
  then (λ ef, mkEffectFn (fn ef) (lazy ef) (scheduler ef) d) <$> effects s !! e
  else effects s !! e'.
Proof.
  unfold set_deps. destruct (effects s !! e) as [ef|] eqn:He; simpl.
  - destruct (decide (e' = e)) as [->|Hne].
    + rewrite list_lookup_insert_eq; [done|]. by eapply lookup_lt_Some.
    + by rewrite list_lookup_insert_ne.
  - destruct (decide (e' = e)) as [->|Hne]; [by rewrite He | done].
Qed.

Lemma effect_deps_set_deps (e : nat) d (s : State) :
  is_Some (effects s !! e) -> effect_deps (set_deps e d s) e = d.
Proof.
  intros [ef He]. unfold effect_deps.
  by rewrite effects_set_deps, decide_True, He.
Qed.

Lemma subscribers_cleanup (e : nat) (s : State) t k :
  subscribers (cleanup e s) t k =
  if decide ((t, k) ∈ effect_deps s e) then set_delete e (subscribers s t k)
  else subscribers s t k.
Proof.
  unfold subscribers, cleanup.
  assert (forall d s0, bucket (set_deps e d s0) = bucket s0) as Hb.
  { intros d s0. unfold set_deps. by destruct (effects s0 !! e). }
  rewrite Hb. simpl. apply subs_in_cleanup_fold.
Qed.

Lemma log_read_frame (t : nat) (k : key) (s : State) :
  heap (log_read t k s) = heap s /\
  bucket (log_read t k s) = bucket s /\
  effects (log_read t k s) = effects s /\
  activeEffect (log_read t k s) = activeEffect s /\
  effectStack (log_read t k s) = effectStack s /\
  cells (log_read t k s) = cells s /\
  watchers (log_read t k s) = watchers s /\
  jobQueue (log_read t k s) = jobQueue s /\
  console (log_read t k s) = console s /\
  runs (log_read t k s) = runs s.
Proof.
  unfold log_read. destruct (activeEffect s) eqn:E; simpl; by rewrite ?E.
Qed.

Lemma subscribers_log_read (t : nat) (k : key) (s : State) t' k' :
  subscribers (log_read t k s) t' k' = subscribers s t' k'.
Proof. unfold log_read. by destruct (activeEffect s). Qed.

Lemma subscribers_track (t : nat) (k : key) (s : State) t' k' :
  subscribers (track t k s) t' k' =
  match activeEffect s with
  | Some a =>
      if decide ((t', k') = (t, k)) then set_add a (subscribers s t k)
      else subscribers s t' k'
  | None => subscribers s t' k'
  end.
Proof.
  unfold subscribers, track. destruct (activeEffect s) as [a|]; [|done].
  assert (forall d s0, bucket (set_deps a d s0) = bucket s0) as Hb.
  { intros d s0. unfold set_deps. by destruct (effects s0 !! a). }
  rewrite Hb. simpl. apply subs_in_deps_add.
Qed.

(** ** [trigger] copies the whole subscriber set *)

Lemma foldl_guarded_add_id (a : option nat) (l acc : list nat) :
  (forall x, x ∈ l -> x ∈ acc) ->
  foldl (add_unless_active a) acc l = acc.
Proof.
  revert acc. induction l as [|x l IH]; intros acc Hsub; simpl; [done|].
  assert (x ∈ acc) as Hx by (apply Hsub; left).
  unfold add_unless_active at 2. rewrite (set_add_elem x acc Hx).
  destruct (decide (Some x = a)); apply IH; intros y Hy; apply Hsub; by right.
Qed.

Lemma elem_of_foldl_guarded_add (a : option nat) (l acc : list nat) x :
  x ∈ foldl (add_unless_active a) acc l <->
  x ∈ acc \/ (x ∈ l /\ Some x ≠ a).
Proof.
  revert acc. induction l as [|y l IH]; intros acc; simpl.
  - split; [by left | intros [|[[]%elem_of_nil _]]; done].
  - rewrite IH. unfold add_unless_active at 1.
    destruct (decide (Some y = a)) as [Hy|Hy].
    + split.
      * intros [?|[? ?]]; [by left | right; split; [by right | done]].
      * intros [?|[[->|?]%elem_of_cons ?]]; [by left | done | by right].
    + rewrite elem_of_set_add. split.
      * intros [[->|?]|[? ?]];
          [right; split; [by left | done] | by left
          | right; split; [by right | done]].
      * intros [?|[[->|?]%elem_of_cons ?]];
          [left; by right | left; by left | by right].
Qed.

(** [effectsToRun] is the subscriber set itself: the exclusion test guards
    additions to a set that already holds every subscriber. *)
Lemma effectsToRun_copy (t : nat) (k : key) (s : State) :
  effectsToRun t k s =
  match bucket s !! t with
  | None => None
  | Some _ => Some (subscribers s t k)
  end.
Proof.
  unfold effectsToRun, subscribers, subs_in.
  destruct (bucket s !! t) as [dm|]; simpl; [|done].
  f_equal. by apply foldl_guarded_add_id.
Qed.

Lemma subscribers_bucket (s : State) (t : nat) (k : key) (e : nat) :
  e ∈ subscribers s t k -> is_Some (bucket s !! t).
Proof.
  unfold subscribers, subs_in. destruct (bucket s !! t); simpl; [eauto|].
  by intros ?%elem_of_nil.
Qed.

(** The active effect, when subscribed, is among the effects [trigger]
    runs. *)
Lemma effectsToRun_active (s : State) (t : nat) (k : key) (e : nat) :
  activeEffect s = Some e ->
  e ∈ subscribers s t k ->
  exists l, effectsToRun t k s = Some l /\ e ∈ l.
Proof.
  intros _ He. rewrite effectsToRun_copy.
  destruct (subscribers_bucket _ _ _ _ He) as [dm ->]. eauto.
Qed.

(** ** Self-triggering: [effect(() => obj.i++)] *)

Definition counter_inv (s : State) : Prop :=
  (exists d, effects s !! 0 = Some (mkEffectFn (increment 0) false None d)) /\
  forall x, x ∈ subscribers s 0 (KStr "i") -> x = 0.

Lemma effects_cleanup e s e' :
  effects (cleanup e s) !! e' =
  if decide (e' = e)
  then (λ ef, mkEffectFn (fn ef) (lazy ef) (scheduler ef) []) <$> effects s !! e
  else effects s !! e'.
Proof. unfold cleanup. by rewrite effects_set_deps. Qed.

Lemma increment_effectFn_diverges n s :
  counter_inv s -> effectFn (run n) 0 s = OutOfFuel.
Proof.
  revert s. induction n as [|m IH]; intros s [[d Hd] Hsub]; [done|].
  unfold effectFn.
  set (s3 := with_runs _ _).
  assert (effects s3 !! 0 = Some (mkEffectFn (increment 0) false None [])) as H3.
  { subst s3. simpl. by rewrite effects_cleanup, decide_True, Hd. }
  unfold effect_fn. rewrite H3. simpl.
  destruct m as [|m']; [done|].
  assert (activeEffect s3 = Some 0) as Hact by done.
  assert (forall x, x ∈ subscribers s3 0 (KStr "i") -> x = 0) as Hs3.
  { intros x. subst s3. unfold subscribers. simpl.
    fold (subscribers (cleanup 0 s) 0 (KStr "i")).
    rewrite subscribers_cleanup. case_decide.
    - intros [_ ?]%elem_of_set_delete. by apply Hsub.
    - apply Hsub. }
  clearbody s3.
  destruct (log_read_frame 0 (KStr "i") s3)
    as (_ & _ & HeL & HaL & _).
  rewrite <- HeL in H3. rewrite <- HaL in Hact.
  rewrite <- (subscribers_log_read 0 (KStr "i") s3) in Hs3.
  clear HeL HaL. generalize dependent (log_read 0 (KStr "i") s3).
  clear s3. intros s3 H3 Hact Hs3.
  set (sT := track 0 (KStr "i") s3).
  set (sW := write_prop _ _ _ sT).
  assert (subscribers sW 0 (KStr "i") = set_add 0 (subscribers s3 0 (KStr "i")))
    as HsW.
  { subst sW sT. unfold subscribers at 1. simpl.
    fold (subscribers (track 0 (KStr "i") s3) 0 (KStr "i")).
    by rewrite subscribers_track, Hact, decide_True. }
  assert (counter_inv sW) as HinvW.
  { split.
    - subst sW sT. simpl. unfold track. rewrite Hact.
      eexists. rewrite effects_set_deps, decide_True by done.
      simpl. by rewrite H3.
    - intros x. rewrite HsW. intros [->|?]%elem_of_set_add; [done|].
      by apply Hs3. }
  unfold trigger. cbn [trigger_n]. unfold trigger_with.
  rewrite effectsToRun_copy.
  assert (0 ∈ subscribers sW 0 (KStr "i")) as H0.
  { rewrite HsW. apply elem_of_set_add. by left. }
  destruct (subscribers_bucket _ _ _ _ H0) as [dm ->].
  destruct (subscribers sW 0 (KStr "i")) as [|x l] eqn:Hl.
  { by apply elem_of_nil in H0. }
  assert (x = 0) as -> by (apply (proj2 HinvW); rewrite Hl; left).
  cbn [forEach]. unfold invoke at 1.
  destruct HinvW as [[d' Hd'] HW]. unfold effect_sched. rewrite Hd'. simpl.
  rewrite IH; [done|]. split; [eauto | done].
Qed.

(** C1 (fails on the code).  The claim: [trigger] never puts the active
    effect among the effects it runs, so an effect that reads and writes the
    same key does not retrigger itself.  The code: inside the first run of
    [effect(() => obj.i++)], at the call of [trigger] by the [set] trap, the
    active effect is effect 0 and [effectsToRun] is the set holding effect 0;
    the run calls itself again and registering the effect has no outcome at
    any nesting depth. *)
Theorem self_trigger_reruns_active_effect :
  activeEffect counter_inside = Some 0 /\
  effectsToRun 0 (KStr "i") counter_inside = Some [0] /\
  forall fuel, effect fuel (increment 0) false None counter_state = OutOfFuel.
Proof.
  split; [reflexivity|]. split; [reflexivity|].
  intros fuel. unfold effect. cbn [lazy].
  rewrite increment_effectFn_diverges; [done|].
  split; [by eexists|].
  intros x Hx. by apply elem_of_nil in Hx.
Qed.

(** ** Computed cells *)

Lemma computed_state_eq vx vy f :
  computed_state vx vy f =
  xy_state [(KStr "x", vx); (KStr "y", vy)] f false (mkCell VUndef true 0 1)
    [] [] [].
Proof. reflexivity. Qed.

Lemma xy_read_dirty fuel vx vy f b val con rn rl :
  get_value (run (S fuel)) 0
    (xy_state [(KStr "x", vx); (KStr "y", vy)] f b (mkCell val true 0 1)
       con rn rl) =
  Ok (f vx vy)
    (xy_state [(KStr "x", vx); (KStr "y", vy)] f true
       (mkCell (f vx vy) false 0 1) (con ++ [[]]) (rn ++ [0])
       ((rl ++ [(0, 0, KStr "x")]) ++ [(0, 0, KStr "y")])).
Proof. destruct b; reflexivity. Qed.

Lemma read_value_clean sub depth c n rest s cl :
  cells s !! c = Some cl -> c_dirty cl = false -> activeEffect s = None ->
  exec sub depth (read_value c n rest) s =
  exec sub depth rest (with_console (console s ++ repeat [c_value cl] n) s).
Proof.
  revert s. induction n as [|n IH]; intros s Hc Hd Ha; simpl.
  - rewrite app_nil_r. by destruct s.
  - unfold get_value. rewrite Hc, Hd. simpl.
    unfold log_read, track. rewrite Ha. simpl. rewrite Ha, Hc. simpl.
    rewrite IH by done. simpl. by rewrite <- app_assoc.
Qed.

Lemma xy_read_clean sub depth n rest h f b val con rn rl :
  exec sub depth (read_value 0 n rest)
    (xy_state h f b (mkCell val false 0 1) con rn rl) =
  exec sub depth rest
    (xy_state h f b (mkCell val false 0 1) (con ++ repeat [val] n) rn rl).
Proof. by rewrite (read_value_clean _ _ _ _ _ _ (mkCell val false 0 1)). Qed.

Lemma xy_write fuel h f val con rn rl k v rest :
  k = KStr "x" \/ k = KStr "y" ->
  exec (run (S (S fuel))) (S (S fuel)) (Put 0 k v rest)
    (xy_state h f true (mkCell val false 0 1) con rn rl) =
  exec (run (S (S fuel))) (S (S fuel)) rest
    (xy_state (map_set k v h) f true (mkCell val true 0 1) con rn rl).
Proof. intros [->| ->]; reflexivity. Qed.



(** ** Watchers *)

(** C9 (fails on the code).  The claim: after [watch(() => a.x, cb)], set
    up without [immediate], the write [a.x = 2] calls [cb] once, with (2, 1).
    The code: [options] has no default value and [watch] reads
    [options.immediate], so the call without a third argument throws a
    [TypeError], whatever the getter, the callback and the state; the getter
    has not run, nothing is subscribed and nothing is printed.  With [a.x]
    initialised to [v0], the write [a.x = v1] after the failed call runs no
    effect and prints nothing: [cb] is never called.  (When an object is
    passed, [{}] included, the call does what the claim says:
    [watch_old_new].) *)
Theorem watch_without_options_throws (s : State) (g : Prog)
    (cb : value -> value -> nat -> Prog) (v0 v1 : value) (fuel : nat) :
  (exists s',
     watch fuel g cb None s = Throw TypeError s' /\
     bucket s' = bucket s /\ heap s' = heap s /\ runs s' = runs s /\
     console s' = console s /\ microtasks s' = microtasks s) /\
  (exists s1 s2,
     watch fuel (x_getter 0) log_cb None (watch_state v0)
     = Throw TypeError s1 /\
     write_then_drain (S (S fuel)) v1 s1 = Ok tt s2 /\
     read_prop s2 0 (KStr "x") = v1 /\
     console s2 = [] /\ runs s2 = []).
Proof.
  split.
  - eexists. split; [reflexivity|]. done.
  - eexists. eexists. split; [reflexivity|].
    split; [reflexivity|]. done.
Qed.

(** The same scenario when an options object is passed.  With [a.x]
    initialised to [v0], setting up [watch(() => a.x, cb, options)] without
    [immediate] runs the getter once, does not call [cb] and stores [v0] as
    the old value; the write [a.x = v1] then runs the getter once more and
    calls [cb] once, with new value [v1] and old value [v0], and the stored
    old value becomes [v1].  This holds for both flush modes, the callback
    of [flush: 'post'] running with the microtasks. *)
Theorem watch_old_new (v0 v1 : value) (post : bool) (fuel : nat) :
  3 <= fuel ->
  exists s1 s2,
    watch fuel (x_getter 0) log_cb (Some (mkOptions false post))
      (watch_state v0) = Ok tt s1 /\
    console s1 = [] /\
    runs s1 = [0] /\
    oldValue s1 0 = Some v0 /\
    write_then_drain fuel v1 s1 = Ok tt s2 /\
    console s2 = [[v1; v0]] /\
    runs s2 = [0; 0] /\
    oldValue s2 0 = Some v1.
Proof.
  intros Hfuel. destruct fuel as [|[|[|fuel]]]; try lia.
  destruct post.
  - eexists. eexists. split; [vm_compute; reflexivity|].
    split; [reflexivity|]. split; [reflexivity|]. split; [reflexivity|].
    split; [vm_compute; reflexivity|].
    split; [reflexivity|]. split; reflexivity.
  - eexists. eexists. split; [vm_compute; reflexivity|].
    split; [reflexivity|]. split; [reflexivity|]. split; [reflexivity|].
    split; [vm_compute; reflexivity|].
    split; [reflexivity|]. split; reflexivity.
Qed.

Lemma watch_old_new_witness :
  exists s1 s2,
    watch 3 (x_getter 0) log_cb (Some (mkOptions false false))
      (watch_state (VNum 1)) = Ok tt s1 /\
    console s1 = [] /\
    runs s1 = [0] /\
    oldValue s1 0 = Some (VNum 1) /\
    write_then_drain 3 (VNum 2) s1 = Ok tt s2 /\
    console s2 = [[VNum 2; VNum 1]] /\
    runs s2 = [0; 0] /\
    oldValue s2 0 = Some (VNum 2).
Proof.
  apply (watch_old_new (VNum 1) (VNum 2) false 3). repeat constructor.
Defined.

(** ** Dependency precision *)

Lemma set_deps_frame e d s :
  heap (set_deps e d s) = heap s /\ bucket (set_deps e d s) = bucket s /\
  activeEffect (set_deps e d s) = activeEffect s /\
  effectStack (set_deps e d s) = effectStack s.
Proof. unfold set_deps. by destruct (effects s !! e). Qed.

Lemma track_frame t k s :
  heap (track t k s) = heap s /\
  activeEffect (track t k s) = activeEffect s /\
  effectStack (track t k s) = effectStack s.
Proof.
  unfold track. destruct (activeEffect s) as [a|] eqn:Ha; [|done].
  destruct (set_deps_frame a
    (effect_deps (with_bucket (deps_add a t k (bucket s)) s) a ++ [(t, k)])
    (with_bucket (deps_add a t k (bucket s)) s)) as (-> & _ & -> & ->).
  done.
Qed.

Lemma effects_track t k s e :
  activeEffect s = Some e ->
  forall e',
  effects (track t k s) !! e' =
  if decide (e' = e)
  then (λ ef, mkEffectFn (fn ef) (lazy ef) (scheduler ef)
                (effect_deps s e ++ [(t, k)])) <$> effects s !! e
  else effects s !! e'.
Proof.
  intros Ha e'. unfold track. rewrite Ha. by rewrite effects_set_deps.
Qed.

Lemma read_frame t k s :
  heap (track t k (log_read t k s)) = heap s /\
  activeEffect (track t k (log_read t k s)) = activeEffect s /\
  effectStack (track t k (log_read t k s)) = effectStack s.
Proof.
  destruct (track_frame t k (log_read t k s)) as (-> & -> & ->).
  by destruct (log_read_frame t k s) as (-> & _ & _ & -> & -> & _).
Qed.

Lemma subscribers_read (t : nat) (k : key) (s : State) t' k' :
  subscribers (track t k (log_read t k s)) t' k' =
  match activeEffect s with
  | Some a =>
      if decide ((t', k') = (t, k)) then set_add a (subscribers s t k)
      else subscribers s t' k'
  | None => subscribers s t' k'
  end.
Proof.
  rewrite subscribers_track, !subscribers_log_read.
  by destruct (log_read_frame t k s) as (_ & _ & _ & -> & _).
Qed.

Lemma effects_read t k s e :
  activeEffect s = Some e ->
  forall e',
  effects (track t k (log_read t k s)) !! e' =
  if decide (e' = e)
  then (λ ef, mkEffectFn (fn ef) (lazy ef) (scheduler ef)
                (effect_deps s e ++ [(t, k)])) <$> effects s !! e
  else effects s !! e'.
Proof.
  intros Ha e'.
  destruct (log_read_frame t k s) as (_ & _ & He & HaL & _).
  rewrite (effects_track t k _ e) by by rewrite HaL.
  unfold effect_deps. by rewrite He.
Qed.

Lemma exec_reads_only sub depth p :
  reads_only p ->
  forall s e, activeEffect s = Some e -> is_Some (effects s !! e) ->
  exists v s',
    exec sub depth p s = Ok v s' /\
    heap s' = heap s /\
    activeEffect s' = Some e /\
    effectStack s' = effectStack s /\
    is_Some (effects s' !! e) /\
    (forall t k x,
       x ∈ subscribers s' t k <->
       x ∈ subscribers s t k \/ (x = e /\ (t, k) ∈ reads (heap s) p)) /\
    (forall d,
       d ∈ effect_deps s' e <->
       d ∈ effect_deps s e \/ d ∈ reads (heap s) p).
Proof.
  induction p as [v|t k cont IH|t k v cont IH|vs cont IH|c cont IH|w f IHf cont IH];
    simpl; try done.
  - intros _ s e Ha He. exists v, s. repeat split; try done.
    + tauto.
    + intros [|[_ []%elem_of_nil]]; done.
    + tauto.
    + intros [|[]%elem_of_nil]; done.
  - intros Hro s e Ha [ef He].
    destruct (read_frame t k s) as (Hh & Hact & Hst).
    destruct (IH (read_prop (track t k (log_read t k s)) t k) (Hro _)
                (track t k (log_read t k s)) e)
      as (v & s' & Hex & Hh' & Ha' & Hst' & He' & Hsub & Hdeps).
    { by rewrite Hact. }
    { rewrite (effects_read _ _ _ _ Ha), decide_True, He by done. by eexists. }
    exists v, s'. split; [done|].
    unfold read_prop in Hsub, Hdeps. rewrite Hh in Hsub, Hdeps.
    rewrite Hh', Hh, Hst', Hst. repeat split; try done.
    + intros Hx. apply Hsub in Hx as [Hx|[-> Hx]].
      * rewrite subscribers_read, Ha in Hx. case_decide as Heq.
        -- apply elem_of_set_add in Hx as [->|Hx].
           ++ injection Heq as -> ->. right. split; [done|left].
           ++ injection Heq as -> ->. by left.
        -- by left.
      * right. split; [done|by right].
    + intros Hx. apply Hsub. rewrite subscribers_read, Ha.
      destruct Hx as [Hx|[-> Hx]].
      * left. case_decide as Heq; [|done].
        injection Heq as -> ->. apply elem_of_set_add. by right.
      * apply elem_of_cons in Hx as [[= -> ->]|Hx].
        -- left. rewrite decide_True by done. apply elem_of_set_add. by left.
        -- right. done.
    + intros Hd. apply Hdeps in Hd as [Hd|Hd].
      * unfold effect_deps in Hd.
        rewrite (effects_read _ _ _ _ Ha), decide_True, He in Hd by done.
        simpl in Hd. apply elem_of_app in Hd as [Hd|Hd].
        -- by left.
        -- right. apply list_elem_of_singleton in Hd. subst d. left.
      * right. by right.
    + intros Hd. apply Hdeps. unfold effect_deps at 1.
      rewrite (effects_read _ _ _ _ Ha), decide_True, He by done. simpl.
      destruct Hd as [Hd|Hd].
      * left. rewrite elem_of_app. by left.
      * apply elem_of_cons in Hd as [->|Hd].
        -- left. rewrite elem_of_app. right. by left.
        -- by right.
  - intros Hro s e Ha He.
    destruct (IH Hro (with_console (console s ++ [vs]) s) e Ha He)
      as (v & s' & Hex & Hh' & Ha' & Hst' & He' & Hsub & Hdeps).
    exists v, s'. done.
Qed.

Lemma cleanup_frame e s :
  heap (cleanup e s) = heap s /\
  activeEffect (cleanup e s) = activeEffect s /\
  effectStack (cleanup e s) = effectStack s.
Proof.
  unfold cleanup.
  destruct (set_deps_frame e []
    (with_bucket (foldl (deps_delete e) (bucket s) (effect_deps s e)) s))
    as (-> & _ & -> & ->).
  done.
Qed.

Lemma cleanup_unsubscribes e s :
  deps_cover s e -> forall t k, e ∉ subscribers (cleanup e s) t k.
Proof.
  intros Hcov t k. rewrite subscribers_cleanup. case_decide as Hin.
  - intros [? _]%elem_of_set_delete. done.
  - intros He. by apply Hin, Hcov.
Qed.

(** ** Batching *)

Lemma ext_refl r s : ext r s s.
Proof.
  split; try done. exists []. split; [by rewrite app_nil_r | apply not_elem_of_nil].
Qed.

Lemma ext_trans r s1 s2 s3 : ext r s1 s2 -> ext r s2 s3 -> ext r s1 s3.
Proof.
  intros [A1 B1 C1 D1 E1 (d1 & F1 & G1)] [A2 B2 C2 D2 E2 (d2 & F2 & G2)].
  split.
  - intros e. by rewrite A2.
  - intros c. by rewrite B2.
  - intros w. by rewrite C2.
  - by etrans.
  - auto.
  - exists (d1 ++ d2). split.
    + by rewrite F2, F1, app_assoc.
    + rewrite not_elem_of_app. done.
Qed.

Lemma batched_ext r s s' : ext r s s' -> batched r s -> batched r s'.
Proof.
  intros [A B C _ _ _] (Hs & Hc & Hw). split; [by rewrite A|]. split.
  - intros c cl Hcl. specialize (B c). rewrite Hcl in B. simpl in B.
    destruct (cells s !! c) as [cl0|] eqn:H0; [|done].
    injection B as ->. by eapply Hc.
  - intros w wr Hwr. specialize (C w). rewrite Hwr in C. simpl in C.
    destruct (watchers s !! w) as [wr0|] eqn:H0; [|done].
    injection C as ->. by eapply Hw.
Qed.

(** A step that leaves the schedulers, the queue and the runs alone. *)
Lemma ext_frame r s s' :
  (forall e, effect_sched s' e = effect_sched s e) ->
  (forall c, c_effect <$> cells s' !! c = c_effect <$> cells s !! c) ->
  (forall w, w_effect <$> watchers s' !! w = w_effect <$> watchers s !! w) ->
  jobQueue s' = jobQueue s -> runs s' = runs s -> ext r s s'.
Proof.
  intros A B C D E. split; try done.
  - by rewrite D.
  - by rewrite D.
  - exists []. split; [by rewrite app_nil_r | apply not_elem_of_nil].
Qed.

Lemma effect_sched_set_deps e d s e' :
  effect_sched (set_deps e d s) e' = effect_sched s e'.
Proof.
  unfold effect_sched. rewrite effects_set_deps.
  case_decide as Heq; [|done]. subst. by destruct (effects s !! e).
Qed.

Lemma set_deps_other e d s :
  cells (set_deps e d s) = cells s /\ watchers (set_deps e d s) = watchers s /\
  jobQueue (set_deps e d s) = jobQueue s /\ runs (set_deps e d s) = runs s.
Proof. unfold set_deps. by destruct (effects s !! e). Qed.

Lemma ext_set_deps r e d s : ext r s (set_deps e d s).
Proof.
  destruct (set_deps_other e d s) as (Hc & Hw & Hq & Hr).
  apply ext_frame; try done.
  - apply effect_sched_set_deps.
  - by rewrite Hc.
  - by rewrite Hw.
Qed.

Lemma ext_cleanup r e s : ext r s (cleanup e s).
Proof.
  unfold cleanup. eapply ext_trans; [|apply ext_set_deps]. by apply ext_frame.
Qed.

Lemma ext_track r t k s : ext r s (track t k s).
Proof.
  unfold track. destruct (activeEffect s); [|apply ext_refl].
  eapply ext_trans; [|apply ext_set_deps]. by apply ext_frame.
Qed.

Lemma ext_read r t k s : ext r s (track t k (log_read t k s)).
Proof.
  eapply ext_trans; [|apply ext_track].
  unfold log_read. destruct (activeEffect s); [by apply ext_frame|].
  apply ext_refl.
Qed.

Lemma ext_schedule_batch r e s : ext r s (schedule_batch e s).
Proof.
  unfold schedule_batch, flushJob. simpl.
  assert (jobQueue s `prefix_of` set_add e (jobQueue s)) as Hp.
  { unfold set_add. case_match; [done | by apply prefix_app_r]. }
  assert (NoDup (jobQueue s) -> NoDup (set_add e (jobQueue s))) as Hn.
  { unfold set_add, set_has. case_bool_decide; [done|].
    intros Hnd. apply NoDup_app. split; [done|]. split.
    - intros x Hx ->%list_elem_of_singleton. done.
    - apply NoDup_singleton. }
  destruct (isFlushing s); split; simpl; try done;
    exists []; (split; [by rewrite app_nil_r | apply not_elem_of_nil]).
Qed.

Lemma list_alter_proj {A B} (g : A -> B) (f : A -> A) (l : list A) i j :
  (forall x, g (f x) = g x) -> g <$> alter f i l !! j = g <$> l !! j.
Proof.
  intros Hg. destruct (decide (i = j)) as [->|Hne].
  - rewrite list_lookup_alter_eq. destruct (l !! j); simpl; [|done].
    by rewrite Hg.
  - by rewrite list_lookup_alter_ne.
Qed.

Section Ext.
Variable r : nat.
Variable sub : Prog -> State -> result value.
Hypothesis sub_ext :
  forall p s v s', sub p s = Ok v s' -> batched r s -> ext r s s'.

Lemma effectFn_ext e s v s' :
  e ≠ r -> effectFn sub e s = Ok v s' -> batched r s -> ext r s s'.
Proof.
  intros Hne Hrun Hb. unfold effectFn in Hrun.
  set (s3 := with_runs _ _) in Hrun.
  assert (ext r s s3) as H3.
  { eapply ext_trans; [apply (ext_cleanup r e)|].
    subst s3. split; simpl; try done.
    exists [e]. split; [done|]. by intros ->%list_elem_of_singleton. }
  clearbody s3.
  destruct (sub (effect_fn s3 e) s3) as [res s4| |] eqn:Hs; [|done..].
  simpl in Hrun. injection Hrun as <- <-.
  eapply ext_trans; [exact H3|].
  eapply ext_trans; [eapply sub_ext; [exact Hs | by eapply batched_ext]|].
  by apply ext_frame.
Qed.

Lemma job_ext w s s' :
  job sub w s = Ok tt s' -> batched r s -> ext r s s'.
Proof.
  intros Hrun Hb. unfold job in Hrun.
  destruct (watchers s !! w) as [wr|] eqn:Hw;
    [|injection Hrun as <-; apply ext_refl].
  destruct (effectFn sub (w_effect wr) s) as [nv s1| |] eqn:H1; [|done..].
  assert (ext r s s1) as E1.
  { eapply effectFn_ext; [|exact H1|done]. by eapply (proj2 (proj2 Hb)). }
  cbn [bind] in Hrun.
  set (s2 := with_watchers _ s1) in Hrun.
  assert (ext r s1 s2) as E2.
  { subst s2. apply ext_frame; simpl; try done.
    intros w'. by apply list_alter_proj. }
  assert (ext r s s2) as E02 by (eapply ext_trans; eauto).
  clearbody s2.
  destruct (match watchers s2 !! w ≫= w_cleanup with
            | Some c => sub c s2 | None => Ok VUndef s2 end)
    as [u s3| |] eqn:H3; [|done..].
  assert (ext r s2 s3) as E3.
  { destruct (watchers s2 !! w ≫= w_cleanup).
    - eapply sub_ext; [exact H3 | by eapply batched_ext].
    - injection H3 as <- <-. apply ext_refl. }
  cbn [bind] in Hrun.
  destruct (sub _ s3) as [u' s4| |] eqn:H4; [|done..].
  cbn [bind] in Hrun. injection Hrun as <-.
  eapply ext_trans; [exact E02|]. eapply ext_trans; [exact E3|].
  eapply ext_trans.
  { eapply sub_ext; [exact H4|].
    eapply batched_ext; [exact E3|]. by eapply batched_ext. }
  apply ext_frame; simpl; try done.
  intros w'. by apply list_alter_proj.
Qed.

Lemma forEach_ext (f : nat -> State -> result unit) l :
  (forall e s s', f e s = Ok tt s' -> batched r s -> ext r s s') ->
  forall s s', forEach f l s = Ok tt s' -> batched r s -> ext r s s'.
Proof.
  intros Hf. induction l as [|e l IH]; intros s s' Hrun Hb; simpl in Hrun.
  - injection Hrun as <-. apply ext_refl.
  - destruct (f e s) as [[] s1| |] eqn:H1; [|done..]. simpl in Hrun.
    eapply ext_trans; [by eapply Hf|].
    eapply IH; [done|]. eapply batched_ext; [|done]. by eapply Hf.
Qed.

Lemma invoke_ext deeper e s s' :
  (forall t k s s', deeper t k s = Ok tt s' -> batched r s -> ext r s s') ->
  invoke sub deeper e s = Ok tt s' -> batched r s -> ext r s s'.
Proof.
  intros Hdeep Hrun Hb. unfold invoke in Hrun.
  destruct (effect_sched s e) as [[c|w|]|] eqn:Hs.
  - set (s1 := with_cells _ s) in Hrun.
    assert (ext r s s1) as E1.
    { subst s1. apply ext_frame; simpl; try done.
      intros c'. by apply list_alter_proj. }
    clearbody s1.
    destruct (cells s1 !! c) as [cl|].
    + eapply ext_trans; [exact E1|].
      eapply Hdeep; [exact Hrun | by eapply batched_ext].
    + by injection Hrun as <-.
  - destruct (watchers s !! w) as [wr|];
      [|injection Hrun as <-; apply ext_refl].
    destruct (w_post wr).
    + injection Hrun as <-. by apply ext_frame.
    + by eapply job_ext.
  - injection Hrun as <-. apply ext_schedule_batch.
  - destruct (effectFn sub e s) as [v s1| |] eqn:H1; [|done..].
    simpl in Hrun. injection Hrun as <-.
    eapply effectFn_ext; [|exact H1|done].
    intros ->. destruct Hb as [Hb _]. congruence.
Qed.

Lemma trigger_n_ext n t k s s' :
  trigger_n sub n t k s = Ok tt s' -> batched r s -> ext r s s'.
Proof.
  revert t k s s'. induction n as [|n IH]; intros t k s s' Hrun Hb; [done|].
  cbn [trigger_n] in Hrun. unfold trigger_with in Hrun.
  destruct (effectsToRun t k s) as [l|];
    [|injection Hrun as <-; apply ext_refl].
  eapply forEach_ext; [|exact Hrun|done].
  intros e s0 s0' H0 Hb0. eapply invoke_ext; [|exact H0|done].
  intros t0 k0 s1 s1'. apply IH.
Qed.

Lemma get_value_ext c s v s' :
  get_value sub c s = Ok v s' -> batched r s -> ext r s s'.
Proof.
  intros Hrun Hb. unfold get_value in Hrun.
  destruct (cells s !! c) as [cl|] eqn:Hc;
    [|injection Hrun as <- <-; apply ext_refl].
  destruct (c_dirty cl).
  - destruct (effectFn sub (c_effect cl) s) as [v1 s1| |] eqn:H1; [|done..].
    cbn [bind] in Hrun. injection Hrun as <- <-.
    eapply ext_trans.
    { eapply effectFn_ext; [|exact H1|done]. by eapply (proj1 (proj2 Hb)). }
    eapply ext_trans; [|apply ext_read].
  apply ext_frame; simpl; try done.
  intros c'. by apply list_alter_proj.
- cbn [bind] in Hrun. injection Hrun as <- <-. apply ext_read.
Qed.

Lemma exec_ext depth p :
  forall s v s', exec sub depth p s = Ok v s' -> batched r s -> ext r s s'.
Proof.
  induction p as [v0|t k cont IH|t k v0 cont IH|vs cont IH|c cont IH
                 |w f IHf cont IH]; intros s v s' Hrun Hb; cbn [exec] in Hrun.
  - injection Hrun as <- <-. apply ext_refl.
  - eapply ext_trans; [apply (ext_read r t k)|].
  eapply IH; [exact Hrun|]. eapply batched_ext; [apply ext_read|done].
  - destruct (trigger sub depth t k (write_prop t k v0 s)) as [[] s1| |] eqn:H1;
      [|done..].
    cbn [bind] in Hrun.
    assert (ext r s (write_prop t k v0 s)) as E0 by by apply ext_frame.
    assert (ext r (write_prop t k v0 s) s1) as E1.
    { eapply trigger_n_ext; [exact H1 | by eapply batched_ext]. }
    eapply ext_trans; [exact E0|]. eapply ext_trans; [exact E1|].
    eapply IH; [exact Hrun|].
    eapply batched_ext; [exact E1|]. by eapply batched_ext.
  - assert (ext r s (with_console (console s ++ [vs]) s)) as E0
      by by apply ext_frame.
    eapply ext_trans; [exact E0|].
    eapply IH; [exact Hrun | by eapply batched_ext].
  - destruct (get_value sub c s) as [v1 s1| |] eqn:H1; [|done..].
    cbn [bind] in Hrun.
    assert (ext r s s1) as E1 by by eapply get_value_ext.
    eapply ext_trans; [exact E1|].
    eapply IH; [exact Hrun | by eapply batched_ext].
  - set (s1 := with_watchers _ s) in Hrun.
    assert (ext r s s1) as E1.
    { subst s1. apply ext_frame; simpl; try done.
      intros w'. by apply list_alter_proj. }
    eapply ext_trans; [exact E1|].
    eapply IH; [exact Hrun | by eapply batched_ext].
Qed.
End Ext.

Lemma run_ext r fuel p s v s' :
  run fuel p s = Ok v s' -> batched r s -> ext r s s'.
Proof.
  revert p s v s'. induction fuel as [|n IH]; intros p s v s' Hrun Hb; [done|].
  cbn [run] in Hrun. eapply exec_ext; [|exact Hrun|done]. exact IH.
Qed.

Lemma runs_of_app r l1 l2 : runs_of r (l1 ++ l2) = runs_of r l1 + runs_of r l2.
Proof. unfold runs_of. by rewrite filter_app, length_app. Qed.

Lemma runs_of_notin r l : r ∉ l -> runs_of r l = 0.
Proof.
  unfold runs_of. induction l as [|x l IH]; [done|].
  intros Hn. apply not_elem_of_cons in Hn as [Hne Hn].
  rewrite filter_cons. case_decide; [congruence | by apply IH].
Qed.

Lemma runs_of_cons r x l :
  runs_of r (x :: l) = (if decide (x = r) then 1 else 0) + runs_of r l.
Proof. unfold runs_of. rewrite filter_cons. by case_decide. Qed.

Lemma runs_of_nodup r l : NoDup l -> r ∈ l -> runs_of r l = 1.
Proof.
  induction 1 as [|x l Hx Hnd IH]; [by intros ?%elem_of_nil|].
  rewrite runs_of_cons. intros [->|Hin]%elem_of_cons.
  - rewrite decide_True by done. by rewrite runs_of_notin.
  - rewrite decide_False by (intros ->; done). by rewrite IH.
Qed.

(** A run of any effect [e]: [e] is recorded, and no run of [r] is started
    inside it. *)
Lemma effectFn_run r fuel e s v s' :
  effectFn (run fuel) e s = Ok v s' -> batched r s ->
  exists s3, ext r s3 s' /\ runs s3 = runs s ++ [e] /\
             jobQueue s3 = jobQueue s /\ batched r s3.
Proof.
  intros Hrun Hb. unfold effectFn in Hrun.
  set (s2 := with_active _ _ _) in Hrun.
  assert (ext r s s2) as E2.
  { eapply ext_trans; [apply (ext_cleanup r e)|]. by apply ext_frame. }
  set (s3 := with_runs _ s2) in Hrun.
  assert (batched r s3) as Hb3.
  { assert (batched r s2) as Hb2 by by eapply batched_ext.
    exact Hb2. }
  exists s3. destruct (run fuel (effect_fn s3 e) s3) as [res s4| |] eqn:Hs; [|done..].
  simpl in Hrun. injection Hrun as <- <-. split; [|split; [|split]].
  - eapply ext_trans; [by eapply run_ext|]. by apply ext_frame.
  - subst s3. simpl. f_equal. destruct E2 as [_ _ _ _ _ (d & Hd & _)].
    unfold cleanup. by destruct (set_deps_other e []
      (with_bucket (foldl (deps_delete e) (bucket s) (effect_deps s e)) s))
      as (_ & _ & _ & ->).
  - subst s3 s2. simpl. unfold cleanup. by destruct (set_deps_other e []
      (with_bucket (foldl (deps_delete e) (bucket s) (effect_deps s e)) s))
      as (_ & _ & -> & _).
  - done.
Qed.

Lemma flush_from_runs r n fuel : forall i s s',
  flush_from n fuel i s = Ok tt s' -> batched r s -> NoDup (jobQueue s) ->
  jobQueue s `prefix_of` jobQueue s' /\ NoDup (jobQueue s') /\
  exists d, runs s' = runs s ++ d /\
            runs_of r d = runs_of r (drop i (jobQueue s')).
Proof.
  induction n as [|n IH]; intros i s s' Hrun Hb Hnd; [done|].
  cbn [flush_from] in Hrun.
  destruct (jobQueue s !! i) as [j|] eqn:Hj.
  - destruct (effectFn (run fuel) j s) as [v s1| |] eqn:H1; [|done..].
    cbn [bind] in Hrun.
    destruct (effectFn_run r _ _ _ _ _ H1 Hb) as (s3 & E & Hr3 & Hq3 & Hb3).
    assert (batched r s1) as Hb1 by by eapply batched_ext.
    assert (NoDup (jobQueue s1)) as Hnd1.
    { apply (ext_nodup _ _ _ E). by rewrite Hq3. }
    destruct (IH (S i) s1 s' Hrun Hb1 Hnd1) as (Hp & Hnd' & d2 & Hd2 & Hc2).
    assert (jobQueue s `prefix_of` jobQueue s1) as Hp1.
    { rewrite <- Hq3. apply (ext_queue _ _ _ E). }
    split; [by etrans|]. split; [done|].
    destruct (ext_runs _ _ _ E) as (d1 & Hd1 & Hn1).
    exists (j :: d1 ++ d2). split.
    + rewrite Hd2, Hd1, Hr3. by rewrite <- !app_assoc.
    + assert (jobQueue s' !! i = Some j) as Hj'.
      { eapply prefix_lookup_Some; [exact Hj | by etrans]. }
      rewrite (drop_S _ _ _ Hj'), !runs_of_cons, runs_of_app.
      rewrite (runs_of_notin _ _ Hn1). by rewrite Hc2.
  - injection Hrun as <-. split; [done|]. split; [done|].
    exists []. split; [by rewrite app_nil_r|].
    rewrite drop_ge; [done|]. by apply lookup_ge_None.
Qed.

Lemma schedule_batch_again r s :
  r ∈ jobQueue s -> isFlushing s = true -> schedule_batch r s = s.
Proof.
  intros Hin Hf. unfold schedule_batch, flushJob. simpl. rewrite Hf.
  rewrite set_add_elem by done. by destruct s.
Qed.

Lemma schedule_batch_first r s :
  isFlushing s = false ->
  jobQueue (schedule_batch r s) = set_add r (jobQueue s) /\
  isFlushing (schedule_batch r s) = true /\
  microtasks (schedule_batch r s) = microtasks s ++ [TFlush] /\
  runs (schedule_batch r s) = runs s.
Proof. intros Hf. unfold schedule_batch, flushJob. simpl. by rewrite Hf. Qed.

Lemma schedule_batch_iter r N s :
  1 <= N -> isFlushing s = false ->
  Nat.iter N (schedule_batch r) s = schedule_batch r s.
Proof.
  intros HN Hf. destruct N as [|N]; [lia|]. clear HN.
  induction N as [|N IH]; [done|].
  change (Nat.iter (S (S N)) (schedule_batch r) s)
    with (schedule_batch r (Nat.iter (S N) (schedule_batch r) s)).
  rewrite IH.
  destruct (schedule_batch_first r s Hf) as (Hq & Hfl & _).
  apply schedule_batch_again; [|done].
  rewrite Hq. apply elem_of_set_add. by left.
Qed.

Lemma queue_read t k s :
  jobQueue (track t k (log_read t k s)) = jobQueue s.
Proof.
  unfold track.
  destruct (log_read_frame t k s) as (_ & _ & _ & _ & _ & _ & _ & Hq & _).
  destruct (activeEffect (log_read t k s)); [|done].
  by destruct (set_deps_other n
    (effect_deps
       (with_bucket (deps_add n t k (bucket (log_read t k s)))
          (log_read t k s)) n ++ [(t, k)])
    (with_bucket (deps_add n t k (bucket (log_read t k s))) (log_read t k s)))
    as (_ & _ & -> & _).
Qed.

Lemma fn_read t k s e :
  fn <$> effects (track t k (log_read t k s)) !! e = fn <$> effects s !! e.
Proof.
  destruct (log_read_frame t k s) as (_ & _ & He & _).
  rewrite <- He. unfold track.
  destruct (activeEffect (log_read t k s)); [|done].
  rewrite effects_set_deps. case_decide as Heq; [|done]. subst.
  simpl. by destruct (effects (log_read t k s) !! n).
Qed.

Lemma exec_reads_only_total sub depth p :
  reads_only p ->
  forall s, exists v s',
    exec sub depth p s = Ok v s' /\ jobQueue s' = jobQueue s /\
    forall e, fn <$> effects s' !! e = fn <$> effects s !! e.
Proof.
  induction p as [v|t k cont IH|t k v cont IH|vs cont IH|c cont IH|w f IHf cont IH];
    simpl; try done.
  - intros _ s. by exists v, s.
  - intros Hro s.
    destruct (IH _ (Hro (read_prop (track t k (log_read t k s)) t k))
                (track t k (log_read t k s)))
      as (v & s' & -> & Hq & Hf).
    exists v, s'. split; [done|]. split.
    + rewrite Hq.
      apply queue_read.
    + intros e. rewrite Hf. apply (fn_read t k s).
  - intros Hro s.
    destruct (IH Hro (with_console (console s ++ [vs]) s))
      as (v & s' & -> & Hq & Hf).
    by exists v, s'.
Qed.

Lemma effectFn_reads_only_total fuel e s :
  all_reads_only s ->
  exists v s', effectFn (run (S fuel)) e s = Ok v s' /\
               jobQueue s' = jobQueue s /\ all_reads_only s'.
Proof.
  intros Hall. unfold effectFn.
  set (s3 := with_runs _ _).
  assert (forall e', fn <$> effects s3 !! e' = fn <$> effects s !! e') as Hf3.
  { intros e'. subst s3. simpl. rewrite effects_cleanup.
    case_decide as Heq; [|done]. subst. by destruct (effects s !! e). }
  assert (jobQueue s3 = jobQueue s) as Hq3.
  { subst s3. simpl. unfold cleanup. by destruct (set_deps_other e []
      (with_bucket (foldl (deps_delete e) (bucket s) (effect_deps s e)) s))
      as (_ & _ & -> & _). }
  clearbody s3.
  assert (reads_only (effect_fn s3 e)) as Hro.
  { unfold effect_fn. specialize (Hf3 e).
    destruct (effects s3 !! e) as [ef3|]; [|done].
    destruct (effects s !! e) as [ef|] eqn:He; [|done].
    simpl in *. injection Hf3 as ->. by eapply Hall. }
  change (run (S fuel) ?p ?s0) with (exec (run fuel) fuel p s0).
  destruct (exec_reads_only_total (run fuel) fuel _ Hro s3)
    as (v & s4 & -> & Hq4 & Hf4).
  cbn [bind]. do 2 eexists. split; [reflexivity|]. split.
  - simpl. by rewrite Hq4.
  - intros e' ef' He'. simpl in He'.
    specialize (Hf4 e'). specialize (Hf3 e'). rewrite He' in Hf4.
    rewrite Hf3 in Hf4. destruct (effects s !! e') as [ef0|] eqn:H0; [|done].
    simpl in Hf4. injection Hf4 as ->. by eapply Hall.
Qed.

Lemma flush_from_total fuel n : forall i s,
  all_reads_only s -> length (jobQueue s) < S n + i ->
  exists s', flush_from (S n) (S fuel) i s = Ok tt s'.
Proof.
  induction n as [|n IH]; intros i s Hall Hlen; cbn [flush_from].
  - rewrite (proj2 (lookup_ge_None (jobQueue s) i)) by lia. by eexists.
  - destruct (jobQueue s !! i) as [j|] eqn:Hj; [|by eexists].
    destruct (effectFn_reads_only_total fuel j s Hall)
      as (v & s1 & -> & Hq & Hall1).
    cbn [bind]. apply IH; [done|]. rewrite Hq. lia.
Qed.

(** C3.  From a state with no flush in progress, scheduling the runner [r]
    [N >= 1] times with the batching scheduler is the same as scheduling it
    once: one flush is queued and [r] is in [jobQueue] once.  A further
    [flushJob] while that flush is pending changes nothing.  The flush runs
    [r] exactly once, whatever the other jobs do; and it completes when all
    bodies only read. *)
Theorem batching_idempotence (s : State) (r N : nat) :
  1 <= N ->
  isFlushing s = false ->
  NoDup (jobQueue s) ->
  batched r s ->
  let s' := Nat.iter N (schedule_batch r) s in
  s' = schedule_batch r s /\
  microtasks s' = microtasks s ++ [TFlush] /\
  jobQueue s' = set_add r (jobQueue s) /\
  flushJob s' = s' /\
  (forall n fuel s'',
     run_task n fuel TFlush s' = Ok tt s'' ->
     exists d, runs s'' = runs s' ++ d /\ runs_of r d = 1) /\
  (all_reads_only s ->
   forall fuel, exists s'',
     run_task (S (length (jobQueue s'))) (S fuel) TFlush s' = Ok tt s'').
Proof.
  intros HN Hf Hnd Hb s'. subst s'.
  rewrite schedule_batch_iter by done.
  destruct (schedule_batch_first r s Hf) as (Hq & Hfl & Hm & Hr).
  assert (ext r s (schedule_batch r s)) as E by apply ext_schedule_batch.
  assert (batched r (schedule_batch r s)) as Hb' by by eapply batched_ext.
  assert (NoDup (jobQueue (schedule_batch r s))) as Hnd'
    by by apply (ext_nodup _ _ _ E).
  split; [done|]. split; [done|]. split; [done|]. split.
  { unfold flushJob at 1. by rewrite Hfl. }
  split.
  - intros n fuel s'' Hrun. cbn [run_task] in Hrun.
    destruct (flush_from n fuel 0 (schedule_batch r s)) as [[] s1| |] eqn:H1;
      [|done..].
    cbn [bind] in Hrun. injection Hrun as <-.
    destruct (flush_from_runs r _ _ _ _ _ H1 Hb' Hnd')
      as (Hp & Hnd1 & d & Hd & Hc).
    exists d. split; [done|]. rewrite Hc, drop_0.
    apply runs_of_nodup; [done|].
    eapply elem_of_prefix; [|exact Hp].
    rewrite Hq. apply elem_of_set_add. by left.
  - intros Hall fuel. cbn [run_task].
    destruct (flush_from_total fuel (length (jobQueue (schedule_batch r s))) 0
                (schedule_batch r s)) as (s1 & ->); [|lia|by eexists].
    intros e ef He. apply (Hall e ef).
    by unfold schedule_batch, flushJob in He; destruct (isFlushing _).
Qed.

Lemma batching_idempotence_witness :
  let s' := Nat.iter 2 (schedule_batch 0) batch_state in
  s' = schedule_batch 0 batch_state /\
  microtasks s' = microtasks batch_state ++ [TFlush] /\
  jobQueue s' = set_add 0 (jobQueue batch_state) /\
  flushJob s' = s' /\
  (forall n fuel s'',
     run_task n fuel TFlush s' = Ok tt s'' ->
     exists d, runs s'' = runs s' ++ d /\ runs_of 0 d = 1) /\
  (all_reads_only batch_state ->
   forall fuel, exists s'',
     run_task (S (length (jobQueue s'))) (S fuel) TFlush s' = Ok tt s'').
Proof.
  apply (batching_idempotence batch_state 0 2).
  - repeat constructor.
  - reflexivity.
  - simpl. constructor.
  - split; [reflexivity|].
    split; intros i x H; simpl in H; by rewrite lookup_nil in H.
Defined.

(** ** Dependency precision for every body *)

Lemma pres_refl e s : pres e s s.
Proof.
  exists [], []. rewrite !app_nil_r. split; [done|]. split; [done|].
  intros _ t k. split; [by left|]. by intros [?|?%elem_of_nil].
Qed.

Lemma pres_trans e s1 s2 s3 : pres e s1 s2 -> pres e s2 s3 -> pres e s1 s3.
Proof.
  intros (d1 & tr1 & R1 & L1 & H1) (d2 & tr2 & R2 & L2 & H2).
  exists (d1 ++ d2), (tr1 ++ tr2).
  split; [by rewrite R2, R1, app_assoc|].
  split; [by rewrite L2, L1, app_assoc|].
  intros [Hd1 Hd2]%not_elem_of_app t k.
  rewrite (H2 Hd2), (H1 Hd1), elem_of_app. tauto.
Qed.

Lemma pres_frame e s s' :
  bucket s' = bucket s -> runs s' = runs s -> readLog s' = readLog s ->
  pres e s s'.
Proof.
  intros Hb Hr Hl. exists [], []. rewrite !app_nil_r.
  split; [done|]. split; [done|]. intros _ t k.
  unfold subscribers. rewrite Hb. split; [by left|].
  by intros [?|?%elem_of_nil].
Qed.

Lemma set_deps_log e d s : readLog (set_deps e d s) = readLog s.
Proof. unfold set_deps. by destruct (effects s !! e). Qed.

Lemma pres_set_deps e e' d s : pres e s (set_deps e' d s).
Proof.
  destruct (set_deps_frame e' d s) as (_ & Hb & _).
  destruct (set_deps_other e' d s) as (_ & _ & _ & Hr).
  apply pres_frame; [done | done | apply set_deps_log].
Qed.

Lemma pres_read e t k s : pres e s (track t k (log_read t k s)).
Proof.
  exists [].
  destruct (activeEffect s) as [a|] eqn:Ha.
  - exists [(a, t, k)]. split; [|split].
    + rewrite app_nil_r. unfold track, log_read. rewrite Ha. simpl. rewrite Ha.
      by destruct (set_deps_other a
        (effect_deps
           (with_bucket
              (deps_add a t k (bucket s))
              (with_readLog (readLog s ++ [(a, t, k)]) s)) a ++ [(t, k)])
        (with_bucket (deps_add a t k (bucket s))
           (with_readLog (readLog s ++ [(a, t, k)]) s))) as (_ & _ & _ & ->).
    + unfold track, log_read. rewrite Ha. simpl. rewrite Ha.
      by rewrite set_deps_log.
    + intros _ t' k'. rewrite subscribers_read, Ha.
      rewrite list_elem_of_singleton. case_decide as Heq.
      * injection Heq as -> ->. rewrite elem_of_set_add. split.
        -- intros [->|?]; [by right | by left].
        -- intros [?|[= ->]]; [by right | by left].
      * split; [by left|]. intros [?|[= -> -> ->]]; done.
  - exists []. unfold track, log_read. rewrite Ha. simpl. rewrite Ha.
    rewrite !app_nil_r. split; [done|]. split; [done|].
    intros _ t' k'. split; [by left|]. by intros [?|?%elem_of_nil].
Qed.

Lemma cleanup_log e s :
  readLog (cleanup e s) = readLog s /\ runs (cleanup e s) = runs s.
Proof.
  unfold cleanup. rewrite set_deps_log.
  by destruct (set_deps_other e []
    (with_bucket (foldl (deps_delete e) (bucket s) (effect_deps s e)) s))
    as (_ & _ & _ & ->).
Qed.

(** The start of a run of [e']: [cleanup], activation, the ghost record. *)
Lemma pres_enter e e' s :
  let s2 := with_active (Some e') (e' :: effectStack (cleanup e' s))
              (cleanup e' s) in
  pres e s (with_runs (runs s2 ++ [e']) s2).
Proof.
  intros s2. destruct (cleanup_log e' s) as (Hl & Hr).
  exists [e'], []. split; [|split].
  - simpl. by rewrite Hr.
  - simpl. by rewrite Hl, app_nil_r.
  - intros Hne%not_elem_of_cons t k. destruct Hne as [Hne _].
    change (subscribers (with_runs (runs s2 ++ [e']) s2) t k)
      with (subscribers (cleanup e' s) t k).
    rewrite subscribers_cleanup. case_decide.
    + rewrite elem_of_set_delete. split; [intros [_ ?]; by left|].
      intros [?|?%elem_of_nil]; done.
    + split; [by left|]. by intros [?|?%elem_of_nil].
Qed.

Section Pres.
Variable e : nat.
Variable sub : Prog -> State -> result value.
Hypothesis sub_pres : forall p s v s', sub p s = Ok v s' -> pres e s s'.

Lemma effectFn_pres e' s v s' : effectFn sub e' s = Ok v s' -> pres e s s'.
Proof.
  intros Hrun. unfold effectFn in Hrun.
  set (s3 := with_runs _ _) in Hrun.
  assert (pres e s s3) as H3 by apply pres_enter.
  clearbody s3.
  destruct (sub (effect_fn s3 e') s3) as [res s4| |] eqn:Hs; [|done..].
  simpl in Hrun. injection Hrun as <- <-.
  eapply pres_trans; [exact H3|].
  eapply pres_trans; [by eapply sub_pres|]. by apply pres_frame.
Qed.

Lemma job_pres w s s' : job sub w s = Ok tt s' -> pres e s s'.
Proof.
  intros Hrun. unfold job in Hrun.
  destruct (watchers s !! w) as [wr|] eqn:Hw;
    [|injection Hrun as <-; apply pres_refl].
  destruct (effectFn sub (w_effect wr) s) as [nv s1| |] eqn:H1; [|done..].
  assert (pres e s s1) as E1 by by eapply effectFn_pres.
  cbn [bind] in Hrun.
  set (s2 := with_watchers _ s1) in Hrun.
  assert (pres e s s2) as E2.
  { eapply pres_trans; [exact E1|]. by apply pres_frame. }
  clearbody s2.
  destruct (match watchers s2 !! w ≫= w_cleanup with
            | Some c => sub c s2 | None => Ok VUndef s2 end)
    as [u s3| |] eqn:H3; [|done..].
  assert (pres e s2 s3) as E3.
  { destruct (watchers s2 !! w ≫= w_cleanup).
    - by eapply sub_pres.
    - injection H3 as <- <-. apply pres_refl. }
  cbn [bind] in Hrun.
  destruct (sub _ s3) as [u' s4| |] eqn:H4; [|done..].
  cbn [bind] in Hrun. injection Hrun as <-.
  eapply pres_trans; [exact E2|]. eapply pres_trans; [exact E3|].
  eapply pres_trans; [by eapply sub_pres|]. by apply pres_frame.
Qed.

Lemma forEach_pres (f : nat -> State -> result unit) l :
  (forall x s s', f x s = Ok tt s' -> pres e s s') ->
  forall s s', forEach f l s = Ok tt s' -> pres e s s'.
Proof.
  intros Hf. induction l as [|x l IH]; intros s s' Hrun; simpl in Hrun.
  - injection Hrun as <-. apply pres_refl.
  - destruct (f x s) as [[] s1| |] eqn:H1; [|done..]. simpl in Hrun.
    eapply pres_trans; [by eapply Hf|]. by eapply IH.
Qed.

Lemma invoke_pres deeper x s s' :
  (forall t k s s', deeper t k s = Ok tt s' -> pres e s s') ->
  invoke sub deeper x s = Ok tt s' -> pres e s s'.
Proof.
  intros Hdeep Hrun. unfold invoke in Hrun.
  destruct (effect_sched s x) as [[c|w|]|] eqn:Hs.
  - set (s1 := with_cells _ s) in Hrun.
    assert (pres e s s1) as E1 by by apply pres_frame.
    clearbody s1.
    destruct (cells s1 !! c) as [cl|].
    + eapply pres_trans; [exact E1|]. by eapply Hdeep.
    + by injection Hrun as <-.
  - destruct (watchers s !! w) as [wr|];
      [|injection Hrun as <-; apply pres_refl].
    destruct (w_post wr).
    + injection Hrun as <-. by apply pres_frame.
    + by eapply job_pres.
  - injection Hrun as <-. unfold schedule_batch, flushJob. simpl.
    destruct (isFlushing s); by apply pres_frame.
  - destruct (effectFn sub x s) as [v s1| |] eqn:H1; [|done..].
    simpl in Hrun. injection Hrun as <-. by eapply effectFn_pres.
Qed.

Lemma trigger_n_pres n t k s s' :
  trigger_n sub n t k s = Ok tt s' -> pres e s s'.
Proof.
  revert t k s s'. induction n as [|n IH]; intros t k s s' Hrun; [done|].
  cbn [trigger_n] in Hrun. unfold trigger_with in Hrun.
  destruct (effectsToRun t k s) as [l|];
    [|injection Hrun as <-; apply pres_refl].
  eapply forEach_pres; [|exact Hrun].
  intros x s0 s0' H0. eapply invoke_pres; [|exact H0].
  intros t0 k0 s1 s1'. apply IH.
Qed.

Lemma get_value_pres c s v s' : get_value sub c s = Ok v s' -> pres e s s'.
Proof.
  intros Hrun. unfold get_value in Hrun.
  destruct (cells s !! c) as [cl|] eqn:Hc;
    [|injection Hrun as <- <-; apply pres_refl].
  destruct (c_dirty cl).
  - destruct (effectFn sub (c_effect cl) s) as [v1 s1| |] eqn:H1; [|done..].
    cbn [bind] in Hrun. injection Hrun as <- <-.
    eapply pres_trans; [by eapply effectFn_pres|].
    eapply pres_trans; [|apply pres_read]. by apply pres_frame.
  - cbn [bind] in Hrun. injection Hrun as <- <-. apply pres_read.
Qed.

Lemma exec_pres depth p :
  forall s v s', exec sub depth p s = Ok v s' -> pres e s s'.
Proof.
  induction p as [v0|t k cont IH|t k v0 cont IH|vs cont IH|c cont IH
                 |w f IHf cont IH]; intros s v s' Hrun; cbn [exec] in Hrun.
  - injection Hrun as <- <-. apply pres_refl.
  - eapply pres_trans; [apply (pres_read e t k)|]. by eapply IH.
  - destruct (trigger sub depth t k (write_prop t k v0 s)) as [[] s1| |] eqn:H1;
      [|done..].
    cbn [bind] in Hrun.
    eapply pres_trans; [|by eapply IH].
    eapply pres_trans; [|by eapply trigger_n_pres]. by apply pres_frame.
  - eapply pres_trans; [|by eapply IH]. by apply pres_frame.
  - destruct (get_value sub c s) as [v1 s1| |] eqn:H1; [|done..].
    cbn [bind] in Hrun.
    eapply pres_trans; [by eapply get_value_pres|]. by eapply IH.
  - eapply pres_trans; [|by eapply IH]. by apply pres_frame.
Qed.
End Pres.

Lemma run_pres e fuel p s v s' : run fuel p s = Ok v s' -> pres e s s'.
Proof.
  revert p s v s'. induction fuel as [|n IH]; intros p s v s' Hrun; [done|].
  cbn [run] in Hrun. eapply exec_pres; [|exact Hrun]. exact IH.
Qed.

Lemma runs_of_zero r l : runs_of r l = 0 -> r ∉ l.
Proof.
  induction l as [|x l IH]; [intros _; apply not_elem_of_nil|].
  rewrite runs_of_cons. case_decide as Heq; [done|]. simpl.
  intros H. apply not_elem_of_cons. split; [congruence | by apply IH].
Qed.

Lemma log_read_active t k s e :
  activeEffect s = Some e ->
  readLog (track t k (log_read t k s)) = readLog s ++ [(e, t, k)] /\
  runs (track t k (log_read t k s)) = runs s.
Proof.
  intros Ha. unfold track, log_read. rewrite Ha. simpl. rewrite Ha.
  rewrite set_deps_log. simpl. split; [done|].
  by destruct (set_deps_other e
    (effect_deps
       (with_bucket (deps_add e t k (bucket s))
          (with_readLog (readLog s ++ [(e, t, k)]) s)) e ++ [(t, k)])
    (with_bucket (deps_add e t k (bucket s))
       (with_readLog (readLog s ++ [(e, t, k)]) s))) as (_ & _ & _ & ->).
Qed.

(** The ghost histories of a body that only reads. *)
Lemma exec_reads_only_log sub depth p :
  reads_only p ->
  forall s e v s', activeEffect s = Some e ->
    exec sub depth p s = Ok v s' ->
    runs s' = runs s /\
    readLog s' = readLog s ++ ((λ d, (e, d.1, d.2)) <$> reads (heap s) p).
Proof.
  induction p as [v|t k cont IH|t k v cont IH|vs cont IH|c cont IH|w f IHf cont IH];
    simpl; try done.
  - intros _ s e v0 s' _ [= _ <-]. by rewrite app_nil_r.
  - intros Hro s e v s' Ha Hrun.
    destruct (read_frame t k s) as (Hh & Hact & _).
    destruct (log_read_active t k s e Ha) as (Hl & Hr).
    destruct (IH _ (Hro _) _ e _ _ (eq_trans Hact Ha) Hrun) as (Hr' & Hl').
    rewrite Hr', Hr, Hl', Hl, Hh. split; [done|].
    unfold read_prop. rewrite Hh. by rewrite <- app_assoc.
  - intros Hro s e v s' Ha Hrun.
    by destruct (IH Hro (with_console (console s ++ [vs]) s) e _ _ Ha Hrun)
      as (-> & ->).
Qed.



(** The body of the branching effect only reads, and with [a.ok] true it
    reads [a.ok] and [a.text]. *)
Lemma branching_reads :
  reads_only (branching 0) /\
  reads (heap branching_registered) (branching 0)
  = [(0, KStr "ok"); (0, KStr "text")].
Proof.
  split; [|reflexivity]. intros v. simpl. by destruct (truthy v).
Qed.



(* ===================================================================== *)
(** ** Relations kept by every call of the engine *)
(* ===================================================================== *)

Section Through.
Variable R : State -> State -> Prop.
Hypothesis HR : through R.

Let R_refl := thr_refl R HR.
Let R_trans := thr_trans R HR.
Let R_effectFn := thr_effectFn R HR.
Let R_read := thr_read R HR.
Let R_write := thr_write R HR.
Let R_console := thr_console R HR.
Let R_watchers := thr_watchers R HR.
Let R_cells := thr_cells R HR.
Let R_microtasks := thr_microtasks R HR.
Let R_isFlushing := thr_isFlushing R HR.
Let R_jobQueue := thr_jobQueue R HR.

Lemma schedule_batch_through e s : R s (schedule_batch e s).
Proof.
  unfold schedule_batch, flushJob.
  eapply R_trans; [apply (R_jobQueue e)|].
  destruct (isFlushing _); [apply R_refl|].
  eapply R_trans; [apply (R_isFlushing true)|]. apply R_microtasks.
Qed.

Section Sub.
Variable sub : Prog -> State -> result value.
Hypothesis sub_R : forall p s v s', sub p s = Ok v s' -> R s s'.

Lemma job_through w s s' : job sub w s = Ok tt s' -> R s s'.
Proof.
  intros Hrun. unfold job in Hrun.
  destruct (watchers s !! w) as [wr|] eqn:Hw;
    [|injection Hrun as <-; apply R_refl].
  destruct (effectFn sub (w_effect wr) s) as [nv s1| |] eqn:H1; [|done..].
  assert (R s s1) as E1 by by eapply R_effectFn.
  cbn [bind] in Hrun.
  set (s2 := with_watchers _ s1) in Hrun.
  assert (R s1 s2) as E2 by (apply R_watchers; by intros [?????]).
  clearbody s2.
  destruct (match watchers s2 !! w ≫= w_cleanup with
            | Some c => sub c s2 | None => Ok VUndef s2 end)
    as [u s3| |] eqn:H3; [|done..].
  assert (R s2 s3) as E3.
  { destruct (watchers s2 !! w ≫= w_cleanup).
    - by eapply sub_R.
    - injection H3 as <- <-. apply R_refl. }
  cbn [bind] in Hrun.
  destruct (sub _ s3) as [u' s4| |] eqn:H4; [|done..].
  cbn [bind] in Hrun. injection Hrun as <-.
  eapply R_trans; [exact E1|]. eapply R_trans; [exact E2|].
  eapply R_trans; [exact E3|].
  eapply R_trans; [by eapply sub_R|].
  apply R_watchers. by intros [?????].
Qed.

Lemma forEach_through (f : nat -> State -> result unit) l :
  (forall x s s', f x s = Ok tt s' -> R s s') ->
  forall s s', forEach f l s = Ok tt s' -> R s s'.
Proof.
  intros Hf. induction l as [|x l IH]; intros s s' Hrun; simpl in Hrun.
  - injection Hrun as <-. apply R_refl.
  - destruct (f x s) as [[] s1| |] eqn:H1; [|done..]. simpl in Hrun.
    eapply R_trans; [by eapply Hf|]. by eapply IH.
Qed.

Lemma invoke_through deeper x s s' :
  (forall t k s s', deeper t k s = Ok tt s' -> R s s') ->
  invoke sub deeper x s = Ok tt s' -> R s s'.
Proof.
  intros Hdeep Hrun. unfold invoke in Hrun.
  destruct (effect_sched s x) as [[c|w|]|] eqn:Hs.
  - set (s1 := with_cells _ s) in Hrun.
    assert (R s s1) as E1 by (apply R_cells; by intros []).
    clearbody s1.
    destruct (cells s1 !! c) as [cl|].
    + eapply R_trans; [exact E1|]. by eapply Hdeep.
    + by injection Hrun as <-.
  - destruct (watchers s !! w) as [wr|];
      [|injection Hrun as <-; apply R_refl].
    destruct (w_post wr).
    + injection Hrun as <-. apply R_microtasks.
    + by eapply job_through.
  - injection Hrun as <-. apply schedule_batch_through.
  - destruct (effectFn sub x s) as [v s1| |] eqn:H1; [|done..].
    simpl in Hrun. injection Hrun as <-. by eapply R_effectFn.
Qed.

Lemma trigger_n_through n t k s s' :
  trigger_n sub n t k s = Ok tt s' -> R s s'.
Proof.
  revert t k s s'. induction n as [|n IH]; intros t k s s' Hrun; [done|].
  cbn [trigger_n] in Hrun. unfold trigger_with in Hrun.
  destruct (effectsToRun t k s) as [l|];
    [|injection Hrun as <-; apply R_refl].
  eapply forEach_through; [|exact Hrun].
  intros x s0 s0' H0. eapply invoke_through; [|exact H0].
  intros t0 k0 s1 s1'. apply IH.
Qed.

Lemma get_value_through c s v s' : get_value sub c s = Ok v s' -> R s s'.
Proof.
  intros Hrun. unfold get_value in Hrun.
  destruct (cells s !! c) as [cl|] eqn:Hc;
    [|injection Hrun as <- <-; apply R_refl].
  destruct (c_dirty cl).
  - destruct (effectFn sub (c_effect cl) s) as [v1 s1| |] eqn:H1; [|done..].
    cbn [bind] in Hrun. injection Hrun as <- <-.
    eapply R_trans; [by eapply R_effectFn|].
    eapply R_trans; [|apply R_read]. apply R_cells. by intros [].
  - cbn [bind] in Hrun. injection Hrun as <- <-. apply R_read.
Qed.

Lemma exec_through depth p :
  forall s v s', exec sub depth p s = Ok v s' -> R s s'.
Proof.
  induction p as [v0|t k cont IH|t k v0 cont IH|vs cont IH|c cont IH
                 |w f IHf cont IH]; intros s v s' Hrun; cbn [exec] in Hrun.
  - injection Hrun as <- <-. apply R_refl.
  - eapply R_trans; [apply (R_read t k)|]. by eapply IH.
  - destruct (trigger sub depth t k (write_prop t k v0 s)) as [[] s1| |] eqn:H1;
      [|done..].
    cbn [bind] in Hrun.
    eapply R_trans; [|by eapply IH].
    eapply R_trans; [|by eapply trigger_n_through]. apply R_write.
  - eapply R_trans; [|by eapply IH]. apply R_console.
  - destruct (get_value sub c s) as [v1 s1| |] eqn:H1; [|done..].
    cbn [bind] in Hrun.
    eapply R_trans; [by eapply get_value_through|]. by eapply IH.
  - eapply R_trans; [|by eapply IH]. apply R_watchers. by intros [?????].
Qed.
End Sub.

Lemma run_through fuel p s v s' : run fuel p s = Ok v s' -> R s s'.
Proof.
  revert p s v s'. induction fuel as [|n IH]; intros p s v s' Hrun; [done|].
  cbn [run] in Hrun. eapply exec_through; [|exact Hrun]. exact IH.
Qed.

Lemma effectFn_through fuel e s v s' :
  effectFn (run fuel) e s = Ok v s' -> R s s'.
Proof. apply R_effectFn. apply run_through. Qed.

Lemma flush_from_through n fuel : forall i s s',
  flush_from n fuel i s = Ok tt s' -> R s s'.
Proof.
  induction n as [|n IH]; intros i s s' Hrun; [done|].
  cbn [flush_from] in Hrun.
  destruct (jobQueue s !! i) as [j|]; [|injection Hrun as <-; apply R_refl].
  destruct (effectFn (run fuel) j s) as [v s1| |] eqn:H1; [|done..].
  cbn [bind] in Hrun.
  eapply R_trans; [by eapply effectFn_through|]. by eapply IH.
Qed.

Lemma run_task_through n fuel t s s' :
  run_task n fuel t s = Ok tt s' -> R s s'.
Proof.
  destruct t as [| |w]; cbn [run_task]; intros Hrun.
  - destruct (flush_from n fuel 0 s) as [[] s1| |] eqn:H1; [|done..].
    cbn [bind] in Hrun. injection Hrun as <-.
    eapply R_trans; [by eapply flush_from_through|]. apply R_microtasks.
  - injection Hrun as <-. apply R_isFlushing.
  - eapply job_through; [|exact Hrun]. apply run_through.
Qed.

Lemma drain_through n fuel : forall s s',
  drain n fuel s = Ok tt s' -> R s s'.
Proof.
  induction n as [|n IH]; intros s s' Hrun; [done|].
  cbn [drain] in Hrun.
  destruct (microtasks s) as [|t ts] eqn:Hm;
    [injection Hrun as <-; apply R_refl|].
  destruct (run_task (S n) fuel t (with_microtasks ts s)) as [[] s1| |] eqn:H1;
    [|done..].
  cbn [bind] in Hrun.
  eapply R_trans; [apply (R_microtasks ts)|].
  eapply R_trans; [by eapply run_task_through|]. by eapply IH.
Qed.
End Through.

Lemma keeps_refl s : keeps s s.
Proof. by split. Qed.

Lemma keeps_trans s1 s2 s3 : keeps s1 s2 -> keeps s2 s3 -> keeps s1 s3.
Proof.
  intros [H1 A1] [H2 A2]. split; [congruence|].
  intros Hb. rewrite A2, A1; [done..|].
  unfold balanced. rewrite H1, A1; done.
Qed.

Lemma keeps_frame s s' :
  effectStack s' = effectStack s -> activeEffect s' = activeEffect s ->
  keeps s s'.
Proof. by split. Qed.

Lemma keeps_effectFn (sub : Prog -> State -> result value) e s v s' :
  (forall p s0 v0 s0', sub p s0 = Ok v0 s0' -> keeps s0 s0') ->
  effectFn sub e s = Ok v s' -> keeps s s'.
Proof.
  intros Hsub Hrun. unfold effectFn in Hrun.
  destruct (cleanup_frame e s) as (_ & _ & Hst).
  set (s3 := with_runs _ _) in Hrun.
  assert (effectStack s3 = e :: effectStack s) as H3 by (simpl; by rewrite Hst).
  clearbody s3.
  destruct (sub (effect_fn s3 e) s3) as [res s4| |] eqn:Hs; [|done..].
  cbn [bind] in Hrun. injection Hrun as <- <-.
  destruct (Hsub _ _ _ _ Hs) as [H4 _]. rewrite H3 in H4.
  split; simpl; rewrite H4; [done|]. intros Hb. simpl. by rewrite Hb.
Qed.

Lemma keeps_read t k s : keeps s (track t k (log_read t k s)).
Proof. destruct (read_frame t k s) as (_ & ? & ?). by apply keeps_frame. Qed.

Lemma keeps_through : through keeps.
Proof.
  split; [apply keeps_refl | apply keeps_trans | apply keeps_effectFn
         | apply keeps_read | ..]; intros; by apply keeps_frame.
Qed.

(** X1.  From a state whose active effect is the top of the effect stack
    (the initial state is one, and every call leaves one), every call that
    returns leaves the effect stack and the active effect as it found them:
    running user code, calling an effect function, registering an effect or
    a watcher, running the microtasks.  A read made by a body after a write
    that ran other effects is still tracked for the body's own effect. *)
Theorem effect_stack_restored (s : State) :
  balanced s ->
  (forall fuel p v s', run fuel p s = Ok v s' ->
     effectStack s' = effectStack s /\ activeEffect s' = activeEffect s) /\
  (forall fuel e v s', effectFn (run fuel) e s = Ok v s' ->
     effectStack s' = effectStack s /\ activeEffect s' = activeEffect s) /\
  (forall fuel f lz sc e s', effect fuel f lz sc s = Ok e s' ->
     effectStack s' = effectStack s /\ activeEffect s' = activeEffect s) /\
  (forall fuel g cb im post s',
     watch fuel g cb (Some (mkOptions im post)) s = Ok tt s' ->
     effectStack s' = effectStack s /\ activeEffect s' = activeEffect s) /\
  (forall n fuel s', drain n fuel s = Ok tt s' ->
     effectStack s' = effectStack s /\ activeEffect s' = activeEffect s).
Proof.
  intros Hb.
  assert (forall s', keeps s s' ->
    effectStack s' = effectStack s /\ activeEffect s' = activeEffect s) as Hk.
  { intros s' [H1 H2]. split; [done | by apply H2]. }
  split; [|split; [|split; [|split]]].
  - intros fuel p v s' Hrun. apply Hk.
    by eapply (run_through keeps keeps_through).
  - intros fuel e v s' Hrun. apply Hk.
    by eapply (effectFn_through keeps keeps_through).
  - intros fuel f lz sc e s' Hrun. apply Hk. unfold effect in Hrun.
    set (s1 := with_effects _ s) in Hrun.
    assert (keeps s s1) as H1 by by apply keeps_frame.
    clearbody s1. destruct lz.
    + by injection Hrun as <- <-.
    + destruct (effectFn (run fuel) (length (effects s)) s1) as [v s2| |] eqn:H2;
        [|done..].
      cbn [bind] in Hrun. injection Hrun as <- <-.
      eapply keeps_trans; [exact H1|].
      by eapply (effectFn_through keeps keeps_through).
  - intros fuel g cb im post s' Hrun. apply Hk. unfold watch in Hrun.
    set (s2 := with_watchers _ _) in Hrun.
    assert (keeps s s2) as H2 by by apply keeps_frame.
    clearbody s2. destruct im.
    + eapply keeps_trans; [exact H2|].
      eapply (job_through keeps keeps_through); [|exact Hrun].
      apply (run_through keeps keeps_through).
    + destruct (effectFn (run fuel) (length (effects s)) s2) as [v s3| |] eqn:H3;
        [|done..].
      cbn [bind] in Hrun. injection Hrun as <-.
      eapply keeps_trans; [exact H2|].
      eapply keeps_trans; [by eapply (effectFn_through keeps keeps_through)|].
      by apply keeps_frame.
  - intros n fuel s' Hrun. apply Hk.
    by eapply (drain_through keeps keeps_through).
Qed.

Lemma effect_stack_restored_witness :
  (forall fuel p v s', run fuel p counter_state = Ok v s' ->
     effectStack s' = effectStack counter_state /\
     activeEffect s' = activeEffect counter_state) /\
  (forall fuel e v s', effectFn (run fuel) e counter_state = Ok v s' ->
     effectStack s' = effectStack counter_state /\
     activeEffect s' = activeEffect counter_state) /\
  (forall fuel f lz sc e s', effect fuel f lz sc counter_state = Ok e s' ->
     effectStack s' = effectStack counter_state /\
     activeEffect s' = activeEffect counter_state) /\
  (forall fuel g cb im post s',
     watch fuel g cb (Some (mkOptions im post)) counter_state = Ok tt s' ->
     effectStack s' = effectStack counter_state /\
     activeEffect s' = activeEffect counter_state) /\
  (forall n fuel s', drain n fuel counter_state = Ok tt s' ->
     effectStack s' = effectStack counter_state /\
     activeEffect s' = activeEffect counter_state).
Proof. apply (effect_stack_restored counter_state). reflexivity. Defined.

(** ** Watchers are kept *)

Lemma watcher_step_refl wr : watcher_step wr wr.
Proof. by repeat split. Qed.

Lemma watcher_step_trans w1 w2 w3 :
  watcher_step w1 w2 -> watcher_step w2 w3 -> watcher_step w1 w3.
Proof.
  intros (A1 & B1 & C1 & D1) (A2 & B2 & C2 & D2).
  repeat split; [congruence..|]. intros H. by apply D2, D1.
Qed.

Lemma watchers_kept_refl s : watchers_kept s s.
Proof. intros w wr H. exists wr. split; [done | apply watcher_step_refl]. Qed.

Lemma watchers_kept_trans s1 s2 s3 :
  watchers_kept s1 s2 -> watchers_kept s2 s3 -> watchers_kept s1 s3.
Proof.
  intros H1 H2 w wr Hw. destruct (H1 _ _ Hw) as (wr' & Hw' & S1).
  destruct (H2 _ _ Hw') as (wr'' & Hw'' & S2).
  exists wr''. split; [done | by eapply watcher_step_trans].
Qed.

Lemma watchers_kept_frame s s' : watchers s' = watchers s -> watchers_kept s s'.
Proof. intros H w wr Hw. exists wr. rewrite H. split; [done|apply watcher_step_refl]. Qed.

Lemma watchers_kept_through : through watchers_kept.
Proof.
  split; [apply watchers_kept_refl | apply watchers_kept_trans | ..].
  - intros sub e s v s' Hsub Hrun. unfold effectFn in Hrun.
    set (s3 := with_runs _ _) in Hrun.
    assert (watchers_kept s s3) as H3.
    { apply watchers_kept_frame. subst s3. simpl. unfold cleanup.
      by destruct (set_deps_other e []
        (with_bucket (foldl (deps_delete e) (bucket s) (effect_deps s e)) s))
        as (_ & -> & _). }
    clearbody s3.
    destruct (sub (effect_fn s3 e) s3) as [res s4| |] eqn:Hs; [|done..].
    cbn [bind] in Hrun. injection Hrun as <- <-.
    eapply watchers_kept_trans; [exact H3|].
    eapply watchers_kept_trans; [by eapply Hsub|].
    by apply watchers_kept_frame.
  - intros t k s. apply watchers_kept_frame.
    unfold track, log_read. destruct (activeEffect s) as [a|] eqn:Ha; simpl;
      rewrite ?Ha; [|done].
    by destruct (set_deps_other a
      (effect_deps
         (with_bucket (deps_add a t k (bucket s))
            (with_readLog (readLog s ++ [(a, t, k)]) s)) a ++ [(t, k)])
      (with_bucket (deps_add a t k (bucket s))
         (with_readLog (readLog s ++ [(a, t, k)]) s))) as (_ & -> & _).
  - intros. by apply watchers_kept_frame.
  - intros. by apply watchers_kept_frame.
  - intros f w s Hf w0 wr Hw. simpl.
    destruct (decide (w0 = w)) as [->|Hne].
    + exists (f wr). rewrite list_lookup_alter_eq, Hw. split; [done|apply Hf].
    + exists wr. rewrite list_lookup_alter_ne by done.
      split; [done|apply watcher_step_refl].
  - intros. by apply watchers_kept_frame.
  - intros. by apply watchers_kept_frame.
  - intros. by apply watchers_kept_frame.
  - intros. by apply watchers_kept_frame.
Qed.

(** X2.  The variable [cleanup] of a [watch] call is assigned by
    [onInvalidate] and by nothing else: once an invalidation callback is
    registered for a watcher, whatever runs afterwards (user code, jobs, the
    microtasks), the watcher still has one registered, with its callback,
    effect and flush mode unchanged. *)
Theorem invalidation_callback_stays (s : State) (w : nat) (wr : Watcher) :
  watchers s !! w = Some wr ->
  is_Some (w_cleanup wr) ->
  (forall fuel p v s', run fuel p s = Ok v s' ->
     exists wr', watchers s' !! w = Some wr' /\ is_Some (w_cleanup wr') /\
       w_cb wr' = w_cb wr /\ w_effect wr' = w_effect wr /\
       w_post wr' = w_post wr) /\
  (forall fuel w0 s', job (run fuel) w0 s = Ok tt s' ->
     exists wr', watchers s' !! w = Some wr' /\ is_Some (w_cleanup wr') /\
       w_cb wr' = w_cb wr /\ w_effect wr' = w_effect wr /\
       w_post wr' = w_post wr) /\
  (forall n fuel s', drain n fuel s = Ok tt s' ->
     exists wr', watchers s' !! w = Some wr' /\ is_Some (w_cleanup wr') /\
       w_cb wr' = w_cb wr /\ w_effect wr' = w_effect wr /\
       w_post wr' = w_post wr).
Proof.
  intros Hw Hc.
  assert (forall s', watchers_kept s s' ->
    exists wr', watchers s' !! w = Some wr' /\ is_Some (w_cleanup wr') /\
      w_cb wr' = w_cb wr /\ w_effect wr' = w_effect wr /\
      w_post wr' = w_post wr) as Hk.
  { intros s' H. destruct (H _ _ Hw) as (wr' & Hw' & A & B & C & D).
    exists wr'. repeat split; try done. by apply D. }
  split; [|split].
  - intros fuel p v s' Hrun. apply Hk.
    by eapply (run_through watchers_kept watchers_kept_through).
  - intros fuel w0 s' Hrun. apply Hk.
    eapply (job_through watchers_kept watchers_kept_through); [|exact Hrun].
    apply (run_through watchers_kept watchers_kept_through).
  - intros n fuel s' Hrun. apply Hk.
    by eapply (drain_through watchers_kept watchers_kept_through).
Qed.

Lemma invalidation_callback_stays_witness :
  let wr :=
    mkWatcher log_cb 0 VUndef VUndef (Some (Log [VStr "expired"] (Ret VUndef)))
      false in
  (forall fuel p v s', run fuel p invalidation_state = Ok v s' ->
     exists wr', watchers s' !! 0 = Some wr' /\ is_Some (w_cleanup wr') /\
       w_cb wr' = w_cb wr /\ w_effect wr' = w_effect wr /\
       w_post wr' = w_post wr) /\
  (forall fuel w0 s', job (run fuel) w0 invalidation_state = Ok tt s' ->
     exists wr', watchers s' !! 0 = Some wr' /\ is_Some (w_cleanup wr') /\
       w_cb wr' = w_cb wr /\ w_effect wr' = w_effect wr /\
       w_post wr' = w_post wr) /\
  (forall n fuel s', drain n fuel invalidation_state = Ok tt s' ->
     exists wr', watchers s' !! 0 = Some wr' /\ is_Some (w_cleanup wr') /\
       w_cb wr' = w_cb wr /\ w_effect wr' = w_effect wr /\
       w_post wr' = w_post wr).
Proof.
  apply (invalidation_callback_stays invalidation_state 0).
  - reflexivity.
  - by eexists.
Defined.

Lemma quiet_refl s : quiet s s.
Proof. by split. Qed.

Lemma quiet_trans s1 s2 s3 : quiet s1 s2 -> quiet s2 s3 -> quiet s1 s3.
Proof.
  intros [] []. split; congruence.
Qed.

Lemma fn_set_deps e d s e' :
  fn <$> effects (set_deps e d s) !! e' = fn <$> effects s !! e'.
Proof.
  rewrite effects_set_deps. case_decide as Heq; [|done]. subst e'.
  by destruct (effects s !! e).
Qed.

Lemma quiet_set_deps e d s : quiet s (set_deps e d s).
Proof.
  destruct (set_deps_frame e d s) as (? & ? & ? & ?).
  destruct (set_deps_other e d s) as (? & ? & ? & ?).
  split; try done.
  - unfold set_deps. by destruct (effects s !! e).
  - unfold set_deps. by destruct (effects s !! e).
  - apply effect_sched_set_deps.
  - apply fn_set_deps.
Qed.

Lemma quiet_cleanup e s : quiet s (cleanup e s).
Proof.
  unfold cleanup. eapply quiet_trans; [|apply quiet_set_deps]. by split.
Qed.

Lemma quiet_read t k s : quiet s (track t k (log_read t k s)).
Proof.
  unfold track, log_read. destruct (activeEffect s) as [a|] eqn:Ha; simpl;
    rewrite ?Ha; [|apply quiet_refl].
  eapply quiet_trans; [|apply quiet_set_deps]. by split.
Qed.

Lemma console_read t k s : console (track t k (log_read t k s)) = console s.
Proof.
  unfold track, log_read. destruct (activeEffect s) as [a|] eqn:Ha; simpl;
    rewrite ?Ha; [|done].
  unfold set_deps. simpl. by destruct (effects s !! a).
Qed.

Lemma set_add_idemp {A : Type} `{EqDecision A} (x : A) (l : list A) :
  set_add x (set_add x l) = set_add x l.
Proof. apply set_add_elem. apply elem_of_set_add. by left. Qed.

(** A body that only reads, run with [e] active: its value, what it prints
    and what it subscribes. *)
Lemma exec_reads_only_state sub depth p :
  reads_only p ->
  forall s e, activeEffect s = Some e ->
  exists s',
    exec sub depth p s = Ok (returns (heap s) p) s' /\
    quiet s s' /\
    activeEffect s' = Some e /\
    console s' = console s ++ prints (heap s) p /\
    runs s' = runs s /\
    forall t k,
      subscribers s' t k =
      if decide ((t, k) ∈ reads (heap s) p)
      then set_add e (subscribers s t k) else subscribers s t k.
Proof.
  induction p as [v|t k cont IH|t k v cont IH|vs cont IH|c cont IH|w f IHf cont IH];
    simpl; try done.
  - intros _ s e Ha. exists s. split; [done|]. split; [apply quiet_refl|].
    split; [done|]. split; [by rewrite app_nil_r|]. split; [done|].
    done.
  - intros Hro s e Ha.
    set (s1 := track t k (log_read t k s)).
    destruct (read_frame t k s) as (Hh & Hact & _).
    destruct (log_read_active t k s e Ha) as (_ & Hr).
    assert (console s1 = console s) as Hc.
    { subst s1. unfold track, log_read. rewrite Ha. simpl. rewrite Ha.
      unfold set_deps. simpl. by destruct (effects s !! e). }
    destruct (IH _ (Hro (read_prop s1 t k)) s1 e (eq_trans Hact Ha))
      as (s' & Hex & Hq & Ha' & Hcon & Hruns & Hsub).
    fold s1 in Hh. exists s'. unfold read_prop in *. rewrite Hh in *.
    split; [done|]. split; [eapply quiet_trans; [apply quiet_read|done]|].
    split; [done|]. split; [by rewrite Hcon, Hc|].
    split; [by rewrite Hruns|].
    intros t' k'. rewrite Hsub. subst s1. rewrite !subscribers_read, Ha.
    destruct (decide ((t', k') = (t, k))) as [[= -> ->]|Hne].
    + rewrite (decide_True (P := (t, k) ∈ (t, k) :: _)) by left.
      destruct (decide (_ ∈ reads _ _)); [apply set_add_idemp | done].
    + destruct (decide (_ ∈ reads _ _)) as [H1|H1].
      * by rewrite decide_True by by right.
      * rewrite decide_False; [done|].
        intros [?|?]%elem_of_cons; done.
  - intros Hro s e Ha.
    destruct (IH Hro (with_console (console s ++ [vs]) s) e Ha)
      as (s' & Hex & Hq & Ha' & Hcon & Hruns & Hsub).
    exists s'. split; [done|].
    split; [eapply quiet_trans; [|exact Hq]; by split|].
    split; [done|].
    split; [rewrite Hcon; cbn [console with_console]; by rewrite <- app_assoc|].
    done.
Qed.

Lemma console_cleanup e s : console (cleanup e s) = console s.
Proof.
  unfold cleanup, set_deps. simpl. by destruct (effects s !! e).
Qed.

(** A call of an effect function whose body only reads. *)
Lemma effectFn_reads_only_state fuel e ef s :
  effects s !! e = Some ef ->
  reads_only (fn ef) ->
  exists s',
    effectFn (run (S fuel)) e s = Ok (returns (heap s) (fn ef)) s' /\
    quiet s s' /\
    activeEffect s' = head (effectStack s) /\
    console s' = console s ++ prints (heap s) (fn ef) /\
    runs s' = runs s ++ [e] /\
    forall t k,
      subscribers s' t k =
      if decide ((t, k) ∈ reads (heap s) (fn ef))
      then set_add e (subscribers (cleanup e s) t k)
      else subscribers (cleanup e s) t k.
Proof.
  intros He Hro. unfold effectFn.
  destruct (quiet_cleanup e s) as [Qh Qc Qw Qq Qf Qm Qs Qsc Qfn].
  destruct (cleanup_log e s) as (_ & Hr3).
  set (s3 := with_runs _ _).
  assert (effects s3 !! e
          = Some (mkEffectFn (fn ef) (lazy ef) (scheduler ef) [])) as He3.
  { subst s3. simpl. by rewrite effects_cleanup, decide_True, He. }
  unfold effect_fn. rewrite He3.
  cbn [fmap option_fmap option_map default from_option fn id].
  change (run (S fuel) ?p ?s0) with (exec (run fuel) fuel p s0).
  assert (heap s3 = heap s) as Hh3 by (subst s3; exact Qh).
  destruct (exec_reads_only_state (run fuel) fuel (fn ef) Hro s3 e eq_refl)
    as (s4 & -> & [Rh Rc Rw Rq Rf Rm Rs Rsc Rfn] & Ha4 & Hcon & Hruns & Hsub).
  rewrite Hh3 in *.
  cbn [bind]. eexists. split; [reflexivity|].
  assert (effectStack s4 = e :: effectStack s) as Hst4.
  { rewrite Rs. subst s3. simpl. by rewrite Qs. }
  split; [|split; [|split; [|split]]].
  - split; cbn [heap cells watchers jobQueue isFlushing microtasks effectStack
                with_active].
    + by rewrite Rh.
    + rewrite Rc. exact Qc.
    + rewrite Rw. exact Qw.
    + rewrite Rq. exact Qq.
    + rewrite Rf. exact Qf.
    + rewrite Rm. exact Qm.
    + by rewrite Hst4.
    + intros e'. change (effect_sched (with_active _ _ s4) e')
        with (effect_sched s4 e'). rewrite Rsc. apply Qsc.
    + intros e'. cbn [effects with_active]. rewrite Rfn. apply Qfn.
  - cbn [activeEffect with_active]. by rewrite Hst4.
  - cbn [console with_active]. rewrite Hcon. subst s3. simpl.
    by rewrite console_cleanup.
  - cbn [runs with_active]. rewrite Hruns. subst s3. simpl. by rewrite Hr3.
  - intros t k. change (subscribers (with_active _ _ s4) t k)
      with (subscribers s4 t k). rewrite Hsub. by subst s3.
Qed.



(** ** Watchers: registration, scheduling, jobs *)

Lemma bind_unit (r : result unit) : bind r (λ _ s', Ok tt s') = r.
Proof. by destruct r as [[] ?| |]. Qed.

Lemma alter_last {A : Type} (f : A -> A) (l : list A) (x : A) :
  alter f (length l) (l ++ [x]) = l ++ [f x].
Proof. induction l as [|y l IH]; simpl; [done|]. by f_equal. Qed.

(** [watch(getter, cb, options)] without [immediate], for a getter that
    only reads. *)
Lemma watch_registered (s : State) (g : Prog)
    (cb : value -> value -> nat -> Prog) (post : bool) (fuel : nat) :
  reads_only g ->
  let w := length (watchers s) in
  let e := length (effects s) in
  exists s1,
    watch (S fuel) g cb (Some (mkOptions false post)) s = Ok tt s1 /\
    heap s1 = heap s /\
    console s1 = console s ++ prints (heap s) g /\
    microtasks s1 = microtasks s /\
    runs s1 = runs s ++ [e] /\
    watchers s1 =
      watchers s ++ [mkWatcher cb e VUndef (returns (heap s) g) None post] /\
    fn <$> effects s1 !! e = Some g /\
    effect_sched s1 e = Some (SWatch w) /\
    forall t k,
      subscribers s1 t k =
      if decide ((t, k) ∈ reads (heap s) g)
      then set_add e (subscribers s t k) else subscribers s t k.
Proof.
  intros Hro w e. unfold watch. fold w e.
  set (ef := mkEffectFn g true (Some (SWatch w)) []).
  set (s2 := with_watchers _ _).
  assert (effects s2 !! e = Some ef) as He.
  { subst s2 e. simpl. by rewrite lookup_app_r, Nat.sub_diag. }
  destruct (effectFn_reads_only_state fuel e ef s2 He Hro)
    as (s3 & -> & [Rh Rc Rw Rq Rf Rm Rs Rsc Rfn] & Ha & Hcon & Hruns & Hsub).
  cbn [bind fn ef]. eexists. split; [reflexivity|].
  cbn [heap console microtasks runs watchers effects with_watchers].
  split; [done|]. split; [done|]. split; [done|]. split; [done|].
  split.
  { rewrite Rw. subst s2. cbn [watchers with_watchers with_effects].
    subst w. by rewrite alter_last. }
  split; [by rewrite Rfn, He|].
  split.
  { change (effect_sched (with_watchers _ s3) e) with (effect_sched s3 e).
    rewrite Rsc. unfold effect_sched. by rewrite He. }
  intros t k. change (subscribers (with_watchers _ s3) t k)
    with (subscribers s3 t k).
  rewrite Hsub. rewrite subscribers_cleanup.
  assert (effect_deps s2 e = []) as -> by (unfold effect_deps; by rewrite He).
  rewrite (decide_False (P := (t, k) ∈ [])) by apply not_elem_of_nil.
  done.
Qed.

(** [trigger] on a pair whose only subscriber is the effect of a watcher:
    the watcher's scheduler. *)
Lemma trigger_watcher sub n t k e w wr s :
  subscribers s t k = [e] ->
  effect_sched s e = Some (SWatch w) ->
  watchers s !! w = Some wr ->
  trigger_n sub (S n) t k s =
  if w_post wr then Ok tt (with_microtasks (microtasks s ++ [TJob w]) s)
  else job sub w s.
Proof.
  intros Hsub Hs Hw. cbn [trigger_n]. unfold trigger_with.
  rewrite effectsToRun_copy.
  destruct (subscribers_bucket s t k e) as [dm ->]; [rewrite Hsub; left|].
  rewrite Hsub. cbn [forEach]. unfold invoke. rewrite Hs, Hw.
  destruct (w_post wr); [done|]. apply bind_unit.
Qed.

(** A job of a watcher whose getter only reads, whose callback prints its
    arguments and which has no invalidation callback. *)
Lemma job_log (s : State) (w : nat) (wr : Watcher) (g : Prog)
    (fuel : nat) :
  watchers s !! w = Some wr ->
  w_cb wr = log_cb ->
  w_cleanup wr = None ->
  fn <$> effects s !! w_effect wr = Some g ->
  reads_only g ->
  let r := returns (heap s) g in
  exists s',
    job (run (S fuel)) w s = Ok tt s' /\
    heap s' = heap s /\
    microtasks s' = microtasks s /\
    console s' = console s ++ prints (heap s) g ++ [[r; w_oldValue wr]] /\
    watchers s' !! w
    = Some (mkWatcher log_cb (w_effect wr) r r None (w_post wr)) /\
    (forall e, fn <$> effects s' !! e = fn <$> effects s !! e) /\
    runs s' = runs s ++ [w_effect wr].
Proof.
  intros Hw Hcb Hcl He Hro r. unfold job. rewrite Hw.
  destruct (effects s !! w_effect wr) as [ef|] eqn:Hef; [|done].
  injection He as He. subst g.
  destruct (effectFn_reads_only_state fuel _ ef s Hef Hro)
    as (s3 & -> & [Rh Rc Rw Rq Rf Rm Rs Rsc Rfn] & Ha & Hcon & Hruns & _).
  cbn [bind]. fold r. cbn [watchers with_watchers]. rewrite Rw.
  rewrite !(list_lookup_alter_eq _ (watchers s) w), Hw.
  cbn [fmap option_fmap option_map mbind option_bind w_cleanup].
  rewrite Hcl. cbn [bind watchers with_watchers].
  rewrite !(list_lookup_alter_eq _ (watchers s) w), Hw.
  cbn [fmap option_fmap option_map default from_option id w_newValue
       w_oldValue].
  rewrite Hcb. unfold log_cb at 1.
  change (run (S fuel) ?p ?s0) with (exec (run fuel) fuel p s0).
  cbn [exec bind]. eexists. split; [reflexivity|].
  cbn [heap microtasks console watchers effects runs with_watchers
       with_console].
  split; [done|]. split; [done|]. split; [by rewrite Hcon, <- app_assoc|].
  split.
  { rewrite !(list_lookup_alter_eq _ _ w), Hw.
    cbn [fmap option_fmap option_map w_cb w_effect w_newValue w_cleanup w_post].
    by rewrite Hcb, Hcl. }
  split; [done|]. done.
Qed.



(** A job of a watcher whose getter only reads and whose callback is
    [expiring_cb]; [o] is the new value of the previous call, if any. *)
Lemma job_expiring (s : State) (w : nat) (wr : Watcher) (g : Prog)
    (o : option value) (fuel : nat) :
  watchers s !! w = Some wr ->
  w_cb wr = expiring_cb ->
  w_cleanup wr = expired <$> o ->
  fn <$> effects s !! w_effect wr = Some g ->
  reads_only g ->
  let r := returns (heap s) g in
  let e := w_effect wr in
  exists s',
    job (run (S fuel)) w s = Ok tt s' /\
    heap s' = heap s /\
    console s' =
      console s ++ prints (heap s) g ++
      option_list ((λ n, [VStr "expired"; n]) <$> o) ++ [[r; w_oldValue wr]] /\
    watchers s' !! w
    = Some (mkWatcher expiring_cb e r r (Some (expired r)) (w_post wr)) /\
    (forall e', fn <$> effects s' !! e' = fn <$> effects s !! e') /\
    (forall e', effect_sched s' e' = effect_sched s e') /\
    forall t k,
      subscribers s' t k =
      if decide ((t, k) ∈ reads (heap s) g)
      then set_add e (subscribers (cleanup e s) t k)
      else subscribers (cleanup e s) t k.
Proof.
  intros Hw Hcb Hcl He Hro r e. unfold job. rewrite Hw. fold e in He |- *.
  destruct (effects s !! e) as [ef|] eqn:Hef; [|done].
  injection He as He. subst g.
  destruct (effectFn_reads_only_state fuel _ ef s Hef Hro)
    as (s3 & -> & [Rh Rc Rw Rq Rf Rm Rs Rsc Rfn] & Ha & Hcon & Hruns & Hsub).
  cbn [bind]. fold r. cbn [watchers with_watchers]. rewrite Rw.
  rewrite !(list_lookup_alter_eq _ (watchers s) w), Hw.
  cbn [fmap option_fmap option_map mbind option_bind w_cleanup].
  rewrite Hcl.
  assert (exists s4,
    (match expired <$> o with
     | Some c =>
         run (S fuel) c
           (with_watchers
              (alter (λ wr', mkWatcher (w_cb wr') (w_effect wr') r
                               (w_oldValue wr') (w_cleanup wr') (w_post wr'))
                 w (watchers s)) s3)
     | None =>
         Ok VUndef
           (with_watchers
              (alter (λ wr', mkWatcher (w_cb wr') (w_effect wr') r
                               (w_oldValue wr') (w_cleanup wr') (w_post wr'))
                 w (watchers s)) s3)
     end) = Ok VUndef s4 /\
    s4 = with_console
           (console s3 ++ option_list ((λ n, [VStr "expired"; n]) <$> o))
           (with_watchers
              (alter (λ wr', mkWatcher (w_cb wr') (w_effect wr') r
                               (w_oldValue wr') (w_cleanup wr') (w_post wr'))
                 w (watchers s)) s3)) as (s4 & -> & Hs4).
  { destruct o as [n0|]; cbn [fmap option_fmap option_map option_list].
    - eexists. split; reflexivity.
    - eexists. split; [reflexivity|]. rewrite app_nil_r. by destruct s3. }
  cbn [bind]. subst s4. cbn [watchers with_watchers with_console].
  rewrite !(list_lookup_alter_eq _ (watchers s) w), Hw.
  cbn [fmap option_fmap option_map default from_option id w_newValue
       w_oldValue].
  rewrite Hcb. unfold expiring_cb at 1.
  change (run (S fuel) ?p ?s0) with (exec (run fuel) fuel p s0).
  cbn [exec bind]. eexists. split; [reflexivity|].
  cbn [heap console watchers effects with_watchers with_console].
  split; [done|]. split; [by rewrite Hcon, <- !app_assoc|].
  split.
  { rewrite !(list_lookup_alter_eq _ _ w), Hw.
    cbn [fmap option_fmap option_map w_cb w_effect w_newValue w_cleanup w_post].
    by rewrite Hcb. }
  split; [done|]. split; [done|]. done.
Qed.

Lemma set_add_after_cleanup (e : nat) (l : list nat) :
  l = [e] \/ l = [] \/ l = set_delete e [e] -> set_add e l = [e].
Proof.
  assert (set_delete e [e] = []) as Hd.
  { apply elem_of_nil_inv. intros x [Hne Hin]%elem_of_set_delete.
    by apply list_elem_of_singleton in Hin. }
  intros [->|[->| ->]]; rewrite ?Hd; unfold set_add, set_has; [|done..].
  by rewrite bool_decide_eq_true_2 by left.
Qed.



(** ** The job queue *)

Lemma all_reads_only_fn s e : all_reads_only s -> reads_only (effect_fn s e).
Proof.
  intros H. unfold effect_fn. destruct (effects s !! e) as [ef|] eqn:He; [|done].
  by apply (H e).
Qed.

Lemma all_reads_only_quiet s s' :
  quiet s s' -> all_reads_only s -> all_reads_only s'.
Proof.
  intros [_ _ _ _ _ _ _ _ Hfn] H e ef He. specialize (Hfn e).
  rewrite He in Hfn. destruct (effects s !! e) as [ef0|] eqn:He0; [|done].
  injection Hfn as ->. by apply (H e).
Qed.

(** A call of an effect function, registered or not, whose body only
    reads. *)
Lemma effectFn_reads_only_quiet fuel e s :
  reads_only (effect_fn s e) ->
  exists v s',
    effectFn (run (S fuel)) e s = Ok v s' /\
    quiet s s' /\
    runs s' = runs s ++ [e].
Proof.
  intros Hro. destruct (effects s !! e) as [ef|] eqn:He.
  - unfold effect_fn in Hro. rewrite He in Hro.
    destruct (effectFn_reads_only_state fuel e ef s He Hro)
      as (s' & H & Hq & _ & _ & Hr & _).
    by eexists _, s'.
  - unfold effectFn, effect_fn.
    assert (cleanup e s = with_bucket (bucket s) s) as Hcl.
    { unfold cleanup, effect_deps, set_deps. rewrite He. simpl. by rewrite He. }
    rewrite Hcl. cbn [effects with_runs with_active with_bucket]. rewrite He.
    cbn [fmap option_fmap option_map default from_option].
    change (run (S fuel) ?p ?s0) with (exec (run fuel) fuel p s0).
    cbn [exec bind]. do 2 eexists. split; [reflexivity|]. split; [|done].
    by split.
Qed.

Lemma flush_from_reads_only fuel n : forall i s,
  all_reads_only s ->
  length (jobQueue s) < S n + i ->
  exists s',
    flush_from (S n) (S fuel) i s = Ok tt s' /\
    quiet s s' /\
    runs s' = runs s ++ drop i (jobQueue s).
Proof.
  induction n as [|n IH]; intros i s Hall Hlen; cbn [flush_from].
  - destruct (jobQueue s !! i) eqn:Hi.
    { apply lookup_lt_Some in Hi. lia. }
    exists s. split; [done|]. split; [apply quiet_refl|].
    apply lookup_ge_None in Hi. by rewrite drop_ge, app_nil_r.
  - destruct (jobQueue s !! i) as [j|] eqn:Hi.
    + destruct (effectFn_reads_only_quiet fuel j s (all_reads_only_fn s j Hall))
        as (v & s1 & -> & Hq & Hr).
      cbn [bind].
      destruct (IH (S i) s1) as (s' & Hf & Hq' & Hr').
      { by eapply all_reads_only_quiet. }
      { rewrite (q_queue _ _ Hq). lia. }
      exists s'. split; [exact Hf|]. split; [by eapply quiet_trans|].
      rewrite Hr', Hr, (q_queue _ _ Hq), <- app_assoc.
      by rewrite (drop_S _ _ _ Hi).
    + exists s. split; [done|]. split; [apply quiet_refl|].
      apply lookup_ge_None in Hi. by rewrite drop_ge, app_nil_r.
Qed.

Lemma schedule_batch_frame r s :
  effects (schedule_batch r s) = effects s /\
  heap (schedule_batch r s) = heap s.
Proof. unfold schedule_batch, flushJob. simpl. by destruct (isFlushing s). Qed.

(** X6.  Nothing is ever removed from [jobQueue].  With no flush in progress
    and the effect [r] in the queue from an earlier round, scheduling any
    effect [r'] and running the flush runs [r] again, exactly once, and
    leaves every earlier entry in the queue, whatever the effects do; when
    their bodies only read, the flush returns. *)
Theorem job_queue_never_cleared (s : State) (r r' : nat) :
  isFlushing s = false ->
  NoDup (jobQueue s) ->
  batched r s ->
  r ∈ jobQueue s ->
  let s' := schedule_batch r' s in
  microtasks s' = microtasks s ++ [TFlush] /\
  (forall n fuel s'',
     run_task n fuel TFlush s' = Ok tt s'' ->
     jobQueue s `prefix_of` jobQueue s'' /\
     exists d, runs s'' = runs s' ++ d /\ runs_of r d = 1) /\
  (all_reads_only s ->
   forall fuel, exists s'',
     run_task (2 + length (jobQueue s')) (S fuel) TFlush s' = Ok tt s'').
Proof.
  intros Hfl Hnd Hb Hr s'.
  destruct (schedule_batch_first r' s Hfl) as (Hq & _ & Hm & Hruns).
  split; [done|]. split; cycle 1.
  { intros Hall fuel. cbn [run_task].
    destruct (flush_from_reads_only fuel (1 + length (jobQueue s')) 0 s')
      as (s1 & Hf & _); [|lia|].
    - intros e ef He. apply (Hall e ef).
      by rewrite <- (proj1 (schedule_batch_frame r' s)).
    - cbn [Nat.add] in *. rewrite Hf. cbn [bind]. by eexists. }
  intros n fuel s'' Hrun.
  cbn [run_task] in Hrun.
  destruct (flush_from n fuel 0 s') as [[] s1| |] eqn:Hf; [|done..].
  cbn [bind] in Hrun. injection Hrun as <-.
  assert (batched r s') as Hb' by (eapply batched_ext; [apply ext_schedule_batch|done]).
  assert (NoDup (jobQueue s')) as Hnd'.
  { subst s'. rewrite Hq. unfold set_add, set_has. case_bool_decide; [done|].
    apply NoDup_app. split; [done|]. split; [|apply NoDup_singleton].
    intros x Hx ->%list_elem_of_singleton. done. }
  assert (jobQueue s `prefix_of` jobQueue s') as Hpre.
  { subst s'. rewrite Hq. unfold set_add, set_has. case_bool_decide; [done|].
    by apply prefix_app_r. }
  destruct (flush_from_runs r n fuel 0 s' s1 Hf Hb' Hnd')
    as (Hpre1 & Hnd1 & d & Hd & Hcount).
  cbn [jobQueue runs with_microtasks]. split.
  - by etrans.
  - exists d. split; [done|]. rewrite Hcount, drop_0.
    apply runs_of_nodup; [done|].
    destruct Hpre as [l1 H1]. destruct Hpre1 as [l2 H2].
    rewrite H2, H1. apply elem_of_app. left. apply elem_of_app. by left.
Qed.

Lemma job_queue_never_cleared_witness :
  let s' := schedule_batch 0 queued_state in
  microtasks s' = microtasks queued_state ++ [TFlush] /\
  (forall n fuel s'',
     run_task n fuel TFlush s' = Ok tt s'' ->
     jobQueue queued_state `prefix_of` jobQueue s'' /\
     exists d, runs s'' = runs s' ++ d /\ runs_of 0 d = 1) /\
  (all_reads_only queued_state ->
   forall fuel, exists s'',
     run_task (2 + length (jobQueue s')) (S fuel) TFlush s' = Ok tt s'').
Proof.
  apply (job_queue_never_cleared queued_state 0 0).
  - reflexivity.
  - simpl. repeat constructor. by intros ?%elem_of_nil.
  - split; [reflexivity|].
    split; intros i x H; simpl in H; by rewrite lookup_nil in H.
  - simpl. left.
Defined.

(** X7.  The batching scheduler for effects whose bodies only read, with no
    flush in progress and no microtask pending.  Scheduling [r] queues one
    microtask; running the microtasks calls every effect of [jobQueue] once,
    in the order of insertion, then sets [isFlushing] back to [false], and
    leaves the queue as it was. *)
Theorem flush_runs_queue_in_order (s : State) (r fuel : nat) :
  all_reads_only s ->
  isFlushing s = false ->
  microtasks s = [] ->
  let s' := schedule_batch r s in
  jobQueue s' = set_add r (jobQueue s) /\
  isFlushing s' = true /\
  exists s'',
    drain (3 + length (jobQueue s')) (S fuel) s' = Ok tt s'' /\
    runs s'' = runs s ++ jobQueue s' /\
    jobQueue s'' = jobQueue s' /\
    isFlushing s'' = false /\
    microtasks s'' = [] /\
    heap s'' = heap s.
Proof.
  intros Hall Hfl Hm s'. subst s'.
  destruct (schedule_batch_first r s Hfl) as (Hq & Hfl' & Hm' & Hruns).
  destruct (schedule_batch_frame r s) as (He' & Hh').
  set (s' := schedule_batch r s) in *. clearbody s'.
  split; [done|]. split; [done|].
  assert (all_reads_only s') as Hall'.
  { intros e ef He. apply (Hall e ef). by rewrite <- He'. }
  set (s0 := with_microtasks [] s').
  destruct (flush_from_reads_only fuel (2 + length (jobQueue s')) 0 s0)
    as (s1 & Hf & [Rh Rc Rw Rq Rf Rm Rs Rsc Rfn] & Hr1); [done|simpl; lia|].
  eexists. split.
  - cbn [drain Nat.add]. rewrite Hm', Hm. cbn [app run_task].
    fold s0. cbn [Nat.add] in Hf. rewrite Hf.
    cbn [bind microtasks with_microtasks].
    rewrite Rm. cbn [microtasks s0 with_microtasks app run_task bind].
    reflexivity.
  - cbn [runs jobQueue isFlushing microtasks heap with_isFlushing
         with_microtasks].
    rewrite Hr1, drop_0, Rq, Rh. cbn [runs jobQueue heap s0 with_microtasks].
    by rewrite Hruns, Hh'.
Qed.

Lemma flush_runs_queue_in_order_witness :
  let s' := schedule_batch 0 batch_state in
  jobQueue s' = set_add 0 (jobQueue batch_state) /\
  isFlushing s' = true /\
  exists s'',
    drain (3 + length (jobQueue s')) 1 s' = Ok tt s'' /\
    runs s'' = runs batch_state ++ jobQueue s' /\
    jobQueue s'' = jobQueue s' /\
    isFlushing s'' = false /\
    microtasks s'' = [] /\
    heap s'' = heap batch_state.
Proof.
  apply (flush_runs_queue_in_order batch_state 0 0).
  - intros [|e] ef H; simpl in H; [|by rewrite lookup_nil in H].
    injection H as <-. intros v. exact I.
  - reflexivity.
  - reflexivity.
Defined.

Lemma length_filter_mono {A : Type} (P Q : A -> Prop)
    `{forall x, Decision (P x)} `{forall x, Decision (Q x)} (l : list A) :
  (forall x, P x -> Q x) -> length (filter P l) <= length (filter Q l).
Proof.
  intros HPQ. induction l as [|x l IH]; [done|].
  rewrite !filter_cons. destruct (decide (P x)) as [HP|HP].
  - rewrite decide_True by by apply HPQ. simpl. lia.
  - destruct (decide (Q x)); simpl; lia.
Qed.

Lemma length_filter_strict {A : Type} (P Q : A -> Prop)
    `{forall x, Decision (P x)} `{forall x, Decision (Q x)} (l : list A) x0 :
  (forall x, P x -> Q x) -> x0 ∈ l -> Q x0 -> ~ P x0 ->
  length (filter P l) < length (filter Q l).
Proof.
  intros HPQ Hin HQ HP. induction l as [|x l IH]; [by apply elem_of_nil in Hin|].
  rewrite !filter_cons. apply elem_of_cons in Hin as [<-|Hin].
  - rewrite (decide_False (P := P x0)), (decide_True (P := Q x0)) by done.
    simpl. pose proof (length_filter_mono P Q l HPQ). lia.
  - specialize (IH Hin). destruct (decide (P x)) as [HPx|HPx].
    + rewrite decide_True by by apply HPQ. simpl. lia.
    + destruct (decide (Q x)); simpl; lia.
Qed.

Lemma unseen_mono h seen seen' :
  seen ⊆ seen' -> unseen h seen' <= unseen h seen.
Proof.
  intros Hsub. apply length_filter_mono. intros o Ho Hin. apply Ho.
  by apply Hsub.
Qed.

Lemma unseen_add h seen o :
  o < length h -> Raw o ∉ seen ->
  unseen h (set_add (Raw o) seen) < unseen h seen.
Proof.
  intros Ho Hnot. apply (length_filter_strict _ _ _ o).
  - intros x Hx Hin. apply Hx. apply elem_of_set_add. by right.
  - apply elem_of_seq. lia.
  - done.
  - intros H. apply H. apply elem_of_set_add. by left.
Qed.

Lemma set_add_subseteq {A : Type} `{EqDecision A} (x : A) (l : list A) :
  l ⊆ set_add x l.
Proof. intros y Hy. apply elem_of_set_add. by right. Qed.

(** [traverse] on a value: it returns, for every heap, with the state as it
    was. *)
Lemma traverse_value n : forall v seen s,
  unseen (heap s) seen < n ->
  exists r seen',
    traverse n (TValue v) seen s = Ok (r, seen') s /\ seen ⊆ seen'.
Proof.
  induction n as [|n IH]; intros v seen s Hn; [lia|].
  cbn [traverse]. destruct (ident_of (TValue v)) as [i|] eqn:Hi;
    [|by exists None, seen].
  destruct v; try done. injection Hi as <-.
  unfold set_has. case_bool_decide as Hseen; [by exists None, seen|].
  cbn [default]. 
  assert (forall ks seen0,
    (ks = [] \/ unseen (heap s) seen0 < n) ->
    exists seen', traverse_keys (traverse n) (Raw o) ks seen0 s = Ok seen' s /\
                  seen0 ⊆ seen') as Hloop.
  { induction ks as [|k ks IHks]; intros seen0 H0; cbn [traverse_keys member].
    - by exists seen0.
    - destruct H0 as [?|H0]; [done|].
      destruct (IH (read_prop s o k) seen0 s H0) as (r & seen1 & -> & Hsub1).
      cbn [bind snd].
      destruct (IHks seen1) as (seen2 & -> & Hsub2).
      { right. pose proof (unseen_mono (heap s) _ _ Hsub1). lia. }
      exists seen2. split; [done|]. by etrans. }
  destruct (Hloop (for_in_keys (default [] (heap s !! o)))
              (set_add (Raw o) seen)) as (seen' & -> & Hsub).
  { destruct (decide (o < length (heap s))) as [Hlt|Hge].
    - right. pose proof (unseen_add (heap s) seen o Hlt Hseen). lia.
    - left. rewrite lookup_ge_None_2 by lia. done. }
  cbn [bind]. exists (Some (Raw o)), seen'. split; [done|].
  etrans; [apply (set_add_subseteq (Raw o))|done].
Qed.

Lemma unseen_le h seen : unseen h seen <= length h.
Proof.
  unfold unseen. etrans; [apply length_filter|]. by rewrite length_seq.
Qed.

Lemma elem_of_insert_sorted n m l : m ∈ insert_sorted n l <-> m = n \/ m ∈ l.
Proof.
  induction l as [|x l IH]; simpl.
  - rewrite list_elem_of_singleton, elem_of_nil. tauto.
  - case_decide; rewrite !elem_of_cons, ?IH; tauto.
Qed.

Lemma elem_of_sorted m l : m ∈ foldr insert_sorted [] l <-> m ∈ l.
Proof.
  induction l as [|x l IH]; simpl; [done|].
  rewrite elem_of_insert_sorted, IH, elem_of_cons. tauto.
Qed.

(** The keys visited by [for ... in] are the keys of the object that are
    not symbols. *)
Lemma elem_of_for_in_keys k ps :
  k ∈ for_in_keys ps <-> k ∈ ps.*1 /\ forall n, k ≠ KSym n.
Proof.
  unfold for_in_keys. rewrite elem_of_app, list_elem_of_fmap.
  setoid_rewrite elem_of_sorted. setoid_rewrite list_elem_of_omap.
  rewrite list_elem_of_fmap. split.
  - intros [(n & -> & [k' v] & Hin & Hk)|([k' v] & Hin & Hk)]; simpl in Hk.
    + destruct k' as [m|name|m]; try done. injection Hk as ->.
      split; [by exists (KIdx n, v) | done].
    + destruct k' as [m|name|m]; try done. injection Hk as <-.
      split; [by exists (KStr name, v) | done].
  - intros [([k' v] & -> & Hin) Hsym]. simpl in *. destruct k' as [n|name|n].
    + left. exists n. split; [done|]. by exists (KIdx n, v).
    + right. by exists (KStr name, v).
    + by destruct (Hsym n).
Qed.

Lemma subscribers_read_keys t ks : forall s x t' k',
  x ∈ subscribers (foldl (λ s k, track t k (log_read t k s)) s ks) t' k' <->
  x ∈ subscribers s t' k' \/ (activeEffect s = Some x /\ t' = t /\ k' ∈ ks).
Proof.
  induction ks as [|k ks IH]; intros s x t' k'; cbn [foldl].
  - split; [by left|]. intros [?|(_ & _ & ?%elem_of_nil)]; done.
  - rewrite IH. destruct (read_frame t k s) as (_ & -> & _).
    rewrite subscribers_read, elem_of_cons.
    destruct (activeEffect s) as [a|]; [|intuition congruence].
    case_decide as Heq.
    + injection Heq as -> ->. rewrite elem_of_set_add. intuition congruence.
    + intuition congruence.
Qed.

Lemma heap_read_keys t ks : forall s,
  heap (foldl (λ s k, track t k (log_read t k s)) s ks) = heap s.
Proof.
  induction ks as [|k ks IH]; intros s; cbn [foldl]; [done|].
  rewrite IH. by destruct (read_frame t k s) as (-> & _).
Qed.

(** The loop of [traverse] over the keys of a handle. *)
Lemma traverse_keys_handle n t ks : forall seen s,
  unseen (heap s) seen < n ->
  exists seen',
    traverse_keys (traverse n) (Handle t) ks seen s =
    Ok seen' (foldl (λ s k, track t k (log_read t k s)) s ks).
Proof.
  induction ks as [|k ks IH]; intros seen s Hn; cbn [traverse_keys member foldl].
  - by exists seen.
  - set (s1 := track t k (log_read t k s)).
    assert (heap s1 = heap s) as Hh by exact (proj1 (read_frame t k s)).
    destruct (traverse_value n (read_prop s1 t k) seen s1)
      as (r & seen1 & -> & Hsub); [by rewrite Hh|].
    cbn [bind snd]. apply IH. rewrite Hh.
    pose proof (unseen_mono (heap s) _ _ Hsub). lia.
Qed.

(** X8.  [traverse], the getter [watch] builds for a source that is not a
    function.  With fuel above the number of objects it returns, whatever
    the objects, those that refer to themselves included.  On a value (a
    primitive or a raw object) it leaves the state as it was: it subscribes
    nothing.  On the handle of [t] it subscribes the active effect to the
    keys of [t] that are not symbols and to nothing else: the handle answers
    reads with raw objects, so no property of a nested object is
    subscribed. *)
Theorem traverse_shallow (s : State) (fuel : nat) :
  length (heap s) + 2 <= fuel ->
  (forall v seen,
     exists r seen', traverse fuel (TValue v) seen s = Ok (r, seen') s) /\
  (forall t,
     exists seen' s',
       traverse fuel (THandle t) [] s = Ok (Some (Handle t), seen') s' /\
       heap s' = heap s /\
       forall x t' k',
         x ∈ subscribers s' t' k' <->
         x ∈ subscribers s t' k' \/
         (activeEffect s = Some x /\ t' = t /\
          k' ∈ (default [] (heap s !! t)).*1 /\ forall n, k' ≠ KSym n)).
Proof.
  intros Hfuel. split.
  - intros v seen.
    destruct (traverse_value fuel v seen s) as (r & seen' & H & _).
    { pose proof (unseen_le (heap s) seen). lia. }
    by exists r, seen'.
  - intros t. destruct fuel as [|n]; [lia|]. cbn [traverse ident_of].
    unfold set_has. rewrite bool_decide_eq_false_2 by apply not_elem_of_nil.
    destruct (traverse_keys_handle n t
                (for_in_keys (default [] (heap s !! t)))
                (set_add (Handle t) []) s) as (seen' & ->).
    { pose proof (unseen_le (heap s) (set_add (Handle t) [])). lia. }
    cbn [bind]. do 2 eexists. split; [reflexivity|].
    split; [apply heap_read_keys|].
    intros x t' k'. rewrite subscribers_read_keys, elem_of_for_in_keys. tauto.
Qed.

Lemma traverse_shallow_witness :
  (forall v seen,
     exists r seen', traverse 3 (TValue v) seen cyclic_state
                     = Ok (r, seen') cyclic_state) /\
  (forall t,
     exists seen' s',
       traverse 3 (THandle t) [] cyclic_state = Ok (Some (Handle t), seen') s' /\
       heap s' = heap cyclic_state /\
       forall x t' k',
         x ∈ subscribers s' t' k' <->
         x ∈ subscribers cyclic_state t' k' \/
         (activeEffect cyclic_state = Some x /\ t' = t /\
          k' ∈ (default [] (heap cyclic_state !! t)).*1 /\
          forall n, k' ≠ KSym n)).
Proof. apply (traverse_shallow cyclic_state 3). simpl. lia. Defined.

(** ** Computed cells read by effects *)

Lemma effect_deps_cleanup_ne e x s :
  x ≠ e -> effect_deps (cleanup e s) x = effect_deps s x.
Proof.
  intros Hne. unfold effect_deps. rewrite effects_cleanup.
  by rewrite decide_False.
Qed.

(** A read of the value of a dirty cell whose getter only reads, made by
    the effect [a]. *)
Lemma get_value_dirty (s : State) (c : nat) (cl : Cell) (g : Prog) (a : nat)
    (fuel : nat) :
  cells s !! c = Some cl ->
  c_dirty cl = true ->
  fn <$> effects s !! c_effect cl = Some g ->
  reads_only g ->
  activeEffect s = Some a ->
  head (effectStack s) = Some a ->
  let r := returns (heap s) g in
  let ec := c_effect cl in
  exists s',
    get_value (run (S fuel)) c s = Ok r s' /\
    quiet (with_cells (alter (λ cl', mkCell r false (c_effect cl') (c_obj cl'))
                         c (cells s)) s) s' /\
    activeEffect s' = Some a /\
    console s' = console s ++ prints (heap s) g /\
    runs s' = runs s ++ [ec] /\
    forall t k,
      subscribers s' t k =
      let l := if decide ((t, k) ∈ reads (heap s) g)
               then set_add ec (subscribers (cleanup ec s) t k)
               else subscribers (cleanup ec s) t k in
      if decide ((t, k) = (c_obj cl, KStr "value")) then set_add a l else l.
Proof.
  intros Hc Hd He Hro Ha Hst r ec. unfold get_value. rewrite Hc, Hd.
  fold ec in He |- *.
  destruct (effects s !! ec) as [ef|] eqn:Hef; [|done].
  injection He as He. subst g.
  destruct (effectFn_reads_only_state fuel ec ef s Hef Hro)
    as (s1 & -> & [Rh Rc Rw Rq Rf Rm Rs Rsc Rfn] & Ha1 & Hcon & Hruns & Hsub).
  cbn [bind]. fold r.
  set (s2 := with_cells _ s1).
  assert (activeEffect s2 = Some a) as Ha2 by (subst s2; simpl; congruence).
  set (s3 := track (c_obj cl) (KStr "value")
               (log_read (c_obj cl) (KStr "value") s2)).
  assert (cells s3 = cells s2) as Hc3.
  { subst s3. apply (q_cells _ _ (quiet_read _ _ s2)). }
  exists s3. split.
  { f_equal. rewrite Hc3. subst s2. cbn [cells with_cells].
    rewrite list_lookup_alter_eq, Rc, Hc. done. }
  split.
  { eapply quiet_trans; [|apply quiet_read]. subst s2.
    split; cbn [heap cells watchers jobQueue isFlushing microtasks effectStack
                with_cells]; try congruence.
    - intros e. apply Rsc.
    - intros e. apply Rfn. }
  split.
  { subst s3. by rewrite (proj1 (proj2 (read_frame (c_obj cl) (KStr "value") s2))). }
  split.
  { subst s3. rewrite console_read. subst s2. simpl. by rewrite Hcon. }
  split.
  { subst s3.
    rewrite (proj2 (log_read_active (c_obj cl) (KStr "value") s2 a Ha2)).
    subst s2. simpl. by rewrite Hruns. }
  intros t k. subst s3. rewrite subscribers_read, Ha2.
  change (subscribers s2) with (subscribers s1). rewrite !Hsub.
  case_decide as Heq; [|done]. by injection Heq as -> ->.
Qed.

(** A call of the effect function of [effect(() => console.log(c.value))]
    when the cell [c] is dirty. *)
Lemma effectFn_print (s : State) (E c : nat) (cl : Cell) (g : Prog)
    (fuel : nat) :
  fn <$> effects s !! E = Some (print_value c) ->
  cells s !! c = Some cl ->
  c_dirty cl = true ->
  fn <$> effects s !! c_effect cl = Some g ->
  reads_only g ->
  let r := returns (heap s) g in
  let ec := c_effect cl in
  exists s',
    effectFn (run (S (S fuel))) E s = Ok VUndef s' /\
    heap s' = heap s /\
    console s' = console s ++ prints (heap s) g ++ [[r]] /\
    runs s' = runs s ++ [E; ec] /\
    cells s' !! c = Some (mkCell r false ec (c_obj cl)) /\
    (forall e, effect_sched s' e = effect_sched s e) /\
    (forall e, fn <$> effects s' !! e = fn <$> effects s !! e) /\
    forall t k,
      subscribers s' t k =
      let l := if decide ((t, k) ∈ reads (heap s) g)
               then set_add ec (subscribers (cleanup ec (cleanup E s)) t k)
               else subscribers (cleanup ec (cleanup E s)) t k in
      if decide ((t, k) = (c_obj cl, KStr "value")) then set_add E l else l.
Proof.
  intros HE Hc Hd He Hro r ec. unfold effectFn.
  destruct (quiet_cleanup E s) as [Qh Qc Qw Qq Qf Qm Qs Qsc Qfn].
  destruct (cleanup_log E s) as (_ & Hr3).
  set (s3 := with_runs _ _).
  assert (effect_fn s3 E = print_value c) as ->.
  { unfold effect_fn. change (effects s3) with (effects (cleanup E s)).
    by rewrite Qfn, HE. }
  change (run (S (S fuel)) ?p ?s0) with (exec (run (S fuel)) (S fuel) p s0).
  unfold print_value. cbn [exec].
  destruct (get_value_dirty s3 c cl g E fuel)
    as (s4 & -> & [Rh Rc Rw Rq Rf Rm Rs Rsc Rfn] & Ha4 & Hcon & Hruns & Hsub);
    [change (cells s3) with (cells (cleanup E s)); by rewrite Qc
    | done | | done | done | done |].
  { change (effects s3) with (effects (cleanup E s)). by rewrite Qfn. }
  assert (heap s3 = heap s) as Hh3 by exact Qh. rewrite Hh3 in *. fold r in Rc.
  cbn [bind exec]. eexists. split; [reflexivity|].
  cbn [heap console runs cells effects with_active with_console].
  split; [by rewrite Rh|].
  split.
  { rewrite Hcon. change (console s3) with (console (cleanup E s)).
    by rewrite console_cleanup, <- app_assoc. }
  split.
  { rewrite Hruns. change (runs s3) with (runs (cleanup E s) ++ [E]).
    by rewrite Hr3, <- app_assoc. }
  split.
  { rewrite Rc. cbn [cells with_cells]. rewrite list_lookup_alter_eq.
    change (cells s3) with (cells (cleanup E s)). by rewrite Qc, Hc. }
  split.
  { intros e.
    change (effect_sched (with_active _ _ (with_console _ s4)) e)
      with (effect_sched s4 e). rewrite Rsc.
    change (effect_sched (with_cells _ s3) e)
      with (effect_sched (cleanup E s) e). apply Qsc. }
  split.
  { intros e. rewrite Rfn. cbn [effects with_cells].
    change (effects s3) with (effects (cleanup E s)). apply Qfn. }
  intros t k.
  change (subscribers (with_active _ _ (with_console _ s4)) t k)
    with (subscribers s4 t k).
  rewrite Hsub. cbn zeta.
  assert (forall t' k', subscribers (cleanup ec s3) t' k'
                        = subscribers (cleanup ec (cleanup E s)) t' k') as ->.
  { intros t' k'.
    rewrite (subscribers_cleanup ec s3), (subscribers_cleanup ec (cleanup E s)).
    reflexivity. }
  done.
Qed.

Lemma subscribers_fresh_cleanup e s t k :
  effect_deps s e = [] -> subscribers (cleanup e s) t k = subscribers s t k.
Proof.
  intros Hd. rewrite subscribers_cleanup, Hd.
  by rewrite decide_False by apply not_elem_of_nil.
Qed.



(** ** [cleanup], and accesses that involve no effect *)

Lemma deps_delete_keeps e b d t :
  is_Some (b !! t) -> is_Some (deps_delete e b d !! t).
Proof.
  intros Ht. unfold deps_delete. destruct (b !! d.1) as [dm|] eqn:Hd; [|done].
  destruct (map_get d.2 dm); [|done].
  destruct (decide (t = d.1)) as [->|Hne].
  - rewrite lookup_insert_eq. by eexists.
  - by rewrite lookup_insert_ne.
Qed.

Lemma cleanup_fold_keeps e ds : forall b t,
  is_Some (b !! t) -> is_Some (foldl (deps_delete e) b ds !! t).
Proof.
  induction ds as [|d ds IH]; intros b t Ht; cbn [foldl]; [done|].
  apply IH. by apply deps_delete_keeps.
Qed.

(** X10.  [cleanup(effectFn)] removes the effect from the sets its [deps]
    array references and empties the array.  It removes no other effect
    from any set, leaves the [deps] arrays of the other effects as they
    are, and deletes no dependency map: the emptied sets stay in
    [bucket]. *)
Theorem cleanup_only_own (s : State) (e : nat) :
  (forall x t k, x ≠ e ->
     (x ∈ subscribers (cleanup e s) t k <-> x ∈ subscribers s t k)) /\
  (forall t k,
     e ∈ subscribers (cleanup e s) t k <->
     e ∈ subscribers s t k /\ (t, k) ∉ effect_deps s e) /\
  (is_Some (effects s !! e) -> effect_deps (cleanup e s) e = []) /\
  (forall x, x ≠ e -> effect_deps (cleanup e s) x = effect_deps s x) /\
  (forall t, is_Some (bucket s !! t) -> is_Some (bucket (cleanup e s) !! t)).
Proof.
  split; [|split; [|split; [|split]]].
  - intros x t k Hne. rewrite subscribers_cleanup. case_decide; [|done].
    rewrite elem_of_set_delete. tauto.
  - intros t k. rewrite subscribers_cleanup. case_decide.
    + rewrite elem_of_set_delete. tauto.
    + tauto.
  - intros He. unfold cleanup. by apply effect_deps_set_deps.
  - intros x Hne. unfold effect_deps. rewrite effects_cleanup.
    by rewrite decide_False.
  - intros t Ht. unfold cleanup.
    destruct (set_deps_frame e []
      (with_bucket (foldl (deps_delete e) (bucket s) (effect_deps s e)) s))
      as (_ & -> & _).
    cbn [bucket with_bucket]. by apply cleanup_fold_keeps.
Qed.



(* ===================================================================== *)
(** ** Exceptions

    Nothing the programs do throws: an exception comes from a call of
    [watch] without options, and from nowhere else. *)
(* ===================================================================== *)

Lemma bind_no_throw {A B : Type} (r : result A) (f : A -> State -> result B) :
  (forall e s', r ≠ Throw e s') ->
  (forall a s e s', f a s ≠ Throw e s') ->
  forall e s', bind r f ≠ Throw e s'.
Proof.
  intros Hr Hf e s'. destruct r as [a s| |]; cbn [bind]; [apply Hf| |done].
  intros [= <- <-]. by eapply Hr.
Qed.

Section NoThrow.
Variable sub : Prog -> State -> result value.
Hypothesis sub_ok : forall p s e s', sub p s ≠ Throw e s'.

Lemma effectFn_no_throw x s e s' : effectFn sub x s ≠ Throw e s'.
Proof. unfold effectFn. apply bind_no_throw; [intros; apply sub_ok|done]. Qed.

Lemma job_no_throw w s e s' : job sub w s ≠ Throw e s'.
Proof.
  unfold job. destruct (watchers s !! w) as [wr|]; [|done].
  apply bind_no_throw; [intros; apply effectFn_no_throw|]. intros res s1.
  apply bind_no_throw.
  { intros. destruct (_ ≫= w_cleanup); [apply sub_ok|done]. }
  intros _ s3. apply bind_no_throw; [intros; apply sub_ok|done].
Qed.

Lemma forEach_no_throw (f : nat -> State -> result unit) l :
  (forall x s e s', f x s ≠ Throw e s') ->
  forall s e s', forEach f l s ≠ Throw e s'.
Proof.
  intros Hf. induction l as [|x l IH]; intros s; cbn [forEach]; [done|].
  apply bind_no_throw; [intros; apply Hf|]. intros _ s1. apply IH.
Qed.

Lemma invoke_no_throw deeper x s e s' :
  (forall t k s e s', deeper t k s ≠ Throw e s') ->
  invoke sub deeper x s ≠ Throw e s'.
Proof.
  intros Hdeep. unfold invoke.
  destruct (effect_sched s x) as [[c|w|]|]; [| |done|].
  - by destruct (cells _ !! c).
  - destruct (watchers s !! w) as [wr|]; [|done].
    destruct (w_post wr); [done|apply job_no_throw].
  - apply bind_no_throw; [intros; apply effectFn_no_throw|done].
Qed.

Lemma trigger_n_no_throw n : forall t k s e s',
  trigger_n sub n t k s ≠ Throw e s'.
Proof.
  induction n as [|n IH]; intros t k s e s'; [done|].
  cbn [trigger_n]. unfold trigger_with.
  destruct (effectsToRun t k s) as [l|]; [|done].
  apply forEach_no_throw. intros x s0 e0 s0'. by apply invoke_no_throw.
Qed.

Lemma get_value_no_throw c s e s' : get_value sub c s ≠ Throw e s'.
Proof.
  unfold get_value. destruct (cells s !! c) as [cl|]; [|done].
  apply bind_no_throw; [|done]. intros e0 s0.
  destruct (c_dirty cl); [|done].
  apply bind_no_throw; [intros; apply effectFn_no_throw|done].
Qed.

Lemma exec_no_throw depth p : forall s e s', exec sub depth p s ≠ Throw e s'.
Proof.
  induction p as [v0|t k cont IH|t k v0 cont IH|vs cont IH|c cont IH
                 |w f IHf cont IH]; intros s e s'; cbn [exec];
    [done|apply IH| |apply IH| |apply IH].
  - apply bind_no_throw; [intros; apply trigger_n_no_throw|].
    intros _ s1. apply IH.
  - apply bind_no_throw; [intros; apply get_value_no_throw|].
    intros v1 s1. apply IH.
Qed.
End NoThrow.

Lemma run_no_throw fuel : forall p s e s', run fuel p s ≠ Throw e s'.
Proof.
  induction fuel as [|n IH]; intros p s e s'; [done|].
  cbn [run]. by apply exec_no_throw.
Qed.

Lemma flush_from_no_throw n fuel : forall i s e s',
  flush_from n fuel i s ≠ Throw e s'.
Proof.
  induction n as [|n IH]; intros i s e s'; [done|]. cbn [flush_from].
  destruct (jobQueue s !! i) as [j|]; [|done].
  apply bind_no_throw; [|intros _ s1; apply IH].
  intros. apply effectFn_no_throw, run_no_throw.
Qed.

(** User code, effect functions, [effect], [watch] with an options object
    and the microtasks end without an exception; [watch] without options
    ends with a [TypeError]. *)
Lemma throws_only_without_options (s : State) :
  (forall fuel p e s', run fuel p s ≠ Throw e s') /\
  (forall fuel f lz sc e s', effect fuel f lz sc s ≠ Throw e s') /\
  (forall fuel g cb o e s', watch fuel g cb (Some o) s ≠ Throw e s') /\
  (forall n fuel e s', drain n fuel s ≠ Throw e s') /\
  (forall fuel g cb, exists s', watch fuel g cb None s = Throw TypeError s').
Proof.
  split; [intros; apply run_no_throw|]. split; [|split; [|split]].
  - intros fuel f lz sc e s'. unfold effect. destruct lz; [done|].
    apply bind_no_throw; [|done]. intros. apply effectFn_no_throw, run_no_throw.
  - intros fuel g cb o e s'. unfold watch. destruct (immediate o).
    + apply job_no_throw, run_no_throw.
    + apply bind_no_throw; [|done].
      intros. apply effectFn_no_throw, run_no_throw.
  - intros n fuel. revert s. induction n as [|n IH]; intros s e s'; [done|].
    cbn [drain]. destruct (microtasks s) as [|t ts]; [done|].
    apply bind_no_throw; [|intros _ s1; apply IH].
    intros e0 s0. destruct t as [| |w]; cbn [run_task]; [|done|].
    + apply bind_no_throw; [intros; apply flush_from_no_throw|done].
    + apply job_no_throw, run_no_throw.
  - intros fuel g cb. by eexists.
Qed.

End CoreFacts.

(* ===================================================================== *)
(** * Properties of the handlers *)
(* ===================================================================== *)

Module ReactiveFacts.
Import CoreFacts Reactive.

(** ** The wrapper cache *)

Lemma getProxyObj_keeps (obj : nat) (sh ro : bool) (s : State) o h ob :
  reactiveMap s !! o = Some h -> heap s !! h = Some ob ->
  reactiveMap (getProxyObj obj sh ro s).2 !! o = Some h /\
  heap (getProxyObj obj sh ro s).2 !! h = Some ob.
Proof.
  intros Hm Hh. unfold getProxyObj.
  destruct (reactiveMap s !! obj) as [p|] eqn:Hobj; simpl; [done|].
  split.
  - rewrite lookup_insert_ne; [done|]. intros ->. congruence.
  - by apply lookup_app_l_Some.
Qed.

(** C10.  The cache of [getProxyObj] is keyed by the object alone.  When
    [o] has no wrapper yet, [getProxyObj(o, sh1, ro1)] creates the handle
    [h] with these flags and caches it; after any further calls of
    [getProxyObj], [getProxyObj(o, sh2, ro2)] returns [h] and changes
    nothing, whatever [sh2] and [ro2]: [h] still has the flags of the first
    call. *)
Theorem wrapper_cache_ignores_mode (s : State) (o : nat)
    (sh1 ro1 sh2 ro2 : bool) (calls : list (nat * bool * bool)) :
  reactiveMap s !! o = None ->
  let h := (getProxyObj o sh1 ro1 s).1 in
  let st := (getProxyObj o sh1 ro1 s).2 in
  let st' := foldl (λ st c, (getProxyObj c.1.1 c.1.2 c.2 st).2) st calls in
  heap st !! h = Some (OProxy o sh1 ro1) /\
  reactiveMap st !! o = Some h /\
  getProxyObj o sh2 ro2 st' = (h, st') /\
  heap st' !! h = Some (OProxy o sh1 ro1).
Proof.
  intros Hnone h st st'.
  assert (heap st !! h = Some (OProxy o sh1 ro1) /\ reactiveMap st !! o = Some h)
    as [Hh Hm].
  { subst h st. unfold getProxyObj. rewrite Hnone. simpl. split.
    - by rewrite lookup_app_r, Nat.sub_diag.
    - by rewrite lookup_insert_eq. }
  split; [done|]. split; [done|].
  assert (reactiveMap st' !! o = Some h /\ heap st' !! h = Some (OProxy o sh1 ro1))
    as [Hm' Hh'].
  { subst st'. clearbody st h. revert st Hh Hm.
    induction calls as [|c calls IH]; intros st Hh Hm; simpl; [done|].
    destruct (getProxyObj_keeps c.1.1 c.1.2 c.2 st o h _ Hm Hh).
    by apply IH. }
  split; [|done]. unfold getProxyObj. by rewrite Hm'.
Qed.

(** Requesting a read-only wrapper of an object already wrapped mutable
    yields the mutable handle. *)
Lemma wrapper_cache_ignores_mode_witness :
  let h := (getProxyObj 0 false false one_object).1 in
  let st := (getProxyObj 0 false false one_object).2 in
  let st' := foldl (λ st c, (getProxyObj c.1.1 c.1.2 c.2 st).2) st [] in
  heap st !! h = Some (OProxy 0 false false) /\
  reactiveMap st !! 0 = Some h /\
  getProxyObj 0 false true st' = (h, st') /\
  heap st' !! h = Some (OProxy 0 false false).
Proof.
  apply (wrapper_cache_ignores_mode one_object 0 false false false true []).
  reflexivity.
Defined.

(** ** Read-only handles *)

Lemma readonly_set_string_key target k name v receiver s :
  key_to_string k = Some name ->
  set target true k v receiver s =
  Ok (true, None)
    (with_warned (warned s ++ [("属性 " ++ name ++ " 是只读的")%string]) s).
Proof. intros Hk. unfold set, warn_readonly. by rewrite Hk. Qed.

Lemma readonly_delete_string_key target k name s :
  key_to_string k = Some name ->
  deleteProperty target true k s =
  Ok (true, None)
    (with_warned (warned s ++ [("属性 " ++ name ++ " 是只读的")%string]) s).
Proof. intros Hk. unfold deleteProperty, warn_readonly. by rewrite Hk. Qed.

(** C7 (fails on the code).  The claim: on a read-only handle every write
    and every deletion warns, returns [true] and never throws.  The code:
    with a symbol as key, the template literal of the warning throws a
    [TypeError] in both traps, before anything is printed.  (For a string
    key the claim holds: [readonly_set_string_key],
    [readonly_delete_string_key].) *)
Theorem readonly_symbol_key_throws (s : State) (target receiver n : nat)
    (v : value) :
  set target true (KSym n) v receiver s = Throw TypeError s /\
  deleteProperty target true (KSym n) s = Throw TypeError s.
Proof. split; reflexivity. Qed.

(** ** The instrumented search methods *)

Lemma index_loop_number o x ks : forall s v s',
  index_loop o x ks s = Ok v s' -> exists z, v = VNum z.
Proof.
  induction ks as [|k ks IH]; intros s v s' H; simpl in H.
  - injection H as <- _. by eexists.
  - destruct (obj_has o (KIdx k) s) as [present s1| |]; try done.
    simpl in H. destruct present; [|by eapply IH].
    destruct (obj_get o (KIdx k) s1) as [[el|m] s2| |]; try done.
    simpl in H. destruct (strict_eq x el); [|by eapply IH].
    injection H as <- _. by eexists.
Qed.

Lemma originMethod_index_number m o x from s v s' :
  m = IndexOf \/ m = LastIndexOf ->
  originMethod m o x from s = Ok v s' -> exists z, v = VNum z.
Proof.
  intros Hm H. unfold originMethod in H.
  destruct (obj_get o (KStr "length") s) as [[[]|] s1| |]; try done.
  simpl in H.
  destruct Hm as [-> | ->]; case_decide;
    try (injection H as <- _; by eexists); by eapply index_loop_number.
Qed.

(** For [indexOf] and [lastIndexOf] the test [res === false] never holds:
    the instrumented method is the search through [this] alone. *)
Lemma instrumented_index_no_fallback m this x from s :
  m = IndexOf \/ m = LastIndexOf ->
  instrumented m this x from s = originMethod m this x from s.
Proof.
  intros Hm. unfold instrumented.
  destruct (originMethod m this x from s) as [v s1| |] eqn:H; try done.
  destruct (originMethod_index_number _ _ _ _ _ _ _ Hm H) as [z ->]. done.
Qed.

(** C8 (fails on the code).  The claim: each of [includes], [indexOf] and
    [lastIndexOf] searches the raw array again when the search through the
    handle finds nothing, so a raw object stored in the array is found.  The
    code tests [res === false], which only [includes] can answer: for the
    array [[o]] behind a handle, [includes(o)] is [true], while [indexOf(o)]
    and [lastIndexOf(o)] are [-1] although the raw array holds [o] at
    index 0 (the same searches on the raw array answer 0). *)
Theorem index_search_misses_raw_element :
  own (OArray [VObj 0]) (KIdx 0) = Some (VObj 0) /\
  (exists s, call_method 2 (KStr "includes") (VObj 0) None array_of_object
             = Ok (VBool true) s) /\
  (exists s, call_method 2 (KStr "indexOf") (VObj 0) None array_of_object
             = Ok (VNum (-1)) s) /\
  (exists s, call_method 2 (KStr "lastIndexOf") (VObj 0) None array_of_object
             = Ok (VNum (-1)) s) /\
  originMethod IndexOf 1 (VObj 0) None array_of_object
  = Ok (VNum 0) array_of_object /\
  originMethod LastIndexOf 1 (VObj 0) None array_of_object
  = Ok (VNum 0) array_of_object.
Proof.
  split; [reflexivity|].
  split; [eexists; vm_compute; reflexivity|].
  split; [eexists; vm_compute; reflexivity|].
  split; [eexists; vm_compute; reflexivity|].
  split; reflexivity.
Qed.

(** ** The [set] trap *)

(** The test of the [set] trap holds exactly when the two values differ,
    [NaN] counting as equal to itself. *)
Lemma changed_iff (a b : value) : changed a b = true <-> a ≠ b.
Proof.
  unfold changed, strict_eq.
  destruct (decide (a = b)) as [->|Hne].
  - split; [|done]. destruct b; simpl;
      rewrite ?bool_decide_eq_true_2 by done; done.
  - split; [done|]. intros _.
    destruct a, b; simpl; rewrite ?bool_decide_eq_false_2 by done;
      rewrite ?bool_decide_eq_true_2 by done; done.
Qed.

Lemma strict_eq_obj (t : nat) (v : value) :
  strict_eq (VObj t) v = true <-> v = VObj t.
Proof.
  unfold strict_eq. destruct v; simpl; try (split; done);
    rewrite bool_decide_eq_true; split; congruence.
Qed.

Lemma own_put_index i v es : put_index i v es !! i = Some v.
Proof.
  unfold put_index. case_decide.
  - by apply list_lookup_insert_eq.
  - rewrite lookup_app_r by lia. rewrite lookup_app_r; rewrite length_replicate.
    + by replace (i - length es - (i - length es)) with 0 by lia.
    + lia.
Qed.

Lemma length_resize n es : length (resize n es) = n.
Proof. unfold resize. rewrite length_app, length_take, length_replicate. lia. Qed.

Lemma array_length_Done v n :
  array_length v = Done n -> v = VNum (Z.of_nat n).
Proof.
  unfold array_length. destruct v; try done. case_decide; [|done].
  intros [= <-]. f_equal. lia.
Qed.

Lemma define_own_written dest k v s res s' :
  define_own dest k v s = Ok res s' ->
  res = true /\
  (exists ob, heap s' !! dest = Some ob /\ own ob k = Some v) /\
  (forall o', o' ≠ dest -> heap s' !! o' = heap s !! o') /\
  bucket s' = bucket s /\ deps s' = deps s /\ warned s' = warned s /\
  reactiveMap s' = reactiveMap s /\ activeEffect s' = activeEffect s.
Proof.
  unfold define_own. intros H.
  destruct (heap s !! dest) as [[ps|es|]|] eqn:Hd; try done.
  - injection H as <- <-. split; [done|]. split; [|split; [|done]].
    + eexists. simpl. split.
      * apply list_lookup_insert_eq. by eapply lookup_lt_Some.
      * simpl. apply map_get_set_eq.
    + intros o' Hne. simpl. by rewrite list_lookup_insert_ne.
  - destruct k as [i|n|]; try done.
    + injection H as <- <-. split; [done|]. split; [|split; [|done]].
      * eexists. simpl. split.
        -- apply list_lookup_insert_eq. by eapply lookup_lt_Some.
        -- simpl. apply own_put_index.
      * intros o' Hne. simpl. by rewrite list_lookup_insert_ne.
    + case_decide as Hn; [|done]. subst n.
      destruct (array_length v) as [len| |] eqn:Hlen; try done.
      injection H as <- <-. split; [done|]. split; [|split; [|done]].
      * eexists. simpl. split.
        -- apply list_lookup_insert_eq. by eapply lookup_lt_Some.
        -- simpl. rewrite length_resize. by rewrite (array_length_Done _ _ Hlen).
      * intros o' Hne. simpl. by rewrite list_lookup_insert_ne.
Qed.

Lemma Reflect_get_not_proxy o k v :
  Reflect_get o k = Done v -> forall a b c, o ≠ OProxy a b c.
Proof. by intros H a b c ->. Qed.

Lemma Reflect_get_own o k v : own o k = Some v -> Reflect_get o k = Done v.
Proof. intros H. unfold Reflect_get. rewrite H. by destruct o. Qed.

(** A key whose old value can be read does not reach the accessor
    [__proto__]. *)
Lemma Reflect_get_data o k v :
  Reflect_get o k = Done v ->
  bool_decide (k = KStr "__proto__") && bool_decide (own o k = None) = false.
Proof.
  intros H. apply andb_false_iff.
  destruct (decide (k = KStr "__proto__")) as [->|Hne];
    [right | left; by apply bool_decide_eq_false_2].
  apply bool_decide_eq_false_2. intros Hown. unfold Reflect_get in H.
  rewrite Hown in H. by destruct o.
Qed.

(** The [set] trap of a handle that is not read-only, once the old value and
    the type of the operation are known. *)
Lemma set_steps (s : State) (t receiver : nat) (o : Obj) (k : key)
    (v old : value) (ty : TriggerType) :
  heap s !! t = Some o ->
  Reflect_get o k = Done old ->
  classify o k = Done ty ->
  set t false k v receiver s =
  bind (match behind s receiver with
        | Some dest => define_own dest k v s
        | None => Unmodelled
        end) (λ res s1,
    Ok (res,
        if strict_eq (VObj t) (receiver_raw s1 receiver) then
          if changed old v then Some (mkCall t k ty v) else None
        else None) s1).
Proof.
  intros Ho Hg Hc. unfold set. rewrite Ho.
  pose proof (Reflect_get_data o k old Hg) as Hacc.
  destruct o as [ps|es|a b c]; [| |done];
    rewrite Hg, Hc; cbn [lift bind]; unfold Reflect_set; rewrite Ho, Hacc;
    done.
Qed.

(** The type of the operation, on a record and on an array. *)
Lemma classify_record ps k :
  classify (OPlain ps) k
  = Done (if bool_decide (is_Some (map_get k ps)) then SET else ADD).
Proof. done. Qed.

Lemma classify_index es i :
  classify (OArray es) (KIdx i)
  = Done (if decide (i < length es) then SET else ADD).
Proof. done. Qed.

Lemma classify_length es : classify (OArray es) (KStr "length") = Done ADD.
Proof. done. Qed.

(** The array [es] behind its handle. *)
Lemma array_state_heap (es : list value) :
  heap (array_state es) = [OArray es; OProxy 0 false false].
Proof. reflexivity. Qed.

(** C6 (fails on the code).  The claim: every write through a handle that is
    not read-only is performed, and it calls [trigger] exactly when the
    receiver is the handle made for the target and the value differs from the
    old one.  The code: on an array the trap classifies the write with
    [Number(key) < target.length]; with a symbol as key the conversion throws
    a [TypeError], before the write and before any call of [trigger].  For
    the array [es] behind its own handle, any symbol and any value: the
    receiver is the handle made for the target, the old value is
    [undefined], and the trap throws, the array left as it was.  (On a
    record, and on an array at an index or at [length], the trap does what
    the claim says: [set_notifies], [set_other_receiver].) *)
Theorem set_symbol_key_on_array_throws (es : list value) (n : nat)
    (v : value) :
  heap (array_state es) !! 0 = Some (OArray es) /\
  heap (array_state es) !! 1 = Some (OProxy 0 false false) /\
  receiver_raw (array_state es) 1 = VObj 0 /\
  Reflect_get (OArray es) (KSym n) = Done VUndef /\
  set 0 false (KSym n) v 1 (array_state es)
  = Throw TypeError (array_state es).
Proof. repeat split; reflexivity. Qed.

(** On an array the classification converts the key to a number; with a
    symbol as key the conversion throws, before anything is written. *)
Lemma set_array_symbol_key_throws (s : State) (target receiver n : nat)
    (v : value) (es : list value) :
  heap s !! target = Some (OArray es) ->
  set target false (KSym n) v receiver s = Throw TypeError s.
Proof. intros Ho. unfold set. by rewrite Ho. Qed.

(** A write of [v] to key [k] through the handle [p] made for [t], not
    read-only, [old] being what a read of the key on the target answers
    before the write.  When the trap returns it answers [true], the key is
    an own property of the target with value [v], the dependency store and
    the console are untouched, and [trigger] is called exactly when [v]
    differs from [old] ([NaN] counting as equal to itself), with the target,
    the key, the classified type and [v].  The trap does return on a record,
    and on an array at an index or at [length] with a valid length. *)
Theorem set_notifies (s : State) (t p : nat) (o : Obj) (sh : bool) (k : key)
    (v old : value) :
  heap s !! t = Some o ->
  heap s !! p = Some (OProxy t sh false) ->
  Reflect_get o k = Done old ->
  (forall res call s',
     set t false k v p s = Ok (res, call) s' ->
     res = true /\
     (is_Some call <-> v ≠ old) /\
     (forall c, call = Some c ->
        tc_target c = t /\ tc_key c = k /\ tc_newValue c = v /\
        classify o k = Done (tc_type c)) /\
     (exists ob, heap s' !! t = Some ob /\ own ob k = Some v) /\
     bucket s' = bucket s /\ deps s' = deps s /\ warned s' = warned s) /\
  ((exists ps, o = OPlain ps) \/
   (exists es, o = OArray es /\ array_write k v) ->
   exists call s', set t false k v p s = Ok (true, call) s').
Proof.
  intros Ho Hp Hg.
  assert (p ≠ t) as Hpt.
  { intros ->. rewrite Ho in Hp. injection Hp as ->.
    by eapply Reflect_get_not_proxy. }
  assert (behind s p = Some t) as Hb by (unfold behind; by rewrite Hp).
  split.
  - intros res call s' Hset.
    destruct (classify o k) as [ty| |] eqn:Hty.
    2,3: unfold set in Hset; rewrite Ho in Hset;
      destruct o; try done; by rewrite Hg, Hty in Hset.
    rewrite (set_steps s t p o k v old ty Ho Hg Hty), Hb in Hset.
    destruct (define_own t k v s) as [r s1| |] eqn:Hdef; try done.
    cbn [bind] in Hset.
    destruct (define_own_written _ _ _ _ _ _ Hdef)
      as (-> & Hwr & Hother & Hbk & Hdp & Hwa & _).
    assert (receiver_raw s1 p = VObj t) as Hraw.
    { unfold receiver_raw. by rewrite (Hother p Hpt), Hp. }
    rewrite Hraw in Hset.
    assert (strict_eq (VObj t) (VObj t) = true) as Heq by by apply strict_eq_obj.
    rewrite Heq in Hset.
    destruct (changed old v) eqn:Hch; injection Hset as <- <- <-.
    + apply changed_iff in Hch.
      split; [done|]. split; [split; [congruence | by eexists]|].
      split; [by intros c [= <-]|]. done.
    + split; [done|]. split.
      { split; [by intros [? ?]|]. intros Hne.
        assert (changed old v = true) by (apply changed_iff; congruence).
        congruence. }
      split; [by intros c [=]|]. done.
  - intros Hkind.
    assert (exists ty, classify o k = Done ty /\
                       exists s1, define_own t k v s = Ok true s1)
      as (ty & Hty & s1 & Hdef).
    { unfold define_own. rewrite Ho.
      destruct Hkind as [[ps ->]|(es & -> & Hw)].
      - eexists. split; [apply classify_record|]. by eexists.
      - destruct k as [i|n|]; [| |done].
        + eexists. split; [apply classify_index|]. by eexists.
        + destruct Hw as (-> & z & -> & Hz).
          eexists. split; [apply classify_length|].
          rewrite decide_True by done. unfold array_length.
          rewrite decide_True by done. by eexists. }
    rewrite (set_steps s t p o k v old ty Ho Hg Hty), Hb, Hdef.
    cbn [bind]. by do 2 eexists.
Qed.

(** The trap of the handle made for [t] called with the handle of another
    object as receiver, which is how a write made to that handle arrives
    when it climbs to [t]: the property is written on the object behind the
    receiver and [trigger] is not called. *)
Lemma set_other_receiver (s : State) (t r rt : nat) (o : Obj) (sh ro : bool)
    (k : key) (v old : value) (res : bool) (call : option TriggerCall)
    (s' : State) :
  heap s !! t = Some o ->
  Reflect_get o k = Done old ->
  heap s !! r = Some (OProxy rt sh ro) ->
  rt ≠ t ->
  set t false k v r s = Ok (res, call) s' ->
  call = None /\ res = true /\
  exists ob, heap s' !! rt = Some ob /\ own ob k = Some v.
Proof.
  intros Ho Hg Hr Hne Hset.
  destruct (classify o k) as [ty| |] eqn:Hty.
  2,3: unfold set in Hset; rewrite Ho in Hset;
    destruct o; try done; by rewrite Hg, Hty in Hset.
  rewrite (set_steps s t r o k v old ty Ho Hg Hty) in Hset.
  unfold behind in Hset. rewrite Hr in Hset.
  destruct (define_own rt k v s) as [b s1| |] eqn:Hdef; try done.
  cbn [bind] in Hset.
  destruct (define_own_written _ _ _ _ _ _ Hdef) as (-> & Hwr & Hother & _).
  assert (r ≠ rt) as Hrrt.
  { intros ->. unfold define_own in Hdef. by rewrite Hr in Hdef. }
  assert (receiver_raw s1 r = VObj rt) as Hraw.
  { unfold receiver_raw. by rewrite (Hother r Hrrt), Hr. }
  rewrite Hraw in Hset.
  assert (strict_eq (VObj t) (VObj rt) = false) as Hf.
  { apply not_true_is_false. intros H%strict_eq_obj. congruence. }
  rewrite Hf in Hset. by injection Hset as <- <- <-.
Qed.

(** Writing [NaN] over [NaN] does not call [trigger]. *)
Lemma set_nan_over_nan :
  changed VNaN VNaN = false /\ changed (VNum 1) VNaN = true.
Proof. split; reflexivity. Qed.

(** ** Writes of [length] *)

Lemma map_get_Some_elem {K V : Type} `{EqDecision K} (k : K) (v : V) m :
  map_get k m = Some v -> (k, v) ∈ m.
Proof.
  induction m as [|[k' v'] m IH]; simpl; [done|].
  case_decide as Heq.
  - intros [= ->]. subst. left.
  - intros H. right. by apply IH.
Qed.

Lemma map_get_elem_NoDup {K V : Type} `{EqDecision K} (k : K) (v : V) m :
  NoDup m.*1 -> (k, v) ∈ m -> map_get k m = Some v.
Proof.
  induction m as [|[k' v'] m IH]; simpl; [by intros _ ?%elem_of_nil|].
  intros Hnd Hin. apply NoDup_cons in Hnd as [Hk' Hnd].
  apply elem_of_cons in Hin as [[= -> ->]|Hin].
  - by rewrite decide_True.
  - rewrite decide_False; [by apply IH|].
    intros ->. apply Hk'. apply list_elem_of_fmap. by exists (k', v).
Qed.

Lemma add_from_length_spec (a : option nat) (z : Z) (dm : DepsMap) :
  (forall k, k ∈ dm.*1 -> named_key k = true) ->
  forall acc, exists l,
    add_from_length a (VNum z) dm acc = Done l /\
    forall x, x ∈ l <->
      x ∈ acc \/
      (Some x ≠ a /\ exists n effs,
         (KIdx n, effs) ∈ dm /\ (z <= Z.of_nat n)%Z /\ x ∈ effs).
Proof.
  induction dm as [|[k effs] dm IH]; intros Hsym acc; simpl.
  - exists acc. split; [done|]. intros x. split; [by left|].
    intros [?|(_ & n & effs & []%elem_of_nil & _)]; done.
  - assert (forall k0, k0 ∈ dm.*1 -> named_key k0 = true) as Hsym'.
    { intros k0 Hk0. apply Hsym. simpl. by right. }
    assert (named_key k = true) as Hk by (apply Hsym; simpl; left).
    destruct k as [n|name|]; [| |done]; unfold key_ge; simpl.
    2: simpl in Hk; rewrite Hk.
    + case_bool_decide as Hz.
      * destruct (IH Hsym' (foldl (add_unless_active a) acc effs))
          as (l & -> & Hl).
        exists l. split; [done|]. intros x. rewrite Hl.
        rewrite elem_of_foldl_guarded_add. split.
        -- intros [[?|[? ?]]|(? & n' & effs' & ? & ? & ?)].
           ++ by left.
           ++ right. split; [done|]. exists n, effs.
              split; [left|done].
           ++ right. split; [done|]. exists n', effs'.
              split; [by right|done].
        -- intros [?|(Ha & n' & effs' & Hin & Hz' & Hx)]; [left; by left|].
           apply elem_of_cons in Hin as [[= -> ->]|Hin].
           ++ left. by right.
           ++ right. split; [done|]. by exists n', effs'.
      * destruct (IH Hsym' acc) as (l & -> & Hl).
        exists l. split; [done|]. intros x. rewrite Hl. split.
        -- intros [?|(? & n' & effs' & ? & ? & ?)]; [by left|].
           right. split; [done|]. exists n', effs'. split; [by right|done].
        -- intros [?|(Ha & n' & effs' & Hin & Hz' & Hx)]; [by left|].
           apply elem_of_cons in Hin as [[= -> ->]|Hin]; [lia|].
           right. split; [done|]. by exists n', effs'.
    + destruct (IH Hsym' acc) as (l & -> & Hl).
      exists l. split; [done|]. intros x. rewrite Hl. split.
      * intros [?|(? & n' & effs' & ? & ? & ?)]; [by left|].
        right. split; [done|]. exists n', effs'. split; [by right|done].
      * intros [?|(Ha & n' & effs' & Hin & Hz' & Hx)]; [by left|].
        apply elem_of_cons in Hin as [[=]|Hin].
        right. split; [done|]. by exists n', effs'.
Qed.

Lemma map_get_fst {K V : Type} `{EqDecision K} (k : K) (v : V) m :
  map_get k m = Some v -> k ∈ m.*1.
Proof.
  intros H%map_get_Some_elem. apply list_elem_of_fmap. by exists (k, v).
Qed.

(** The effects called by [trigger] for a write of [length] on an array:
    the subscribers of [length], and the subscribers, other than the active
    effect, of the indices from the new length on. *)
Lemma trigger_length (s : State) (arr : nat) (es : list value) (dm : DepsMap)
    (ty : TriggerType) (z : Z) :
  heap s !! arr = Some (OArray es) ->
  bucket s !! arr = Some dm ->
  string_keyed dm ->
  exists l,
    trigger (mkCall arr (KStr "length") ty (VNum z)) s = Done l /\
    forall x, x ∈ l <->
      x ∈ subscribers s arr (KStr "length") \/
      (Some x ≠ activeEffect s /\ exists n,
         (z <= Z.of_nat n)%Z /\ x ∈ subscribers s arr (KIdx n)).
Proof.
  intros Harr Hdm [Hnd Hsym]. unfold trigger. cbn [tc_target tc_key tc_type tc_newValue].
  rewrite Hdm, Harr. cbn [isArray andb]. rewrite bool_decide_eq_true_2 by done.
  set (effects := default [] (map_get (KStr "length") dm)).
  assert (subscribers s arr (KStr "length") = effects) as Hlen.
  { unfold subscribers, subs_in. by rewrite Hdm. }
  rewrite (foldl_guarded_add_id _ effects effects) by done.
  destruct (add_from_length_spec (activeEffect s) z dm Hsym effects)
    as (l2 & -> & Hl2).
  assert (map_get ITERATE_KEY dm = None) as Hit.
  { destruct (map_get ITERATE_KEY dm) eqn:H; [|done].
    apply map_get_fst, Hsym in H. done. }
  rewrite Hit. cbn [default foldl].
  assert (forall n x, x ∈ subscribers s arr (KIdx n) <->
                      exists effs, (KIdx n, effs) ∈ dm /\ x ∈ effs) as Hsubs.
  { intros n x. unfold subscribers, subs_in. rewrite Hdm. simpl. split.
    - destruct (map_get (KIdx n) dm) as [effs|] eqn:H; simpl;
        [|by intros ?%elem_of_nil].
      intros Hx. exists effs. split; [by apply map_get_Some_elem|done].
    - intros (effs & Hin & Hx). by rewrite (map_get_elem_NoDup _ _ _ Hnd Hin). }
  assert (forall x, x ∈ l2 <->
      x ∈ effects \/
      (Some x ≠ activeEffect s /\ exists n,
         (z <= Z.of_nat n)%Z /\ x ∈ subscribers s arr (KIdx n))) as Hl2'.
  { intros x. rewrite Hl2. split.
    - intros [?|(Ha & n & effs & Hin & Hz & Hx)]; [by left|].
      right. split; [done|]. exists n. split; [done|].
      apply Hsubs. by exists effs.
    - intros [?|(Ha & n & Hz & Hx)]; [by left|].
      right. split; [done|]. apply Hsubs in Hx as (effs & Hin & Hx).
      by exists n, effs. }
  eexists. split; [reflexivity|]. intros x. rewrite Hlen.
  destruct (bool_decide (ty = ADD)); cbn [orb andb];
    destruct (bool_decide (ty = DELETE)); cbn [orb andb];
    rewrite ?elem_of_foldl_guarded_add, Hl2'; cbn [default];
    split; try tauto.
  all: intros [[?|?]|[? _]]; tauto.
Qed.

Lemma set_length (s : State) (arr proxy : nat) (es : list value) (sh : bool)
    (z : Z) :
  heap s !! arr = Some (OArray es) ->
  heap s !! proxy = Some (OProxy arr sh false) ->
  (0 <= z < 4294967296)%Z ->
  z ≠ Z.of_nat (length es) ->
  set arr false (KStr "length") (VNum z) proxy s =
  Ok (true, Some (mkCall arr (KStr "length") ADD (VNum z)))
    (with_heap (<[arr := OArray (resize (Z.to_nat z) es)]> (heap s)) s).
Proof.
  intros Harr Hproxy Hz Hne.
  rewrite (set_steps s arr proxy (OArray es) (KStr "length") (VNum z)
             (VNum (Z.of_nat (length es))) ADD) by done.
  unfold behind. rewrite Hproxy. unfold define_own. rewrite Harr.
  rewrite decide_True by done. unfold array_length.
  rewrite decide_True by done. cbn [bind].
  assert (proxy ≠ arr) as Hpa by (intros ->; congruence).
  unfold receiver_raw. cbn [heap with_heap].
  rewrite list_lookup_insert_ne by done. rewrite Hproxy.
  assert (strict_eq (VObj arr) (VObj arr) = true) as -> by by apply strict_eq_obj.
  assert (changed (VNum (Z.of_nat (length es))) (VNum z) = true) as ->.
  { apply changed_iff. congruence. }
  done.
Qed.

(** With a symbol among the keys of the dependency map, the loop of
    [trigger] over the map throws at the comparison [key >= newValue]. *)
Lemma add_from_length_symbol (a : option nat) (z : Z) (dm : DepsMap) :
  (forall k, k ∈ dm.*1 -> is_symbol k = true \/ named_key k = true) ->
  (exists n, KSym n ∈ dm.*1) ->
  forall acc, add_from_length a (VNum z) dm acc = Raise TypeError.
Proof.
  induction dm as [|[k effs] dm IH]; intros Hk [n Hn] acc;
    [by apply elem_of_nil in Hn|].
  simpl in Hn. cbn [add_from_length].
  destruct k as [i|name|m]; [| |done]; unfold key_ge; cbn [key_to_number].
  - apply elem_of_cons in Hn as [[=]|Hn].
    assert (add_from_length a (VNum z) dm
              (foldl (add_unless_active a) acc effs) = Raise TypeError /\
            add_from_length a (VNum z) dm acc = Raise TypeError) as [-> ->].
    { split; apply IH; try (by exists n); intros k0 Hk0; apply Hk; simpl;
        by right. }
    by case_bool_decide.
  - destruct (Hk (KStr name)) as [?|Hname]; [simpl; left|done|].
    simpl in Hname. rewrite Hname.
    apply elem_of_cons in Hn as [[=]|Hn].
    apply IH; [|by exists n]. intros k0 Hk0. apply Hk. simpl. by right.
Qed.

Lemma trigger_length_symbol (s : State) (arr : nat) (es : list value)
    (dm : DepsMap) (ty : TriggerType) (z : Z) (n : nat) :
  heap s !! arr = Some (OArray es) ->
  bucket s !! arr = Some dm ->
  (forall k, k ∈ dm.*1 -> is_symbol k = true \/ named_key k = true) ->
  KSym n ∈ dm.*1 ->
  trigger (mkCall arr (KStr "length") ty (VNum z)) s = Raise TypeError.
Proof.
  intros Harr Hdm Hk Hn. unfold trigger.
  cbn [tc_target tc_key tc_type tc_newValue]. rewrite Hdm, Harr.
  cbn [isArray andb]. rewrite bool_decide_eq_true_2 by done.
  rewrite add_from_length_symbol; [done|done|by exists n].
Qed.

(** C5 (fails on the code).  The claim: for every array behind a handle and
    every effect that has read the index [i] below the length, the write
    [length = i] runs the effect again.  The code: for a write of [length],
    [trigger] compares every key of the array's dependency map with the new
    length ([key >= newValue]); the [has] trap subscribes to any key, symbols
    included, and the comparison throws a [TypeError] on a symbol.  Here the
    effect 0 runs [sym in arr; arr[1]] on [arr = getProxyObj([10, 20, 30])];
    the write [arr.length = 1] made after the run cuts the array and then
    throws in [trigger], before any effect is called: the effect, still
    subscribed to index 1, is not run again.  (When the keys of the map are
    indices and names the code does what the claim says:
    [length_write_invalidation].) *)
Theorem length_write_throws_on_symbol_key (n : nat) :
  exists s1 s2 s3 c,
    has 0 (KSym n) array_inside_effect = Ok false s1 /\
    get 0 false false (KIdx 1) s1 = Ok (GotValue (VNum 20)) s2 /\
    0 ∈ subscribers s2 0 (KIdx 1) /\
    set 0 false (KStr "length") (VNum 1) 1 (with_activeEffect None s2)
    = Ok (true, Some c) s3 /\
    heap s3 !! 0 = Some (OArray [VNum 10]) /\
    0 ∈ subscribers s3 0 (KIdx 1) /\
    trigger c s3 = Raise TypeError.
Proof.
  do 4 eexists. split; [reflexivity|]. split; [reflexivity|].
  split; [vm_compute; left|]. split; [reflexivity|].
  split; [reflexivity|]. split; [vm_compute; left|]. reflexivity.
Qed.

(** An array of length [L] behind a handle that is not read-only, an
    effect [e], not the active one, subscribed to the index [i < L], the
    dependency map of the array having one entry per key, all of them
    indices and names.  The write [length = i] through the handle cuts the
    array and calls [trigger], which calls [e] and every subscriber, other
    than the active effect, of an index from [i] on.  The write
    [length = L + 1] extends the array and calls [trigger], which does not
    call [e] when the keys [e] is subscribed to on the array are indices of
    the array. *)
Theorem length_write_invalidation (s : State) (arr proxy : nat)
    (es : list value) (sh : bool) (dm : DepsMap) (e i : nat) :
  heap s !! arr = Some (OArray es) ->
  heap s !! proxy = Some (OProxy arr sh false) ->
  bucket s !! arr = Some dm ->
  string_keyed dm ->
  (Z.of_nat (length es) + 1 < 4294967296)%Z ->
  e ∈ subscribers s arr (KIdx i) ->
  i < length es ->
  activeEffect s ≠ Some e ->
  (exists s' c l,
     set arr false (KStr "length") (VNum (Z.of_nat i)) proxy s
     = Ok (true, Some c) s' /\
     heap s' !! arr = Some (OArray (take i es)) /\
     trigger c s' = Done l /\
     e ∈ l /\
     forall j x, i <= j -> x ∈ subscribers s arr (KIdx j) ->
                 Some x ≠ activeEffect s -> x ∈ l) /\
  ((forall k, e ∈ subscribers s arr k -> exists j, k = KIdx j /\ j <= length es) ->
   exists s' c l,
     set arr false (KStr "length") (VNum (Z.of_nat (length es) + 1)) proxy s
     = Ok (true, Some c) s' /\
     heap s' !! arr = Some (OArray (es ++ [VUndef])) /\
     trigger c s' = Done l /\
     e ∉ l).
Proof.
  intros Harr Hproxy Hdm Hkeys Hmax He Hi Hact.
  assert (arr < length (heap s)) as Hlt by by eapply lookup_lt_Some.
  split.
  - rewrite (set_length s arr proxy es sh (Z.of_nat i)) by (done || lia).
    set (s' := with_heap _ s).
    assert (heap s' !! arr = Some (OArray (take i es))) as Harr'.
    { subst s'. cbn [heap with_heap]. rewrite list_lookup_insert_eq by done.
      unfold resize. rewrite Nat2Z.id.
      replace (i - length es) with 0 by lia. by rewrite app_nil_r. }
    destruct (trigger_length s' arr (take i es) dm ADD (Z.of_nat i) Harr' Hdm Hkeys)
      as (l & Hl & Hspec).
    eexists s', _, l. split; [reflexivity|]. split; [done|]. split; [exact Hl|].
    assert (forall j x, i <= j -> x ∈ subscribers s arr (KIdx j) ->
                        Some x ≠ activeEffect s -> x ∈ l) as Hall.
    { intros j x Hj Hx Ha. apply Hspec. right. split; [done|].
      exists j. split; [lia|done]. }
    split; [|done]. apply (Hall i e); [lia | done | congruence].
  - intros Honly.
    rewrite (set_length s arr proxy es sh (Z.of_nat (length es) + 1))
      by (done || lia).
    set (s' := with_heap _ s).
    assert (heap s' !! arr = Some (OArray (es ++ [VUndef]))) as Harr'.
    { subst s'. cbn [heap with_heap]. rewrite list_lookup_insert_eq by done.
      unfold resize.
      replace (Z.to_nat (Z.of_nat (length es) + 1)) with (S (length es)) by lia.
      rewrite firstn_all2 by lia.
      by replace (S (length es) - length es) with 1 by lia. }
    destruct (trigger_length s' arr _ dm ADD (Z.of_nat (length es) + 1)
                Harr' Hdm Hkeys) as (l & Hl & Hspec).
    eexists s', _, l. split; [reflexivity|]. split; [done|]. split; [exact Hl|].
    intros Hin. apply Hspec in Hin as [Hin|(_ & n & Hn & Hin)].
    + apply Honly in Hin as (j & [=] & _).
    + apply Honly in Hin as (j & [= <-] & Hj). lia.
Qed.

Lemma length_write_invalidation_witness :
  (exists s' c l,
     set 0 false (KStr "length") (VNum (Z.of_nat 1)) 1 array_read_state
     = Ok (true, Some c) s' /\
     heap s' !! 0 = Some (OArray (take 1 [VNum 10; VNum 20; VNum 30])) /\
     trigger c s' = Done l /\
     0 ∈ l /\
     forall j x, 1 <= j -> x ∈ subscribers array_read_state 0 (KIdx j) ->
                 Some x ≠ activeEffect array_read_state -> x ∈ l) /\
  ((forall k, 0 ∈ subscribers array_read_state 0 k ->
              exists j, k = KIdx j /\
                        j <= length [VNum 10; VNum 20; VNum 30]) ->
   exists s' c l,
     set 0 false (KStr "length")
       (VNum (Z.of_nat (length [VNum 10; VNum 20; VNum 30]) + 1)) 1
       array_read_state
     = Ok (true, Some c) s' /\
     heap s' !! 0 =
       Some (OArray ([VNum 10; VNum 20; VNum 30] ++ [VUndef])) /\
     trigger c s' = Done l /\
     (0 ∉ l)).
Proof.
  apply (length_write_invalidation array_read_state 0 1
           [VNum 10; VNum 20; VNum 30] false [(KIdx 1, [0])] 0 1).
  - reflexivity.
  - reflexivity.
  - reflexivity.
  - split.
    + simpl. repeat constructor. by intros ?%elem_of_nil.
    + simpl. intros k ->%list_elem_of_singleton. reflexivity.
  - simpl. lia.
  - vm_compute. left.
  - simpl. lia.
  - discriminate.
Defined.

(* ===================================================================== *)
(** ** The traps, one by one *)
(* ===================================================================== *)

(** The effects called by [trigger] for a key that is not the [length] of
    an array. *)
Lemma trigger_membership (s : State) (c : TriggerCall) (dm : DepsMap) (o : Obj) :
  heap s !! tc_target c = Some o ->
  bucket s !! tc_target c = Some dm ->
  isArray o = false \/ tc_key c ≠ KStr "length" ->
  exists l,
    trigger c s = Done l /\
    forall x, x ∈ l <->
      x ∈ subscribers s (tc_target c) (tc_key c) \/
      (Some x ≠ activeEffect s /\
       ((tc_type c = ADD /\ isArray o = true /\
         x ∈ subscribers s (tc_target c) (KStr "length")) \/
        (tc_type c ≠ SET /\ x ∈ subscribers s (tc_target c) ITERATE_KEY))).
Proof.
  intros Ho Hdm Hkey. unfold trigger. rewrite Hdm, Ho.
  assert (isArray o && bool_decide (tc_key c = KStr "length") = false) as ->.
  { destruct Hkey as [-> | Hne]; [done|].
    rewrite bool_decide_eq_false_2 by done. apply andb_false_r. }
  eexists. split; [reflexivity|]. intros x.
  unfold subscribers, subs_in. rewrite Hdm. cbn [default].
  set (effs := default [] (map_get (tc_key c) dm)).
  rewrite (foldl_guarded_add_id _ effs effs) by done.
  destruct (tc_type c), (isArray o); cbn [bool_decide andb orb];
    repeat (rewrite ?bool_decide_eq_true_2, ?bool_decide_eq_false_2 by done;
            cbn [andb orb]);
    rewrite ?elem_of_foldl_guarded_add; clear; intuition congruence.
Qed.




(** ** What the read traps subscribe *)

Lemma subscribers_track_iff (t : nat) (k : key) (s : State) x t' k' :
  x ∈ subscribers (track t k s) t' k' <->
  x ∈ subscribers s t' k' \/
  (activeEffect s = Some x /\ shouldTrack s = true /\ t' = t /\ k' = k).
Proof.
  unfold track, subscribers.
  destruct (activeEffect s) as [a|]; [|intuition congruence].
  destruct (shouldTrack s); [|intuition congruence].
  cbn [bucket with_store]. rewrite subs_in_deps_add. case_decide as Heq.
  - injection Heq as -> ->. rewrite elem_of_set_add. split.
    + intros [->|?]; [right; done | by left].
    + intros [?|([= ->] & _)]; [by right | by left].
  - split; [by left|]. intros [?|(_ & _ & -> & ->)]; done.
Qed.

Lemma getProxyObj_store r sh ro s :
  bucket (getProxyObj r sh ro s).2 = bucket s /\
  deps (getProxyObj r sh ro s).2 = deps s /\
  activeEffect (getProxyObj r sh ro s).2 = activeEffect s /\
  shouldTrack (getProxyObj r sh ro s).2 = shouldTrack s /\
  warned (getProxyObj r sh ro s).2 = warned s.
Proof. unfold getProxyObj. by destruct (reactiveMap s !! r). Qed.

(** The part of the [get] trap after the tests of [raw] and of the
    instrumented methods. *)
Lemma get_plain (s : State) (t : nat) (o : Obj) (sh ro : bool) (k : key) :
  heap s !! t = Some o ->
  k ≠ KStr "raw" ->
  (isArray o = true -> arrayInstrumentations k = None) ->
  let s1 := if negb ro && negb (is_symbol k) then track t k s else s in
  get t sh ro k s = bind (lift (Reflect_get o k) s1) (answer sh ro).
Proof.
  intros Ho Hraw Hm s1. unfold get. rewrite decide_False by done.
  rewrite Ho. destruct o as [ps|es|a b c]; [done| |done].
  cbn [isArray]. by rewrite Hm.
Qed.

(** A primitive, or any value through a shallow handle, is answered as it
    is; an object through a deep handle is answered by [getProxyObj]. *)
Lemma answer_value (sh ro : bool) (v : value) (s : State) :
  sh = true \/ (forall r, v ≠ VObj r) ->
  answer sh ro v s = Ok (GotValue v) s.
Proof.
  intros H. unfold answer. destruct sh; [done|]. destruct H as [?|H]; [done|].
  destruct v; try done. by destruct (H o).
Qed.

Lemma answer_object (ro : bool) (r : nat) (s : State) :
  answer false ro (VObj r) s
  = Ok (GotValue (VObj (getProxyObj r false ro s).1))
      (getProxyObj r false ro s).2.
Proof. unfold answer. by destruct (getProxyObj _ _ _ _). Qed.

Lemma answer_store (sh ro : bool) (res : value) (s : State) g s' :
  answer sh ro res s = Ok g s' ->
  bucket s' = bucket s /\ deps s' = deps s /\
  activeEffect s' = activeEffect s /\ shouldTrack s' = shouldTrack s.
Proof.
  unfold answer. intros H. destruct sh; [by injection H as _ <-|].
  destruct res; try by injection H as _ <-.
  pose proof (getProxyObj_store o false ro s) as (? & ? & ? & ? & _).
  destruct (getProxyObj o false ro s) as [p s2]. by injection H as _ <-.
Qed.

(** X13.  What the three read traps of the handle made for [t] do to the
    dependency store.  [get] subscribes the active effect to the key read
    when tracking is on, the handle is not read-only and the key is not a
    symbol, and subscribes nothing else; reading [raw] or an instrumented
    array method changes nothing.  [has] subscribes the active effect to the
    key whenever tracking is on: it has no test of the read-only flag or of
    the kind of key.  [ownKeys] subscribes it to [ITERATE_KEY], and to
    [length] when the target is an array. *)
Theorem read_traps_subscribe (s : State) (t : nat) :
  (forall sh ro k v s',
     get t sh ro k s = Ok (GotValue v) s' -> k ≠ KStr "raw" ->
     forall x t' k',
       x ∈ subscribers s' t' k' <->
       x ∈ subscribers s t' k' \/
       (activeEffect s = Some x /\ shouldTrack s = true /\ ro = false /\
        is_symbol k = false /\ t' = t /\ k' = k)) /\
  (forall sh ro, get t sh ro (KStr "raw") s = Ok (GotValue (VObj t)) s) /\
  (forall sh ro k m s', get t sh ro k s = Ok (GotMethod m) s' -> s' = s) /\
  (forall k b s',
     has t k s = Ok b s' ->
     forall x t' k',
       x ∈ subscribers s' t' k' <->
       x ∈ subscribers s t' k' \/
       (activeEffect s = Some x /\ shouldTrack s = true /\ t' = t /\ k' = k)) /\
  (forall ks s',
     ownKeys t s = Ok ks s' ->
     exists o, heap s !! t = Some o /\
     forall x t' k',
       x ∈ subscribers s' t' k' <->
       x ∈ subscribers s t' k' \/
       (activeEffect s = Some x /\ shouldTrack s = true /\ t' = t /\
        k' = if isArray o then KStr "length" else ITERATE_KEY)).
Proof.
  split; [|split; [|split; [|split]]].
  - intros sh ro k v s' Hget Hraw x t' k'.
    destruct (heap s !! t) as [o|] eqn:Ho;
      [|unfold get in Hget; rewrite decide_False, Ho in Hget by done; done].
    destruct (if isArray o then arrayInstrumentations k else None) as [m|]
      eqn:Hm.
    { unfold get in Hget. rewrite decide_False, Ho in Hget by done.
      destruct o; try done; by rewrite Hm in Hget. }
    rewrite (get_plain s t o sh ro k Ho Hraw) in Hget
      by (intros Ha; by rewrite Ha in Hm).
    set (s1 := if negb ro && negb (is_symbol k) then track t k s else s)
      in Hget.
    assert (x ∈ subscribers s1 t' k' <->
            x ∈ subscribers s t' k' \/
            (activeEffect s = Some x /\ shouldTrack s = true /\ ro = false /\
             is_symbol k = false /\ t' = t /\ k' = k)) as H1.
    { subst s1. destruct ro, (is_symbol k); cbn [negb andb];
        rewrite ?subscribers_track_iff; intuition congruence. }
    clearbody s1.
    destruct (Reflect_get o k) as [res| |]; [|done..]. cbn [lift bind] in Hget.
    destruct (answer_store _ _ _ _ _ _ Hget) as (Hb & _).
    unfold subscribers in *. by rewrite Hb.
  - intros sh ro. unfold get. by rewrite decide_True.
  - intros sh ro k m s' Hget. unfold get in Hget.
    case_decide; [done|].
    destruct (heap s !! t) as [o|]; [|done].
    destruct o as [ps|es|]; [| |done]; cbn [isArray] in Hget.
    + destruct (Reflect_get (OPlain ps) k) as [res| |]; [|done..].
      cbn [lift bind] in Hget. unfold answer in Hget. destruct sh; [done|].
      destruct res; try done. by destruct (getProxyObj _ _ _ _).
    + destruct (arrayInstrumentations k); [by injection Hget as _ <-|].
      destruct (Reflect_get (OArray es) k) as [res| |]; [|done..].
      cbn [lift bind] in Hget. unfold answer in Hget. destruct sh; [done|].
      destruct res; try done. by destruct (getProxyObj _ _ _ _).
  - intros k b s' Hhas x t' k'. unfold has in Hhas.
    destruct (heap s !! t) as [o|]; [|done].
    destruct o as [ps|es|]; [| |done];
      destruct (Reflect_has _ k); try done;
      injection Hhas as <- <-; apply subscribers_track_iff.
  - intros ks s' Hk. unfold ownKeys in Hk.
    destruct (heap s !! t) as [o|]; [|done]. exists o.
    destruct o as [ps|es|]; [| |done];
      destruct (own_keys _); try done; injection Hk as <- <-;
      (split; [done|]); intros x t' k'; apply subscribers_track_iff.
Qed.

(** ** Deep and shallow reads *)

Lemma track_frame_reactive t k s :
  heap (track t k s) = heap s /\ reactiveMap (track t k s) = reactiveMap s.
Proof.
  unfold track. destruct (activeEffect s); [|done]. by destruct (shouldTrack s).
Qed.

(** The own keys of an array are its indices and [length]: none names an
    instrumented method. *)
Lemma own_not_method (o : Obj) (k : key) (v : value) :
  own o k = Some v -> isArray o = true -> arrayInstrumentations k = None.
Proof.
  destruct o as [ps|es|]; [done| |done]. intros Hown _.
  destruct k as [i|n|]; [done| |done]. simpl in Hown.
  case_decide as Hn; [|done]. by subst n.
Qed.

(** A read through the handle of a key the target holds. *)
Lemma get_own (s : State) (t : nat) (o : Obj) (sh ro : bool) (k : key)
    (v : value) :
  heap s !! t = Some o ->
  own o k = Some v ->
  k ≠ KStr "raw" ->
  get t sh ro k s
  = answer sh ro v (if negb ro && negb (is_symbol k) then track t k s else s).
Proof.
  intros Ho Hown Hraw.
  rewrite (get_plain s t o sh ro k Ho Hraw)
    by (intros Ha; by eapply own_not_method).
  by rewrite (Reflect_get_own o k v Hown).
Qed.

(** X14.  What [get] answers for a key the target holds: a property of a
    record, an element or the [length] of an array.  A shallow handle
    answers the stored value.  A deep handle answers a stored primitive as it
    is and, for a stored object [r], a handle: the one [reactiveMap] has for
    [r], so that reading the key again answers the same handle; when [r]
    had none, the handle is a new object, made for [r] with the flags of the
    handle read through. *)
Theorem get_wraps_nested (s : State) (t : nat) (o : Obj) (k : key)
    (v : value) (ro : bool) :
  heap s !! t = Some o ->
  own o k = Some v ->
  k ≠ KStr "raw" ->
  (exists s', get t true ro k s = Ok (GotValue v) s') /\
  ((forall r, v ≠ VObj r) ->
   exists s', get t false ro k s = Ok (GotValue v) s') /\
  (forall r, v = VObj r ->
   exists p s1 s2,
     get t false ro k s = Ok (GotValue (VObj p)) s1 /\
     reactiveMap s1 !! r = Some p /\
     get t false ro k s1 = Ok (GotValue (VObj p)) s2 /\
     (reactiveMap s !! r = None ->
      heap s !! p = None /\ heap s1 !! p = Some (OProxy r false ro))).
Proof.
  intros Ho Hown Hraw. split; [|split].
  - rewrite (get_own s t o true ro k v) by done.
    rewrite answer_value by by left. by eexists.
  - intros Hprim. rewrite (get_own s t o false ro k v) by done.
    rewrite answer_value by by right. by eexists.
  - intros r ->. rewrite (get_own s t o false ro k (VObj r)) by done.
    rewrite answer_object.
    set (s0 := if negb ro && negb (is_symbol k) then track t k s else s).
    assert (heap s0 = heap s /\ reactiveMap s0 = reactiveMap s) as [Hh0 Hm0].
    { subst s0. destruct (negb ro && negb (is_symbol k)); [|done].
      apply track_frame_reactive. }
    set (p := (getProxyObj r false ro s0).1).
    set (s1 := (getProxyObj r false ro s0).2).
    assert (reactiveMap s1 !! r = Some p) as Hp.
    { subst p s1. unfold getProxyObj.
      destruct (reactiveMap s0 !! r) as [q|] eqn:Hq; [done|].
      simpl. apply lookup_insert_eq. }
    assert (heap s1 !! t = Some o) as Ho1.
    { subst s1. unfold getProxyObj. destruct (reactiveMap s0 !! r); simpl;
        rewrite Hh0; [done|]. by apply lookup_app_l_Some. }
    exists p, s1. eexists. split; [done|]. split; [done|]. split.
    + rewrite (get_own s1 t o false ro k (VObj r)) by done.
      rewrite answer_object.
      set (s1' := if negb ro && negb (is_symbol k) then track t k s1 else s1).
      assert (reactiveMap s1' = reactiveMap s1) as Hm1.
      { subst s1'. destruct (negb ro && negb (is_symbol k)); [|done].
        apply track_frame_reactive. }
      unfold getProxyObj at 1 2. rewrite Hm1, Hp. reflexivity.
    + intros Hnone. subst p s1. unfold getProxyObj. rewrite Hm0, Hnone.
      simpl. rewrite Hh0. split.
      * apply lookup_ge_None. lia.
      * by rewrite lookup_app_r, Nat.sub_diag by lia.
Qed.

Lemma get_wraps_nested_witness :
  (exists s', get 1 true false (KIdx 0) array_of_object
              = Ok (GotValue (VObj 0)) s') /\
  ((forall r, VObj 0 ≠ VObj r) ->
   exists s', get 1 false false (KIdx 0) array_of_object
              = Ok (GotValue (VObj 0)) s') /\
  (forall r, VObj 0 = VObj r ->
   exists p s1 s2,
     get 1 false false (KIdx 0) array_of_object = Ok (GotValue (VObj p)) s1 /\
     reactiveMap s1 !! r = Some p /\
     get 1 false false (KIdx 0) s1 = Ok (GotValue (VObj p)) s2 /\
     (reactiveMap array_of_object !! r = None ->
      heap array_of_object !! p = None /\
      heap s1 !! p = Some (OProxy r false false))).
Proof.
  apply (get_wraps_nested array_of_object 1 (OArray [VObj 0]) (KIdx 0)
           (VObj 0) false).
  - reflexivity.
  - reflexivity.
  - discriminate.
Defined.

(** ** Writing, then reading *)

(** When the [set] trap returns, the old value was read and the operation
    classified. *)
Lemma set_returns (s : State) (t receiver : nat) (o : Obj) (k : key)
    (v : value) res call s' :
  heap s !! t = Some o ->
  set t false k v receiver s = Ok (res, call) s' ->
  exists old ty, Reflect_get o k = Done old /\ classify o k = Done ty.
Proof.
  intros Ho Hset. unfold set in Hset. rewrite Ho in Hset.
  destruct o as [ps|es|]; [| |done];
    (destruct (Reflect_get _ k) as [old| |]; [|done..]);
    (destruct (classify _ k) as [ty| |]; [|done..]); by exists old, ty.
Qed.

Lemma set_written (s : State) (t p : nat) (o : Obj) (sh : bool) (k : key)
    (v : value) res call s' :
  heap s !! t = Some o ->
  heap s !! p = Some (OProxy t sh false) ->
  set t false k v p s = Ok (res, call) s' ->
  exists ob, heap s' !! t = Some ob /\ own ob k = Some v.
Proof.
  intros Ho Hp Hset.
  destruct (set_returns s t p o k v res call s' Ho Hset)
    as (old & ty & Hg & Hty).
  rewrite (set_steps s t p o k v old ty Ho Hg Hty) in Hset.
  unfold behind in Hset. rewrite Hp in Hset.
  destruct (define_own t k v s) as [r s1| |] eqn:Hdef; try done.
  cbn [bind] in Hset. injection Hset as _ _ <-.
  by destruct (define_own_written _ _ _ _ _ _ Hdef) as (_ & Hwr & _).
Qed.

(** X15.  A write through a handle that is not read-only, then a read of the
    same key through the handle.  For every key but [raw] the read answers
    the value written, as it is when the handle is shallow or the value is a
    primitive.  The key [raw] is answered by the [get] trap itself: the read
    is the target, while the target's own property [raw] holds the value
    written. *)
Theorem set_get_round_trip (s : State) (t p : nat) (o : Obj) (sh : bool)
    (k : key) (v : value) (res : bool) (call : option TriggerCall)
    (s' : State) :
  heap s !! t = Some o ->
  heap s !! p = Some (OProxy t sh false) ->
  set t false k v p s = Ok (res, call) s' ->
  (k ≠ KStr "raw" -> sh = true \/ (forall r, v ≠ VObj r) ->
   exists s'', get t sh false k s' = Ok (GotValue v) s'') /\
  (k = KStr "raw" ->
   get t sh false k s' = Ok (GotValue (VObj t)) s' /\
   exists ob, heap s' !! t = Some ob /\ own ob k = Some v).
Proof.
  intros Ho Hp Hset.
  destruct (set_written s t p o sh k v res call s' Ho Hp Hset)
    as (ob & Hob & Hown).
  split.
  - intros Hraw Hv. rewrite (get_own s' t ob sh false k v) by done.
    rewrite answer_value by done. by eexists.
  - intros ->. split; [|by exists ob]. unfold get. by rewrite decide_True.
Qed.

Lemma set_get_round_trip_witness :
  exists s',
    set 0 false (KStr "foo") (VNum 2) 1 wrapped_object
    = Ok (true, Some (mkCall 0 (KStr "foo") SET (VNum 2))) s' /\
    (KStr "foo" ≠ KStr "raw" -> false = true \/ (forall r, VNum 2 ≠ VObj r) ->
     exists s'', get 0 false false (KStr "foo") s' = Ok (GotValue (VNum 2)) s'') /\
    (KStr "foo" = KStr "raw" ->
     get 0 false false (KStr "foo") s' = Ok (GotValue (VObj 0)) s' /\
     exists ob, heap s' !! 0 = Some ob /\ own ob (KStr "foo") = Some (VNum 2)).
Proof.
  eexists. split; [reflexivity|].
  apply (set_get_round_trip wrapped_object 0 1
           (OPlain [(KStr "foo", VNum 1)]) false (KStr "foo") (VNum 2) true
           (Some (mkCall 0 (KStr "foo") SET (VNum 2)))).
  - reflexivity.
  - reflexivity.
  - reflexivity.
Defined.

(** ** Deleting *)

Lemma map_get_delete_eq {K V : Type} `{EqDecision K} (k : K) (m : list (K * V)) :
  NoDup m.*1 -> map_get k (map_delete k m) = None.
Proof.
  induction m as [|[k' v'] m IH]; simpl; [done|].
  intros [Hk' Hnd]%NoDup_cons. case_decide as Heq.
  - subst k'. destruct (map_get k m) eqn:H; [|done].
    by apply map_get_fst in H.
  - simpl. rewrite decide_False by done. by apply IH.
Qed.

Lemma map_get_delete_ne {K V : Type} `{EqDecision K} (k k0 : K)
    (m : list (K * V)) :
  k0 ≠ k -> map_get k0 (map_delete k m) = map_get k0 m.
Proof.
  intros Hne. induction m as [|[k' v'] m IH]; simpl; [done|].
  case_decide as Heq.
  - subst k'. by rewrite decide_False.
  - simpl. case_decide; [done|]. apply IH.
Qed.

Lemma deleteProperty_record (s : State) (t : nat) (ps : Props) (k : key) :
  heap s !! t = Some (OPlain ps) ->
  deleteProperty t false k s =
  Ok (true,
      if bool_decide (is_Some (map_get k ps))
      then Some (mkCall t k DELETE VUndef) else None)
    (with_heap (<[t := OPlain (map_delete k ps)]> (heap s)) s).
Proof.
  intros Ho. unfold deleteProperty, Reflect_deleteProperty. rewrite Ho.
  cbn [hasOwnProperty lift bind]. rewrite Ho. by cbn [bind andb].
Qed.

(** X16.  [delete] of a key through a handle, not read-only, of a record whose
    keys are distinct.  The trap answers [true]; it calls [trigger], with
    type DELETE, exactly when the key was an own property.  Afterwards the
    record has no property of that key and its other properties are as
    before: [in] answers [true] only for a key that names a member of
    [Object.prototype] (it does for [toString], whatever was deleted), and a
    read of a key that names none answers [undefined].  The dependency store
    is untouched, and deleting an absent key changes no property. *)
Theorem delete_then_read (s : State) (t : nat) (ps : Props) (k : key) :
  heap s !! t = Some (OPlain ps) ->
  NoDup ps.*1 ->
  exists s',
    deleteProperty t false k s =
      Ok (true,
          if bool_decide (is_Some (map_get k ps))
          then Some (mkCall t k DELETE VUndef) else None) s' /\
    (exists ps', heap s' !! t = Some (OPlain ps') /\ map_get k ps' = None /\
       forall k', k' ≠ k -> map_get k' ps' = map_get k' ps) /\
    (exists s'', has t k s' = Ok (inherits (OPlain ps) k) s'') /\
    (exists s'', has t (KStr "toString") s' = Ok true s'') /\
    (k ≠ KStr "raw" -> inherits (OPlain ps) k = false ->
     forall sh ro, exists s'', get t sh ro k s' = Ok (GotValue VUndef) s'') /\
    (map_get k ps = None -> heap s' !! t = Some (OPlain ps)) /\
    bucket s' = bucket s /\ deps s' = deps s.
Proof.
  intros Ho Hnd. rewrite (deleteProperty_record s t ps k Ho).
  set (s' := with_heap _ s). exists s'. split; [done|].
  assert (heap s' !! t = Some (OPlain (map_delete k ps))) as Ho'.
  { subst s'. cbn [heap with_heap].
    apply list_lookup_insert_eq. by eapply lookup_lt_Some. }
  pose proof (map_get_delete_eq k ps Hnd) as Hgone.
  split; [|split; [|split; [|split; [|split]]]].
  - exists (map_delete k ps). split; [done|]. split; [done|].
    intros k' Hne. by apply map_get_delete_ne.
  - unfold has. rewrite Ho'. eexists. unfold Reflect_has.
    cbn [hasOwnProperty]. rewrite Hgone.
    rewrite bool_decide_eq_false_2 by (by intros [? ?]). reflexivity.
  - unfold has. rewrite Ho'. eexists. unfold Reflect_has.
    cbn [hasOwnProperty lift]. f_equal. apply orb_true_r.
  - intros Hraw Hinh sh ro.
    rewrite (get_plain s' t (OPlain (map_delete k ps)) sh ro k) by done.
    unfold Reflect_get. cbn [own]. rewrite Hgone.
    assert (inherits (OPlain (map_delete k ps)) k = false) as -> by done.
    cbn [lift bind]. rewrite answer_value by (right; done). by eexists.
  - intros Hno. rewrite Ho'. do 2 f_equal.
    clear -Hno. induction ps as [|[k' v'] ps IH]; simpl; [done|].
    simpl in Hno. case_decide as Heq; [done|].
    f_equal. by apply IH.
  - done.
Qed.

Lemma delete_then_read_witness :
  exists s',
    deleteProperty 0 false (KStr "foo") wrapped_object =
      Ok (true,
          if bool_decide (is_Some (map_get (KStr "foo") [(KStr "foo", VNum 1)]))
          then Some (mkCall 0 (KStr "foo") DELETE VUndef) else None) s' /\
    (exists ps', heap s' !! 0 = Some (OPlain ps') /\
       map_get (KStr "foo") ps' = None /\
       forall k', k' ≠ KStr "foo" ->
         map_get k' ps' = map_get k' [(KStr "foo", VNum 1)]) /\
    (exists s'',
       has 0 (KStr "foo") s'
       = Ok (inherits (OPlain [(KStr "foo", VNum 1)]) (KStr "foo")) s'') /\
    (exists s'', has 0 (KStr "toString") s' = Ok true s'') /\
    (KStr "foo" ≠ KStr "raw" ->
     inherits (OPlain [(KStr "foo", VNum 1)]) (KStr "foo") = false ->
     forall sh ro,
       exists s'', get 0 sh ro (KStr "foo") s' = Ok (GotValue VUndef) s'') /\
    (map_get (KStr "foo") [(KStr "foo", VNum 1)] = None ->
     heap s' !! 0 = Some (OPlain [(KStr "foo", VNum 1)])) /\
    bucket s' = bucket wrapped_object /\ deps s' = deps wrapped_object.
Proof.
  apply (delete_then_read wrapped_object 0 [(KStr "foo", VNum 1)] (KStr "foo")).
  - reflexivity.
  - simpl. repeat constructor. by intros ?%elem_of_nil.
Defined.

(** ** Effects that iterate *)

Lemma subs_in_bucket (b : gmap nat DepsMap) (t : nat) (k : key) (e : nat) :
  e ∈ subs_in b t k -> is_Some (b !! t).
Proof.
  unfold subs_in. destruct (b !! t); [by eexists|].
  simpl. by intros ?%elem_of_nil.
Qed.

(** The [set] trap on a record, called through the record's own handle,
    [old] being what a read of the key on the record answers. *)
Lemma set_record (s : State) (t p : nat) (ps : Props) (sh : bool) (k : key)
    (v old : value) :
  heap s !! t = Some (OPlain ps) ->
  heap s !! p = Some (OProxy t sh false) ->
  Reflect_get (OPlain ps) k = Done old ->
  set t false k v p s =
  Ok (true,
      if changed old v
      then Some (mkCall t k
                   (if bool_decide (is_Some (map_get k ps)) then SET else ADD) v)
      else None)
    (with_heap (<[t := OPlain (map_set k v ps)]> (heap s)) s).
Proof.
  intros Ho Hp Hg.
  rewrite (set_steps s t p (OPlain ps) k v old _ Ho Hg (classify_record ps k)).
  unfold behind. rewrite Hp. unfold define_own. rewrite Ho.
  cbn [bind]. assert (p ≠ t) as Hpt by (intros ->; congruence).
  unfold receiver_raw. cbn [heap with_heap].
  rewrite list_lookup_insert_ne by done. rewrite Hp.
  by assert (strict_eq (VObj t) (VObj t) = true) as -> by by apply strict_eq_obj.
Qed.

(** A key the record does not hold and does not inherit reads
    [undefined]. *)
Lemma Reflect_get_absent (ps : Props) (k : key) :
  map_get k ps = None -> inherits (OPlain ps) k = false ->
  Reflect_get (OPlain ps) k = Done VUndef.
Proof.
  intros Hno Hinh. unfold Reflect_get. cbn [own]. by rewrite Hno, Hinh.
Qed.

(** The [set] trap on an array, at an index, called through the array's own
    handle. *)
Lemma set_index (s : State) (arr p : nat) (es : list value) (sh : bool)
    (i : nat) (v : value) :
  heap s !! arr = Some (OArray es) ->
  heap s !! p = Some (OProxy arr sh false) ->
  set arr false (KIdx i) v p s =
  Ok (true,
      if changed (default VUndef (es !! i)) v
      then Some (mkCall arr (KIdx i) (if decide (i < length es) then SET else ADD) v)
      else None)
    (with_heap (<[arr := OArray (put_index i v es)]> (heap s)) s).
Proof.
  intros Ho Hp.
  assert (Reflect_get (OArray es) (KIdx i) = Done (default VUndef (es !! i)))
    as Hg.
  { unfold Reflect_get. cbn [own inherits]. by destruct (es !! i). }
  rewrite (set_steps s arr p (OArray es) (KIdx i) v _ _ Ho Hg
             (classify_index es i)).
  unfold behind. rewrite Hp. unfold define_own. rewrite Ho.
  cbn [bind]. assert (p ≠ arr) as Hpt by (intros ->; congruence).
  unfold receiver_raw. cbn [heap with_heap].
  rewrite list_lookup_insert_ne by done. rewrite Hp.
  by assert (strict_eq (VObj arr) (VObj arr) = true) as -> by by apply strict_eq_obj.
Qed.

(** X17.  An effect [e], not the active one, that has iterated a record with
    [for ... in] (it is subscribed to [ITERATE_KEY]).  Adding a property
    with a value other than [undefined] through the record's handle calls
    [trigger] with type ADD, which calls [e]; deleting an own property calls
    [trigger] with type DELETE, which calls [e]; overwriting an own
    property that [e] has not read calls [trigger] with type SET, which does
    not call [e].  Adding a property whose value is [undefined] adds the key
    without any call of [trigger].  The key added names no member of
    [Object.prototype]: for such a name, [toString] for one, the old value is
    the member, not [undefined], and the write is outside the model. *)
Theorem iteration_dependency (s : State) (t p e : nat) (ps : Props)
    (sh : bool) (k : key) (v : value) :
  heap s !! t = Some (OPlain ps) ->
  heap s !! p = Some (OProxy t sh false) ->
  e ∈ subscribers s t ITERATE_KEY ->
  activeEffect s ≠ Some e ->
  (map_get k ps = None -> inherits (OPlain ps) k = false -> v ≠ VUndef ->
   exists s' l,
     set t false k v p s = Ok (true, Some (mkCall t k ADD v)) s' /\
     trigger (mkCall t k ADD v) s' = Done l /\ e ∈ l) /\
  (map_get k ps = None -> inherits (OPlain ps) k = false ->
   exists s' ob,
     set t false k VUndef p s = Ok (true, None) s' /\
     heap s' !! t = Some ob /\ hasOwnProperty ob k = Done true) /\
  (forall old, map_get k ps = Some old -> v ≠ old ->
   e ∉ subscribers s t k ->
   exists s' l,
     set t false k v p s = Ok (true, Some (mkCall t k SET v)) s' /\
     trigger (mkCall t k SET v) s' = Done l /\ e ∉ l) /\
  (is_Some (map_get k ps) ->
   exists s' l,
     deleteProperty t false k s
     = Ok (true, Some (mkCall t k DELETE VUndef)) s' /\
     trigger (mkCall t k DELETE VUndef) s' = Done l /\ e ∈ l) /\
  (map_get (KStr "toString") ps = None ->
   set t false (KStr "toString") v p s = Unmodelled).
Proof.
  intros Ho Hp He Hact.
  destruct (subs_in_bucket _ _ _ _ He) as [dm Hdm].
  assert (t < length (heap s)) as Hlt by by eapply lookup_lt_Some.
  assert (forall ps' c,
    tc_target c = t ->
    exists l,
      trigger c (with_heap (<[t := OPlain ps']> (heap s)) s) = Done l /\
      forall x, x ∈ l <->
        x ∈ subscribers s t (tc_key c) \/
        (Some x ≠ activeEffect s /\
         (tc_type c ≠ SET /\ x ∈ subscribers s t ITERATE_KEY))) as Htr.
  { intros ps' c Hc.
    destruct (trigger_membership (with_heap (<[t := OPlain ps']> (heap s)) s)
                c dm (OPlain ps')) as (l & Hl & Hspec).
    - rewrite Hc. cbn [heap with_heap]. by apply list_lookup_insert_eq.
    - by rewrite Hc.
    - by left.
    - exists l. split; [done|]. intros x. rewrite Hspec, Hc.
      change (subscribers (with_heap _ s)) with (subscribers s).
      cbn [isArray activeEffect with_heap]. intuition congruence. }
  assert (Some e ≠ activeEffect s) as Hact' by congruence.
  split; [|split; [|split; [|split]]].
  - intros Hnone Hinh Hv.
    rewrite (set_record s t p ps sh k v VUndef)
      by (done || by apply Reflect_get_absent).
    rewrite Hnone. rewrite bool_decide_eq_false_2 by (by intros [? ?]).
    assert (changed VUndef v = true) as -> by (apply changed_iff; congruence).
    destruct (Htr (map_set k v ps) (mkCall t k ADD v) eq_refl) as (l & Hl & Hs).
    eexists _, l. split; [done|]. split; [done|]. apply Hs. right. done.
  - intros Hnone Hinh.
    rewrite (set_record s t p ps sh k VUndef VUndef)
      by (done || by apply Reflect_get_absent).
    assert (changed VUndef VUndef = false) as -> by done.
    do 2 eexists. split; [done|]. cbn [heap with_heap].
    split; [by apply list_lookup_insert_eq|].
    unfold hasOwnProperty. rewrite map_get_set_eq.
    by rewrite bool_decide_eq_true_2.
  - intros old Hold Hv Hnot.
    rewrite (set_record s t p ps sh k v old)
      by (done || by apply Reflect_get_own).
    rewrite Hold. rewrite bool_decide_eq_true_2 by by eexists.
    assert (changed old v = true) as -> by (apply changed_iff; congruence).
    destruct (Htr (map_set k v ps) (mkCall t k SET v) eq_refl) as (l & Hl & Hs).
    eexists _, l. split; [done|]. split; [done|]. rewrite Hs.
    cbn [tc_key tc_type]. intros [?|(_ & ? & _)]; done.
  - intros Hsome. rewrite (deleteProperty_record s t ps k Ho).
    rewrite bool_decide_eq_true_2 by done.
    destruct (Htr (map_delete k ps) (mkCall t k DELETE VUndef) eq_refl)
      as (l & Hl & Hs).
    eexists _, l. split; [done|]. split; [done|]. apply Hs. right. done.
  - intros Hnone. unfold set. rewrite Ho. unfold Reflect_get. cbn [own].
    by rewrite Hnone.
Qed.

Lemma iteration_dependency_witness :
  (map_get (KStr "bar") [(KStr "foo", VNum 1)] = None ->
   inherits (OPlain [(KStr "foo", VNum 1)]) (KStr "bar") = false ->
   VNum 2 ≠ VUndef ->
   exists s' l,
     set 0 false (KStr "bar") (VNum 2) 1 iterated_state
     = Ok (true, Some (mkCall 0 (KStr "bar") ADD (VNum 2))) s' /\
     trigger (mkCall 0 (KStr "bar") ADD (VNum 2)) s' = Done l /\ 0 ∈ l) /\
  (map_get (KStr "bar") [(KStr "foo", VNum 1)] = None ->
   inherits (OPlain [(KStr "foo", VNum 1)]) (KStr "bar") = false ->
   exists s' ob,
     set 0 false (KStr "bar") VUndef 1 iterated_state = Ok (true, None) s' /\
     heap s' !! 0 = Some ob /\ hasOwnProperty ob (KStr "bar") = Done true) /\
  (forall old, map_get (KStr "bar") [(KStr "foo", VNum 1)] = Some old ->
   VNum 2 ≠ old ->
   0 ∉ subscribers iterated_state 0 (KStr "bar") ->
   exists s' l,
     set 0 false (KStr "bar") (VNum 2) 1 iterated_state
     = Ok (true, Some (mkCall 0 (KStr "bar") SET (VNum 2))) s' /\
     trigger (mkCall 0 (KStr "bar") SET (VNum 2)) s' = Done l /\ 0 ∉ l) /\
  (is_Some (map_get (KStr "bar") [(KStr "foo", VNum 1)]) ->
   exists s' l,
     deleteProperty 0 false (KStr "bar") iterated_state
     = Ok (true, Some (mkCall 0 (KStr "bar") DELETE VUndef)) s' /\
     trigger (mkCall 0 (KStr "bar") DELETE VUndef) s' = Done l /\ 0 ∈ l) /\
  (map_get (KStr "toString") [(KStr "foo", VNum 1)] = None ->
   set 0 false (KStr "toString") (VNum 2) 1 iterated_state = Unmodelled).
Proof.
  apply (iteration_dependency iterated_state 0 1 0 [(KStr "foo", VNum 1)]
           false (KStr "bar") (VNum 2)).
  - reflexivity.
  - reflexivity.
  - vm_compute. left.
  - discriminate.
Defined.

(** ** Arrays: writes at an index *)

Lemma length_put_index i v es :
  length (put_index i v es) = if decide (i < length es) then length es else S i.
Proof.
  unfold put_index. case_decide.
  - by rewrite length_insert.
  - rewrite !length_app, length_replicate. simpl. lia.
Qed.

(** X18.  An effect [e], not the active one, subscribed to the [length] of an
    array.  A write through the array's handle at an index from the length
    on, of a value other than [undefined], extends the array and calls
    [trigger] with type ADD, which calls [e].  A write at an index below the
    length that changes the element calls [trigger] with type SET, which
    calls [e] only if [e] is subscribed to that index; the length stays.
    A write of [undefined] at an index from the length on extends the array
    without any call of [trigger]. *)
Theorem index_write_and_length (s : State) (arr p e : nat) (es : list value)
    (sh : bool) (i : nat) (v : value) :
  heap s !! arr = Some (OArray es) ->
  heap s !! p = Some (OProxy arr sh false) ->
  e ∈ subscribers s arr (KStr "length") ->
  activeEffect s ≠ Some e ->
  (Z.of_nat i < 4294967295)%Z ->
  (length es <= i -> v ≠ VUndef ->
   exists s' es' l,
     set arr false (KIdx i) v p s
     = Ok (true, Some (mkCall arr (KIdx i) ADD v)) s' /\
     heap s' !! arr = Some (OArray es') /\
     length es' = S i /\ es' !! i = Some v /\
     trigger (mkCall arr (KIdx i) ADD v) s' = Done l /\ e ∈ l) /\
  (i < length es -> es !! i ≠ Some v ->
   exists s' es' l,
     set arr false (KIdx i) v p s
     = Ok (true, Some (mkCall arr (KIdx i) SET v)) s' /\
     heap s' !! arr = Some (OArray es') /\
     length es' = length es /\ es' !! i = Some v /\
     trigger (mkCall arr (KIdx i) SET v) s' = Done l /\
     (e ∈ l <-> e ∈ subscribers s arr (KIdx i))) /\
  (length es <= i ->
   exists s' es',
     set arr false (KIdx i) VUndef p s = Ok (true, None) s' /\
     heap s' !! arr = Some (OArray es') /\ length es' = S i).
Proof.
  intros Ho Hp He Hact _.
  destruct (subs_in_bucket _ _ _ _ He) as [dm Hdm].
  assert (arr < length (heap s)) as Hlt by by eapply lookup_lt_Some.
  assert (Some e ≠ activeEffect s) as Hact' by congruence.
  set (s' := λ v0, with_heap (<[arr := OArray (put_index i v0 es)]> (heap s)) s).
  assert (forall v0, heap (s' v0) !! arr = Some (OArray (put_index i v0 es)))
    as Ho'.
  { intros v0. subst s'. cbn [heap with_heap]. by apply list_lookup_insert_eq. }
  assert (forall v0 ty, exists l,
    trigger (mkCall arr (KIdx i) ty v0) (s' v0) = Done l /\
    forall x, x ∈ l <->
      x ∈ subscribers s arr (KIdx i) \/
      (Some x ≠ activeEffect s /\
       ((ty = ADD /\ x ∈ subscribers s arr (KStr "length")) \/
        (ty ≠ SET /\ x ∈ subscribers s arr ITERATE_KEY)))) as Htr.
  { intros v0 ty.
    destruct (trigger_membership (s' v0) (mkCall arr (KIdx i) ty v0) dm
                (OArray (put_index i v0 es))) as (l & Hl & Hspec);
      [apply Ho' | done | by right |].
    exists l. split; [done|]. intros x. rewrite Hspec.
    cbn [tc_target tc_key tc_type isArray].
    change (subscribers (s' v0)) with (subscribers s).
    change (activeEffect (s' v0)) with (activeEffect s).
    intuition congruence. }
  split; [|split].
  - intros Hi Hv. rewrite (set_index s arr p es sh i v) by done.
    rewrite (lookup_ge_None_2 es i) by done. cbn [default from_option].
    assert (changed VUndef v = true) as -> by (apply changed_iff; congruence).
    rewrite decide_False by lia.
    destruct (Htr v ADD) as (l & Hl & Hs).
    exists (s' v), (put_index i v es), l. split; [done|]. split; [apply Ho'|].
    split; [rewrite length_put_index; by rewrite decide_False by lia|].
    split; [apply own_put_index|]. split; [done|].
    apply Hs. right. split; [done|]. by left.
  - intros Hi Hne. rewrite (set_index s arr p es sh i v) by done.
    destruct (lookup_lt_is_Some_2 es i Hi) as [old Hold].
    rewrite Hold. cbn [default from_option id].
    assert (changed old v = true) as -> by (apply changed_iff; congruence).
    rewrite decide_True by done.
    destruct (Htr v SET) as (l & Hl & Hs).
    exists (s' v), (put_index i v es), l. split; [done|]. split; [apply Ho'|].
    split; [rewrite length_put_index; by rewrite decide_True|].
    split; [apply own_put_index|]. split; [done|].
    rewrite Hs. intuition congruence.
  - intros Hi. rewrite (set_index s arr p es sh i VUndef) by done.
    rewrite (lookup_ge_None_2 es i) by done. cbn [default from_option].
    assert (changed VUndef VUndef = false) as -> by done.
    exists (s' VUndef), (put_index i VUndef es). split; [done|].
    split; [apply Ho'|]. rewrite length_put_index. by rewrite decide_False by lia.
Qed.

Lemma index_write_and_length_witness :
  (length [VNum 10; VNum 20] <= 2 -> VNum 30 ≠ VUndef ->
   exists s' es' l,
     set 0 false (KIdx 2) (VNum 30) 1 array_length_state
     = Ok (true, Some (mkCall 0 (KIdx 2) ADD (VNum 30))) s' /\
     heap s' !! 0 = Some (OArray es') /\
     length es' = 3 /\ es' !! 2 = Some (VNum 30) /\
     trigger (mkCall 0 (KIdx 2) ADD (VNum 30)) s' = Done l /\ 0 ∈ l) /\
  (2 < length [VNum 10; VNum 20] ->
   [VNum 10; VNum 20] !! 2 ≠ Some (VNum 30) ->
   exists s' es' l,
     set 0 false (KIdx 2) (VNum 30) 1 array_length_state
     = Ok (true, Some (mkCall 0 (KIdx 2) SET (VNum 30))) s' /\
     heap s' !! 0 = Some (OArray es') /\
     length es' = length [VNum 10; VNum 20] /\ es' !! 2 = Some (VNum 30) /\
     trigger (mkCall 0 (KIdx 2) SET (VNum 30)) s' = Done l /\
     (0 ∈ l <-> 0 ∈ subscribers array_length_state 0 (KIdx 2))) /\
  (length [VNum 10; VNum 20] <= 2 ->
   exists s' es',
     set 0 false (KIdx 2) VUndef 1 array_length_state = Ok (true, None) s' /\
     heap s' !! 0 = Some (OArray es') /\ length es' = 3).
Proof.
  apply (index_write_and_length array_length_state 0 1 0 [VNum 10; VNum 20]
           false 2 (VNum 30)).
  - reflexivity.
  - reflexivity.
  - vm_compute. left.
  - discriminate.
  - reflexivity.
Defined.

(** ** [includes] through a handle *)

Section Includes.
Variables (arr p : nat) (es : list value) (sh ro : bool) (x : value).

Lemma array_behind_track t k s :
  array_behind arr p es sh ro s -> array_behind arr p es sh ro (track t k s).
Proof.
  unfold array_behind. by destruct (track_frame_reactive t k s) as [-> _].
Qed.

Lemma array_behind_getProxyObj r a b s :
  array_behind arr p es sh ro s ->
  array_behind arr p es sh ro (getProxyObj r a b s).2.
Proof.
  intros [H1 H2]. unfold getProxyObj. destruct (reactiveMap s !! r); [done|].
  split; cbn [snd heap with_heap with_reactiveMap]; by apply lookup_app_l_Some.
Qed.

(** A read of an element through the handle. *)
Lemma get_element k s :
  array_behind arr p es sh ro s ->
  exists el s',
    obj_get p (KIdx k) s = Ok (GotValue el) s' /\
    array_behind arr p es sh ro s' /\
    (el = default VUndef (es !! k) \/ exists q, el = VObj q).
Proof.
  intros Hinv. destruct Hinv as [Ha Hp]. unfold obj_get. rewrite Hp.
  rewrite (get_plain s arr (OArray es) sh ro (KIdx k)) by done.
  set (s1 := if negb ro && negb (is_symbol (KIdx k)) then track arr (KIdx k) s
             else s).
  assert (array_behind arr p es sh ro s1) as H1.
  { subst s1. destruct (negb ro && negb _); [|done].
    by apply array_behind_track. }
  assert (forall r a b, array_behind arr p es sh ro (getProxyObj r a b s1).2)
    as Hg by (intros; by apply array_behind_getProxyObj).
  clearbody s1.
  assert (Reflect_get (OArray es) (KIdx k) = Done (default VUndef (es !! k)))
    as ->.
  { unfold Reflect_get. cbn [own inherits]. by destruct (es !! k). }
  cbn [lift bind]. destruct sh.
  - do 2 eexists. split; [done|]. split; [done|]. by left.
  - destruct (default VUndef (es !! k)) eqn:Hr;
      try (do 2 eexists; split; [done|]; split; [done|]; by left).
    rewrite answer_object. do 2 eexists. split; [done|].
    split; [apply Hg|]. right. by eexists.
Qed.

Lemma includes_loop_handle ks : forall s,
  array_behind arr p es sh ro s ->
  exists b s',
    includes_loop p x ks s = Ok (VBool b) s' /\
    array_behind arr p es sh ro s' /\
    ((forall r, x ≠ VObj r) -> (forall k, k ∈ ks -> k < length es) ->
     x ∉ es -> b = false).
Proof.
  induction ks as [|k ks IH]; intros s Hinv; cbn [includes_loop].
  - exists false, s. done.
  - destruct (get_element k s Hinv) as (el & s1 & -> & H1 & Hel).
    cbn [bind]. unfold same_value_zero. case_bool_decide as Heq.
    + exists true, s1. split; [done|]. split; [done|].
      intros Hprim Hks Hx. subst el. destruct Hel as [Hel|[q Hq]].
      * destruct Hx.
        destruct (lookup_lt_is_Some_2 es k) as [v Hv].
        { apply Hks. left. }
        rewrite Hv in Hel. cbn in Hel. subst x. by eapply list_elem_of_lookup_2.
      * by destruct (Hprim q).
    + destruct (IH s1 H1) as (b & s' & -> & H' & Hb).
      exists b, s'. split; [done|]. split; [done|].
      intros Hprim Hks Hx. apply Hb; [done| |done].
      intros k' Hk'. apply Hks. by right.
Qed.

Lemma includes_loop_raw : forall n k s,
  heap s !! arr = Some (OArray es) ->
  k + n <= length es ->
  includes_loop arr x (seq k n) s =
  Ok (VBool (bool_decide (x ∈ take n (drop k es)))) s.
Proof.
  induction n as [|n IH]; intros k s Ha Hk; cbn [seq includes_loop].
  - rewrite take_0. by rewrite bool_decide_eq_false_2 by apply not_elem_of_nil.
  - unfold obj_get. rewrite Ha.
    destruct (lookup_lt_is_Some_2 es k) as [v Hv]; [lia|].
    rewrite (Reflect_get_own (OArray es) (KIdx k) v Hv). cbn [lift bind].
    rewrite (drop_S es v k Hv). cbn [take].
    unfold same_value_zero. case_bool_decide as Heq.
    + subst v. by rewrite bool_decide_eq_true_2 by left.
    + rewrite IH by (done || lia). do 2 f_equal.
      apply bool_decide_ext. rewrite elem_of_cons. intuition congruence.
Qed.
End Includes.

(** A read of [length] through the handle of an array. *)
Lemma get_length (s : State) (arr : nat) (es : list value) (sh ro : bool) :
  heap s !! arr = Some (OArray es) ->
  get arr sh ro (KStr "length") s
  = Ok (GotValue (VNum (Z.of_nat (length es))))
      (if negb ro && negb (is_symbol (KStr "length"))
       then track arr (KStr "length") s else s).
Proof.
  intros Ha.
  rewrite (get_own s arr (OArray es) sh ro (KStr "length")
             (VNum (Z.of_nat (length es)))) by done.
  apply answer_value. by right.
Qed.

Lemma raw_length (es : list value) :
  Reflect_get (OArray es) (KStr "length")
  = Done (VNum (Z.of_nat (length es))).
Proof. done. Qed.

(** X19.  [arr.includes(x)] through a handle of an array, of any mode.  When
    [x] is an element of the array behind the handle the answer is [true]:
    an object stored in the array is found even though the handle answers
    element reads with handles, by the second search, in [this.raw].  When
    [x] is a primitive that is not an element the answer is [false]. *)
Theorem includes_finds_element (s : State) (arr p : nat) (es : list value)
    (sh ro : bool) (x : value) :
  heap s !! arr = Some (OArray es) ->
  heap s !! p = Some (OProxy arr sh ro) ->
  (x ∈ es ->
   exists s', call_method p (KStr "includes") x None s = Ok (VBool true) s') /\
  ((forall r, x ≠ VObj r) -> x ∉ es ->
   exists s', call_method p (KStr "includes") x None s = Ok (VBool false) s').
Proof.
  intros Ha Hp.
  assert (exists b s1,
    (length es = 0 /\ b = false \/
     length es ≠ 0 /\
     ((forall r, x ≠ VObj r) -> x ∉ es -> b = false)) /\
    array_behind arr p es sh ro s1 /\
    call_method p (KStr "includes") x None s =
    if strict_eq (VBool b) (VBool false)
    then originMethod Includes arr x None s1
    else Ok (VBool b) s1) as (b & s1 & Hb & [Ha1 Hp1] & ->).
  { unfold call_method, obj_get at 1. rewrite Hp. unfold get at 1.
    rewrite decide_False by done. rewrite Ha. cbn [isArray].
    assert (arrayInstrumentations (KStr "includes") = Some Includes) as ->
      by done.
    cbn [bind]. unfold instrumented, originMethod at 1.
    unfold obj_get at 1. rewrite Hp.
    rewrite (get_length s arr es sh ro) by done.
    set (s0 := if negb ro && negb (is_symbol (KStr "length"))
               then track arr (KStr "length") s else s).
    assert (array_behind arr p es sh ro s0) as H0.
    { subst s0. destruct (negb ro && negb _); [|done].
      by apply array_behind_track. }
    clearbody s0.
    cbn [bind]. rewrite Nat2Z.id. case_decide as Hlen.
    - exists false, s0. split; [by left|]. split; [done|].
      cbn [bind]. unfold obj_get at 1. destruct H0 as [_ ->].
      unfold get at 1. by rewrite decide_True.
    - cbn [start_index]. rewrite Nat.sub_0_r.
      destruct (includes_loop_handle arr p es sh ro x (seq 0 (length es)) s0 H0)
        as (b & s1 & -> & H1 & Hfalse).
      exists b, s1. split.
      { right. split; [done|]. intros Hprim Hx. apply Hfalse; [done| |done].
        intros k Hk%elem_of_seq. lia. }
      split; [done|]. cbn [bind].
      destruct (strict_eq (VBool b) (VBool false)); [|done].
      unfold obj_get at 1. destruct H1 as [_ ->].
      unfold get at 1. by rewrite decide_True. }
  assert (originMethod Includes arr x None s1 =
          Ok (VBool (bool_decide (x ∈ es))) s1) as Hraw.
  { unfold originMethod, obj_get at 1. rewrite Ha1, raw_length.
    cbn [lift bind]. rewrite Nat2Z.id. case_decide as Hlen.
    - apply nil_length_inv in Hlen. subst es.
      by rewrite bool_decide_eq_false_2 by apply not_elem_of_nil.
    - cbn [start_index]. rewrite Nat.sub_0_r.
      rewrite (includes_loop_raw arr es x (length es) 0 s1) by (done || lia).
      by rewrite drop_0, firstn_all. }
  rewrite Hraw.
  assert (strict_eq (VBool true) (VBool false) = false) as Htf by done.
  assert (strict_eq (VBool false) (VBool false) = true) as Hff by done.
  split.
  - intros Hx. destruct b.
    + rewrite Htf. by eexists.
    + rewrite Hff, bool_decide_eq_true_2 by done. by eexists.
  - intros Hprim Hx.
    assert (b = false) as ->.
    { destruct Hb as [[_ ->]|[_ Hb]]; [done | by apply Hb]. }
    rewrite Hff, bool_decide_eq_false_2 by done. by eexists.
Qed.

Lemma includes_finds_element_witness :
  (VObj 0 ∈ [VObj 0] ->
   exists s', call_method 2 (KStr "includes") (VObj 0) None array_of_object
              = Ok (VBool true) s') /\
  ((forall r, VObj 0 ≠ VObj r) -> VObj 0 ∉ [VObj 0] ->
   exists s', call_method 2 (KStr "includes") (VObj 0) None array_of_object
              = Ok (VBool false) s').
Proof.
  apply (includes_finds_element array_of_object 1 2 [VObj 0] false false).
  - reflexivity.
  - reflexivity.
Defined.

Lemma with_heap_id (s : State) : with_heap (heap s) s = s.
Proof. by destruct s. Qed.

Lemma resize_id (es : list value) : resize (length es) es = es.
Proof.
  unfold resize. rewrite firstn_all, Nat.sub_diag. apply app_nil_r.
Qed.

(** A write of the length an array already has, through its handle. *)
Lemma set_same_length (s : State) (arr p : nat) (es : list value) (sh : bool) :
  heap s !! arr = Some (OArray es) ->
  heap s !! p = Some (OProxy arr sh false) ->
  (Z.of_nat (length es) < 4294967296)%Z ->
  set arr false (KStr "length") (VNum (Z.of_nat (length es))) p s
  = Ok (true, None) s.
Proof.
  intros Ha Hp Hlen.
  rewrite (set_steps s arr p (OArray es) (KStr "length") _ _ ADD Ha
             (raw_length es) (classify_length es)).
  unfold behind. rewrite Hp. unfold define_own. rewrite Ha.
  rewrite decide_True by done. unfold array_length.
  rewrite decide_True by lia. rewrite Nat2Z.id, resize_id.
  rewrite list_insert_id by done. rewrite with_heap_id. cbn [bind].
  unfold receiver_raw. rewrite Hp.
  assert (strict_eq (VObj arr) (VObj arr) = true) as -> by by apply strict_eq_obj.
  assert (changed (VNum (Z.of_nat (length es)))
            (VNum (Z.of_nat (length es))) = false) as ->; [|done].
  apply not_true_is_false. intros H%changed_iff. by apply H.
Qed.

(** X20.  [arr.push(x)] through a handle that is not read-only, [x] not
    [undefined], whatever effect is active.  The method reads [length] and
    writes the element and [length] through the traps with tracking off: it
    subscribes nothing.  It calls [trigger] once, for the new index with type
    ADD; when the effects run by that call leave the objects and the
    tracking flag as they are, [push] answers the new length with the element
    appended, and tracking is on afterwards.  When that call ends by an
    exception so does [push], and nothing sets the flag back.  A read of
    [length] through the handle, in contrast, subscribes the active
    effect. *)
Theorem push_subscribes_nothing
    (notify : TriggerCall -> State -> result unit) (s : State) (arr p : nat)
    (es : list value) (sh : bool) (x : value) :
  heap s !! arr = Some (OArray es) ->
  heap s !! p = Some (OProxy arr sh false) ->
  x ≠ VUndef ->
  (Z.of_nat (length es) + 1 < 4294967296)%Z ->
  let mid :=
    with_heap (<[arr := OArray (es ++ [x])]> (heap s))
      (with_shouldTrack false s) in
  let c := mkCall arr (KIdx (length es)) ADD x in
  (forall s2,
     notify c mid = Ok tt s2 -> heap s2 = heap mid -> shouldTrack s2 = false ->
     call_push notify p [x] s
     = Ok (VNum (Z.of_nat (length es) + 1)) (with_shouldTrack true s2)) /\
  (forall e s2, notify c mid = Throw e s2 ->
     call_push notify p [x] s = Throw e s2) /\
  (forall a, activeEffect s = Some a -> shouldTrack s = true ->
     exists s', get arr sh false (KStr "length") s
                = Ok (GotValue (VNum (Z.of_nat (length es)))) s' /\
                a ∈ subscribers s' arr (KStr "length")).
Proof.
  intros Ha Hp Hx Hlen mid c.
  assert (arr < length (heap s)) as Hlt by by eapply lookup_lt_Some.
  assert (p ≠ arr) as Hpa by (intros ->; congruence).
  set (s0 := with_shouldTrack false s).
  assert (call_push notify p [x] s =
          bind (notify c mid) (λ _ s2,
            bind (obj_set notify p (KStr "length")
                    (VNum (Z.of_nat (S (length es)))) s2) (λ _ s3,
              Ok (VNum (Z.of_nat (S (length es)))) (with_shouldTrack true s3))))
    as Hcall.
  { unfold call_push, obj_get at 1. rewrite Hp. unfold get at 1.
    rewrite decide_False by done. rewrite Ha. cbn [isArray].
    assert (arrayInstrumentations (KStr "push") = Some Push) as -> by done.
    cbn [bind]. unfold instrumented_mutation, push. fold s0.
    unfold obj_get at 1.
    assert (heap s0 !! p = Some (OProxy arr sh false)) as -> by done.
    rewrite (get_length s0 arr es sh false) by done.
    assert (track arr (KStr "length") s0 = s0) as Htr.
    { unfold track. by destruct (activeEffect s0). }
    cbn [negb andb is_symbol]. rewrite Htr.
    cbn [bind]. rewrite Nat2Z.id. cbn [push_items].
    unfold obj_set at 1.
    assert (heap s0 !! p = Some (OProxy arr sh false)) as -> by done.
    rewrite (set_index s0 arr p es sh (length es) x) by done.
    rewrite (lookup_ge_None_2 es (length es)) by done.
    cbn [default from_option].
    assert (changed VUndef x = true) as -> by (apply changed_iff; congruence).
    rewrite decide_False by lia. cbn [bind fst snd].
    assert (put_index (length es) x es = es ++ [x]) as ->.
    { unfold put_index. rewrite decide_False by lia.
      by rewrite Nat.sub_diag. }
    change (with_heap (<[arr := OArray (es ++ [x])]> (heap s0)) s0) with mid.
    fold c. destruct (notify c mid) as [[] s2|e s2|]; [|done..].
    cbn [bind]. by destruct (obj_set _ _ _ _ _). }
  split; [|split].
  - intros s2 Hn Hh2 Hst. rewrite Hcall, Hn. cbn [bind].
    assert (heap s2 !! arr = Some (OArray (es ++ [x]))) as Ha2.
    { rewrite Hh2. subst mid. cbn [heap with_heap].
      by apply list_lookup_insert_eq. }
    assert (heap s2 !! p = Some (OProxy arr sh false)) as Hp2.
    { rewrite Hh2. subst mid. cbn [heap with_heap].
      by rewrite list_lookup_insert_ne. }
    unfold obj_set. rewrite Hp2.
    assert (S (length es) = length (es ++ [x])) as Hl
      by (rewrite length_app; simpl; lia).
    rewrite Hl.
    rewrite (set_same_length s2 arr p (es ++ [x]) sh) by (done || lia).
    cbn [bind fst snd]. do 2 f_equal. rewrite <- Hl. lia.
  - intros e s2 Hn. by rewrite Hcall, Hn.
  - intros a Hact Hst. rewrite (get_length s arr es sh false) by done.
    cbn [negb andb is_symbol].
    exists (track arr (KStr "length") s). split; [done|].
    apply subscribers_track_iff. right. done.
Qed.

Lemma push_subscribes_nothing_witness :
  let mid :=
    with_heap (<[0 := OArray ([VNum 10; VNum 20] ++ [VNum 30])]>
                 (heap array_in_effect))
      (with_shouldTrack false array_in_effect) in
  let c := mkCall 0 (KIdx (length [VNum 10; VNum 20])) ADD (VNum 30) in
  (forall s2,
     (λ _ s, Ok tt s) c mid = Ok tt s2 -> heap s2 = heap mid ->
     shouldTrack s2 = false ->
     call_push (λ _ s, Ok tt s) 1 [VNum 30] array_in_effect
     = Ok (VNum (Z.of_nat (length [VNum 10; VNum 20]) + 1))
         (with_shouldTrack true s2)) /\
  (forall e s2, (λ _ s, Ok tt s) c mid = Throw e s2 ->
     call_push (λ _ s, Ok tt s) 1 [VNum 30] array_in_effect = Throw e s2) /\
  (forall a, activeEffect array_in_effect = Some a ->
     shouldTrack array_in_effect = true ->
     exists s', get 0 false false (KStr "length") array_in_effect
                = Ok (GotValue (VNum (Z.of_nat (length [VNum 10; VNum 20])))) s' /\
                a ∈ subscribers s' 0 (KStr "length")).
Proof.
  apply (push_subscribes_nothing (λ _ s, Ok tt s) array_in_effect 0 1
           [VNum 10; VNum 20] false (VNum 30)).
  - reflexivity.
  - reflexivity.
  - discriminate.
  - simpl. lia.
Defined.

End ReactiveFacts.
